(** * Pigment: the factory grid and its colour arithmetic

    A shallow embedding of [colorUtils.js] (the RYB pigment mixer) and of
    the component graph of [game.js] (components, ports, connections, the
    connection resolver and the bounded fixed-point colour propagation).

    JavaScript numbers are IEEE 754 binary64 values; they are modelled by
    Rocq's primitive [float], which is the same format with the same
    round-to-nearest-even arithmetic.  DOM bookkeeping (elements, classes,
    SVG paths, positions) has no influence on the graph and is left out. *)

From Stdlib Require Import Ascii ZArith Floats Bool List.
From stdpp Require Import base option list strings gmap fin_maps pretty.

Set Default Proof Using "Type".

(* ================================================================== *)
(** ** JavaScript numbers and the [Math] functions the code calls      *)
(* ================================================================== *)

Module Js.

Abbreviation number := float.

(** The number denoted by an integer literal or integer value. *)
Definition of_Z (z : Z) : number :=
  SF2Prim (binary_normalize prec emax z 0 false).

(** [Math.min] of two arguments: NaN if either is NaN, and [-0] is
    smaller than [+0]. *)
Definition min2 (x y : number) : number :=
  if is_nan x || is_nan y then nan
  else if (x <? y)%float then x
  else if (y <? x)%float then y
  else if get_sign x then x else y.

(** [Math.max] of two arguments: NaN if either is NaN, and [+0] is
    larger than [-0]. *)
Definition max2 (x y : number) : number :=
  if is_nan x || is_nan y then nan
  else if (x <? y)%float then y
  else if (y <? x)%float then x
  else if get_sign x then y else x.

Definition Math_min (x y : number) : number := min2 x y.
Definition Math_max (x y : number) : number := max2 x y.
Definition Math_min3 (x y z : number) : number := min2 (min2 x y) z.
Definition Math_max3 (x y z : number) : number := max2 (max2 x y) z.

(** The zero of the sign of the argument. *)
Definition signed_zero (s : bool) : number := if s then neg_zero else zero.

(** [Math.floor]: the largest integral number not above the argument;
    NaN, the infinities and both zeros are returned unchanged.  A finite
    number is [(-1)^s * m * 2^e]; with [e >= 0] it is integral. *)
Definition Math_floor (x : number) : number :=
  match Prim2SF x with
  | S754_finite s m e =>
      if (0 <=? e)%Z then x
      else
        let q := Z.shiftr (cond_Zopp s (Zpos m)) (- e) in
        if (q =? 0)%Z then signed_zero s else of_Z q
  | _ => x
  end.

(** [Math.round]: the integral number closest to the argument, ties
    going towards +infinity, that is [floor (x + 1/2)] computed exactly;
    a result of zero keeps the sign of the argument. *)
Definition Math_round (x : number) : number :=
  match Prim2SF x with
  | S754_finite s m e =>
      if (0 <=? e)%Z then x
      else
        let n := cond_Zopp s (Zpos m) in
        let q := Z.shiftr (2 * n + 2 ^ (- e)) (- e + 1) in
        if (q =? 0)%Z then signed_zero s else of_Z q
  | _ => x
  end.

(** [a === b] on numbers. *)
Definition strict_eq (a b : number) : bool := (a =? b)%float.

(** [a > b] on numbers. *)
Definition gt (a b : number) : bool := (b <? a)%float.

End Js.

Import Js.

(* ================================================================== *)
(** ** colorUtils.js                                                   *)
(* ================================================================== *)

(** A colour is an array of three numbers [[r, g, b]]. *)
Definition color : Type := number * number * number.

Definition channel (c : color) (k : nat) : number :=
  match c, k with
  | (r, _, _), 0 => r
  | (_, g, _), 1 => g
  | (_, _, b), _ => b
  end.

Definition rgb (r g b : Z) : color := (of_Z r, of_Z g, of_Z b).

Local Open Scope float_scope.

Definition cubicInt (t a b : number) : number :=
  let weight := t * t * (3 - 2 * t) in
  a + weight * (b - a).

(** [colors[i][component]] *)
Definition corner (colors : list color) (i component : nat) : number :=
  channel (nth i colors (nan, nan, nan)) component.

Definition interpolateComponent (iR iY iB : number) (colors : list color)
    (component : nat) : number :=
  let x0 := cubicInt iB (corner colors 0 component) (corner colors 1 component) in
  let x1 := cubicInt iB (corner colors 2 component) (corner colors 3 component) in
  let x2 := cubicInt iB (corner colors 4 component) (corner colors 5 component) in
  let x3 := cubicInt iB (corner colors 6 component) (corner colors 7 component) in
  let y0 := cubicInt iY x0 x1 in
  let y1 := cubicInt iY x2 x3 in
  cubicInt iR y0 y1.

(** The corners of the RYB cube as RGB colours. *)
Definition COLORS : list color :=
  [ (255, 255, 255)   (* white (no color) *)
  ; (0, 0, 255)       (* blue *)
  ; (255, 255, 0)     (* yellow *)
  ; (0, 255, 0)       (* green (yellow + blue) *)
  ; (255, 0, 0)       (* red *)
  ; (128, 0, 128)     (* purple (red + blue) *)
  ; (255, 128, 0)     (* orange (red + yellow) *)
  ; (0, 0, 0)         (* black (all colors) *)
  ].

Definition rybToRgb (ryb : color) : color :=
  let r := channel ryb 0 / 255 in
  let y := channel ryb 1 / 255 in
  let b := channel ryb 2 / 255 in
  let outR := interpolateComponent r y b COLORS 0 in
  let outG := interpolateComponent r y b COLORS 1 in
  let outB := interpolateComponent r y b COLORS 2 in
  ( Math_round (Math_min 255 (Math_max 0 outR)),
    Math_round (Math_min 255 (Math_max 0 outG)),
    Math_round (Math_min 255 (Math_max 0 outB)) ).

Definition rgbToRyb (c : color) : color :=
  let r := channel c 0 in
  let g := channel c 1 in
  let b := channel c 2 in
  (* Remove whiteness from the color *)
  let white := Math_min3 r g b in
  let r := r - white in
  let g := g - white in
  let b := b - white in
  let maxG := Math_max3 r g b in
  (* Get yellow out of red+green *)
  let y := Math_min r g in
  let r := r - y in
  let g := g - y in
  (* If blue and green, cut both in half to make blue *)
  let '(b, g) :=
    if gt b 0 && gt g 0 then (Math_floor (b / 2), Math_floor (g / 2))
    else (b, g) in
  (* Redistribute remaining green *)
  let y := y + g in
  let b := b + g in
  (* Normalize to max value *)
  let maxRYB := Math_max3 r y b in
  let '(r, y, b) :=
    if gt maxRYB 0 then
      let factor := maxG / maxRYB in
      (Math_round (r * factor), Math_round (y * factor), Math_round (b * factor))
    else (r, y, b) in
  (* Add whiteness back *)
  (r + white, y + white, b + white).

Definition mixColors (color1 color2 : color) : color :=
  let ryb1 := rgbToRyb color1 in
  let ryb2 := rgbToRyb color2 in
  let mixedRyb :=
    ( Math_round ((channel ryb1 0 + channel ryb2 0) / 2),
      Math_round ((channel ryb1 1 + channel ryb2 1) / 2),
      Math_round ((channel ryb1 2 + channel ryb2 2) / 2) ) in
  rybToRgb mixedRyb.

Local Close Scope float_scope.

(* ================================================================== *)
(** ** game.js: colours on the grid                                    *)
(* ================================================================== *)

(** game.js carries its own copies of [cubicInt], [interpolateComponent],
    [rybToRgb], [rgbToRyb] and [mixColors]; they are the same functions
    as those of colorUtils.js above.  A colour variable of the grid is
    either an array or [null]: [option color]. *)

Inductive Mode := darken | lighten.

Definition adjustColor (c : option color) (mode : Mode) : option color :=
  match c with
  | None => None
  | Some (r, g, b) =>
      let factor := match mode with
                    | darken => 0x1.999999999999ap-1%float   (* 0.8 *)
                    | lighten => 0x1.3333333333333p+0%float  (* 1.2 *)
                    end in
      let f := fun value => Math_max 0 (Math_min 255 (Math_round (value * factor))) in
      Some (f r, f g, f b)
  end.

Definition colorsEqual (a b : option color) : bool :=
  match a, b with
  | None, None => true
  | None, Some _ | Some _, None => false
  | Some (a0, a1, a2), Some (b0, b1, b2) =>
      strict_eq a0 b0 && strict_eq a1 b1 && strict_eq a2 b2
  end.

(* ================================================================== *)
(** ** game.js: components, ports, connections                         *)
(* ================================================================== *)

Inductive Role := input | output | flex.
Inductive CType := factory | adder | gradientor | storage.

#[global] Instance Role_eq_dec : EqDecision Role.
Proof. solve_decision. Defined.
#[global] Instance CType_eq_dec : EqDecision CType.
Proof. solve_decision. Defined.
#[global] Instance Mode_eq_dec : EqDecision Mode.
Proof. solve_decision. Defined.

Record port := Port { port_id : string; port_role : Role }.

Record portRef := PortRef { componentId : string; portId : string }.

#[global] Instance portRef_eq_dec : EqDecision portRef.
Proof. solve_decision. Defined.

(** The object [storageSlots]: port id to held colour (or [null]). *)
Abbreviation slots := (gmap string (option color)).

(** The [Map] [portOutputs]: port key to emitted colour (or [null]). *)
Abbreviation outputs := (gmap string (option color)).

Record component := Component {
  comp_id : string;
  comp_type : CType;
  comp_color : option color;
  comp_ports : list port;
  comp_storageSlots : option slots;
  comp_mode : option Mode
}.

Record connection := Connection {
  conn_id : string;
  conn_from : portRef;
  conn_to : portRef
}.

(** The module-level variables of game.js. *)
Record state := State {
  components : list component;
  connections : list connection;
  selectedPort : option portRef;
  idCounter : N
}.

Definition init : state :=
  {| components := []; connections := []; selectedPort := None; idCounter := 1 |}.

Definition set_components (st : state) (cs : list component) : state :=
  {| components := cs; connections := connections st;
     selectedPort := selectedPort st; idCounter := idCounter st |}.

Definition set_connections (st : state) (ks : list connection) : state :=
  {| components := components st; connections := ks;
     selectedPort := selectedPort st; idCounter := idCounter st |}.

Definition set_storageSlots (c : component) (s : slots) : component :=
  {| comp_id := comp_id c; comp_type := comp_type c; comp_color := comp_color c;
     comp_ports := comp_ports c; comp_storageSlots := Some s;
     comp_mode := comp_mode c |}.

Definition push_port (c : component) (p : port) : component :=
  {| comp_id := comp_id c; comp_type := comp_type c; comp_color := comp_color c;
     comp_ports := comp_ports c ++ [p]; comp_storageSlots := comp_storageSlots c;
     comp_mode := comp_mode c |}.

(** [nextId] with the counter a natural number, which counts without
    end.  [idCounter] of game.js is a number: it counts like this below
    2^53 and stays at 2^53 from there on; [Binary64.nextId] below is
    [nextId] with that counter, and the two make the same ids as long
    as the counter is below 2^53. *)
Definition nextId (prefix : string) (st : state) : string * state :=
  let n := (idCounter st + 1)%N in
  (prefix +:+ "-" +:+ pretty n,
   {| components := components st; connections := connections st;
      selectedPort := selectedPort st; idCounter := n |}).

Definition portKey (ref : portRef) : string :=
  componentId ref +:+ ":" +:+ portId ref.

(** [map.has(key) ? map.get(key) : null], and also [map.get(key) || null]. *)
Definition getOutput (map : outputs) (key : string) : option color :=
  match map !! key with
  | Some v => v
  | None => None
  end.

Definition setPortOutput (map : outputs) (key : string) (c : option color)
    : outputs * bool :=
  let normalized := c in
  let current := getOutput map key in
  if colorsEqual current normalized then (map, false)
  else (<[key := normalized]> map, true).

(** [createComponent]'s second argument. *)
Record options := Options { opt_color : option color; opt_mode : option Mode }.

Definition addPort (role : Role) (cst : component * state) : component * state :=
  let '(c, st) := cst in
  let '(pid, st) := nextId "p" st in
  (push_port c {| port_id := pid; port_role := role |}, st).

Definition buildPorts (cst : component * state) : component * state :=
  match comp_type (fst cst) with
  | factory => addPort output (addPort output (addPort output (addPort output cst)))
  | adder => addPort output (addPort input (addPort input cst))
  | gradientor => addPort output (addPort input cst)
  | storage =>
      addPort flex (addPort flex (addPort flex
        (addPort flex (addPort flex (addPort flex cst)))))
  end.

Definition createComponent (type : CType) (o : options) (st : state)
    : component * state :=
  let '(cid, st) := nextId "c" st in
  let c := {| comp_id := cid; comp_type := type; comp_color := opt_color o;
              comp_ports := [];
              comp_storageSlots :=
                match type with storage => Some ∅ | _ => None end;
              comp_mode := opt_mode o |} in
  let '(c, st) := buildPorts (c, st) in
  (c, set_components st (components st ++ [c])).

Definition findComponent (st : state) (cid : string) : option component :=
  find (fun c => bool_decide (comp_id c = cid)) (components st).

Definition getPort (st : state) (ref : portRef) : option port :=
  match findComponent st (componentId ref) with
  | None => None
  | Some c => find (fun p => bool_decide (port_id p = portId ref)) (comp_ports c)
  end.

Definition sameRef (a b : portRef) : bool :=
  bool_decide (componentId a = componentId b)
  && bool_decide (portId a = portId b).

(** [canAccept] of [resolveConnection]. *)
Definition canAccept (st : state) (toPortRef : portRef) : bool :=
  negb (existsb (fun conn => sameRef (conn_to conn) toPortRef) (connections st)).

(** [canSend] of [resolveConnection]. *)
Definition canSend (st : state) (fromPortRef : portRef) (fromPort : port) : bool :=
  let sourceComponent := findComponent st (componentId fromPortRef) in
  let isOutputOf (t : CType) :=
    match sourceComponent with
    | Some c => bool_decide (comp_type c = t)
                && bool_decide (port_role fromPort = output)
    | None => false
    end in
  if isOutputOf adder || isOutputOf gradientor then true
  else negb (existsb (fun conn => sameRef (conn_from conn) fromPortRef)
               (connections st)).

(** The result [{ from, to }] of [resolveConnection], or [null]. *)
Definition resolveConnection (st : state) (firstRef secondRef : portRef)
    : option (portRef * portRef) :=
  match getPort st firstRef, getPort st secondRef with
  | Some firstPort, Some secondPort =>
      let toRef (from to : portRef) := Some (from, to) in
      let firstToSecond :=
        if negb (canAccept st secondRef) || negb (canSend st firstRef firstPort)
        then None else toRef firstRef secondRef in
      let secondToFirst :=
        if negb (canAccept st firstRef) || negb (canSend st secondRef secondPort)
        then None else toRef secondRef firstRef in
      match port_role firstPort, port_role secondPort with
      | output, input => firstToSecond
      | input, output => secondToFirst
      | output, flex => firstToSecond
      | flex, output => secondToFirst
      | input, flex => secondToFirst
      | flex, input => firstToSecond
      | flex, flex => firstToSecond
      | _, _ => None
      end
  | _, _ => None
  end.

Definition connectionExists (st : state) (fromRef toRef : portRef) : bool :=
  existsb (fun conn => sameRef (conn_from conn) fromRef
                       && sameRef (conn_to conn) toRef) (connections st).

Definition clearSelection (st : state) : state :=
  {| components := components st; connections := connections st;
     selectedPort := None; idCounter := idCounter st |}.

(* ================================================================== *)
(** ** game.js: computeColors                                          *)
(* ================================================================== *)

(** [connections.find(conn => conn.to.componentId === cid &&
    conn.to.portId === pid)] *)
Definition findInbound (conns : list connection) (cid pid : string)
    : option connection :=
  find (fun conn => sameRef (conn_to conn) (PortRef cid pid)) conns.

(** [inbound ? (portOutputs.get(portKey(inbound.from)) || null) : null] *)
Definition inboundColor (conns : list connection) (map : outputs)
    (cid pid : string) : option color :=
  match findInbound conns cid pid with
  | None => None
  | Some inbound => getOutput map (portKey (conn_from inbound))
  end.

Definition hasRole (r : Role) (p : port) : bool := bool_decide (port_role p = r).

(** [ports.forEach(port => { if (setPortOutput(portOutputs, portKey({
    componentId, portId: port.id }), c)) changed = true })] *)
Fixpoint emitAll (cid : string) (ps : list port) (c : option color)
    (acc : outputs * bool) : outputs * bool :=
  match ps with
  | [] => acc
  | p :: ps =>
      let '(map, changed) := acc in
      let '(map, set) := setPortOutput map (portKey (PortRef cid (port_id p))) c in
      emitAll cid ps c (map, if set then true else changed)
  end.

(** [storageSlots[pid] || null] *)
Definition heldColor (s : slots) (pid : string) : option color :=
  match s !! pid with
  | Some v => v
  | None => None
  end.

(** First loop over the ports of a storage: take in the inbound colours. *)
Fixpoint storeInbound (conns : list connection) (map : outputs) (cid : string)
    (ps : list port) (acc : slots * bool) : slots * bool :=
  match ps with
  | [] => acc
  | p :: ps =>
      let '(s, changed) := acc in
      if negb (hasRole flex p) then storeInbound conns map cid ps (s, changed)
      else
        let inbound := inboundColor conns map cid (port_id p) in
        let prev := heldColor s (port_id p) in
        if negb (colorsEqual prev inbound)
        then storeInbound conns map cid ps (<[port_id p := inbound]> s, true)
        else storeInbound conns map cid ps (s, changed)
  end.

(** Second loop over the ports of a storage: emit the held colours. *)
Fixpoint emitStored (cid : string) (s : slots) (ps : list port)
    (acc : outputs * bool) : outputs * bool :=
  match ps with
  | [] => acc
  | p :: ps =>
      let '(map, changed) := acc in
      if negb (hasRole flex p) then emitStored cid s ps (map, changed)
      else
        let stored := heldColor s (port_id p) in
        let '(map, set) :=
          setPortOutput map (portKey (PortRef cid (port_id p))) stored in
        emitStored cid s ps (map, if set then true else changed)
  end.

(** [arr.filter(Boolean)] on an array of colours and [null]s. *)
Definition filterBoolean (l : list (option color)) : list color :=
  omap (fun x => x) l.

(** The colour an adder computes: [mixColors] of the first two input
    colours when at least two of its input ports read one, else [null]. *)
Definition adderColor (conns : list connection) (map : outputs) (c : component)
    : option color :=
  let inputPorts := filter (fun p => hasRole input p) (comp_ports c) in
  let inputColors :=
    filterBoolean
      (List.map (fun p => inboundColor conns map (comp_id c) (port_id p))
         inputPorts) in
  match inputColors with
  | c0 :: c1 :: _ => Some (mixColors c0 c1)
  | _ => None
  end.

(** The colour a gradientor computes: [adjustColor] of what its first
    input port reads, [null] when there is no such port. *)
Definition gradientorColor (conns : list connection) (map : outputs)
    (c : component) : option color :=
  let inputPort := find (fun p => hasRole input p) (comp_ports c) in
  let inbound :=
    match inputPort with
    | Some p => inboundColor conns map (comp_id c) (port_id p)
    | None => None
    end in
  adjustColor inbound
    (match comp_mode c with Some darken => darken | _ => lighten end).

(** The body of [components.forEach] in [computeColors]: one component is
    evaluated against the current [portOutputs]; a storage also updates
    its own [storageSlots]. *)
Definition evalComponent (conns : list connection) (c : component)
    (acc : outputs * bool) : component * (outputs * bool) :=
  match comp_type c with
  | factory =>
      let outs := filter (fun p => hasRole output p) (comp_ports c) in
      (c, emitAll (comp_id c) outs (comp_color c) acc)
  | adder =>
      let outputPorts := filter (fun p => hasRole output p) (comp_ports c) in
      let outColor := adderColor conns (fst acc) c in
      (c, emitAll (comp_id c) outputPorts outColor acc)
  | gradientor =>
      let outputPort := find (fun p => hasRole output p) (comp_ports c) in
      let adjusted := gradientorColor conns (fst acc) c in
      match outputPort with
      | Some p => (c, emitAll (comp_id c) [p] adjusted acc)
      | None => (c, acc)
      end
  | storage =>
      let s := match comp_storageSlots c with Some s => s | None => ∅ end in
      let '(s, changed) :=
        storeInbound conns (fst acc) (comp_id c) (comp_ports c) (s, snd acc) in
      (set_storageSlots c s,
       emitStored (comp_id c) s (comp_ports c) (fst acc, changed))
  end.

(** [components.forEach(component => ...)]: one round. *)
Fixpoint evalComponents (conns : list connection) (cs : list component)
    (acc : outputs * bool) : list component * (outputs * bool) :=
  match cs with
  | [] => ([], acc)
  | c :: cs =>
      let '(c, acc) := evalComponent conns c acc in
      let '(cs, acc) := evalComponents conns cs acc in
      (c :: cs, acc)
  end.

(** The local variables of [computeColors] together with the components
    its loop mutates. *)
Record loopState := LoopState {
  ls_components : list component;
  portOutputs : outputs;
  changed : bool;
  guard : nat
}.

(** The body of the [while]: [changed = false; guard += 1;
    components.forEach(...)]. *)
Definition round (conns : list connection) (s : loopState) : loopState :=
  let '(cs, (map, ch)) :=
    evalComponents conns (ls_components s) (portOutputs s, false) in
  {| ls_components := cs; portOutputs := map; changed := ch;
     guard := S (guard s) |}.

(** [while (changed && guard < 8) body]; [fuel] bounds the iterations the
    model is willing to unfold, [None] meaning the loop was still running
    when the fuel ran out. *)
Fixpoint while (fuel : nat) (conns : list connection) (s : loopState)
    : option loopState :=
  if changed s && (guard s <? 8)%nat then
    match fuel with
    | 0 => None
    | S fuel => while fuel conns (round conns s)
    end
  else Some s.

Definition enterLoop (st : state) : loopState :=
  {| ls_components := components st; portOutputs := ∅; changed := true;
     guard := 0 |}.

(** [computeColors()]: the state afterwards (the storages hold their new
    colours) and the map [portOutputs] handed to the view. *)
Definition computeColors (st : state) : state * outputs :=
  match while 8 (connections st) (enterLoop st) with
  | Some s => (set_components st (ls_components s), portOutputs s)
  | None => (st, ∅)
  end.

(** The loop state at the exit of [computeColors]'s loop. *)
Definition exitLoop (st : state) : option loopState :=
  while 8 (connections st) (enterLoop st).

(* ================================================================== *)
(** ** game.js: the user's operations                                  *)
(* ================================================================== *)

(** [handlePortClick] once a first port is selected: the part of the
    handler that decides on the link between [selectedPort] and the port
    clicked.  It returns the connection it pushed, if any. *)
Definition tryConnect (first second : portRef) (st : state)
    : option connection * state :=
  if bool_decide (componentId first = componentId second)
  then (None, clearSelection st)
  else
    match resolveConnection st first second with
    | None => (None, clearSelection st)
    | Some (from, to) =>
        if connectionExists st from to then (None, clearSelection st)
        else
          let '(lid, st) := nextId "link" st in
          let conn := {| conn_id := lid; conn_from := from; conn_to := to |} in
          let st := set_connections st (connections st ++ [conn]) in
          let st := clearSelection st in
          (Some conn, fst (computeColors st))
    end.

Definition handlePortClick (portRef : portRef) (st : state) : state :=
  match selectedPort st with
  | None =>
      {| components := components st; connections := connections st;
         selectedPort := Some portRef; idCounter := idCounter st |}
  | Some selected => snd (tryConnect selected portRef st)
  end.

(** [components.findIndex(c => c.id === componentId)] and
    [components.splice(idx, 1)]: drop the first component of that id. *)
Fixpoint spliceFirst (cid : string) (cs : list component) : list component :=
  match cs with
  | [] => []
  | c :: cs => if bool_decide (comp_id c = cid) then cs
               else c :: spliceFirst cid cs
  end.

(** What [deleteComponent] does to the graph before it recomputes: the
    selection on the component is dropped, its connections are filtered
    out and the component is spliced from the list. *)
Definition removeComponent (cid : string) (st : state) : state :=
  let st :=
    match selectedPort st with
    | Some sel => if bool_decide (componentId sel = cid)
                  then clearSelection st else st
    | None => st
    end in
  let st :=
    set_connections st
      (filter (fun conn =>
                 negb (bool_decide (componentId (conn_from conn) = cid))
                 && negb (bool_decide (componentId (conn_to conn) = cid)))
         (connections st)) in
  set_components st (spliceFirst cid (components st)).

Definition deleteComponent (cid : string) (st : state) : state :=
  match findComponent st cid with
  | None => st
  | Some _ => fst (computeColors (removeComponent cid st))
  end.

Definition resetGrid (st : state) : state :=
  let st := set_connections st [] in
  let st := set_components st [] in
  fst (computeColors st).

(** The operations the grid offers. *)
Inductive action :=
| Create (type : CType) (o : options)
| Click (ref : portRef)
| Connect (first second : portRef)
| Delete (cid : string)
| Reset
| Recompute.

Definition perform (a : action) (st : state) : state :=
  match a with
  | Create type o => snd (createComponent type o st)
  | Click ref => handlePortClick ref st
  | Connect first second => snd (tryConnect first second st)
  | Delete cid => deleteComponent cid st
  | Reset => resetGrid st
  | Recompute => fst (computeColors st)
  end.

Definition performAll (l : list action) (st : state) : state :=
  foldl (fun st a => perform a st) st l.

Inductive reachable : state -> Prop :=
| reachable_init : reachable init
| reachable_step a st : reachable st -> reachable (perform a st).

(* ================================================================== *)
(** ** Notions used to state the properties                            *)
(* ================================================================== *)

(** The orientation table of the connection resolver, by the roles of the
    first and the second port selected: Output to Input, Output to Flex,
    Flex to Input, and first to second between two Flex ports; no other
    pair of roles has an orientation. *)
Definition orientation (r1 r2 : Role) (first second : portRef)
    : option (portRef * portRef) :=
  match r1, r2 with
  | output, input | output, flex | flex, input | flex, flex =>
      Some (first, second)
  | input, output | flex, output | input, flex => Some (second, first)
  | output, output | input, input => None
  end.

(** The colour a storage component holds for a port, [null] when it holds
    none. *)
Definition held (c : component) (pid : string) : option color :=
  match comp_storageSlots c with
  | Some s => heldColor s pid
  | None => None
  end.

(** The input ports and the output ports of a component, in order. *)
Definition inputsOf (c : component) : list port :=
  filter (fun p => hasRole input p) (comp_ports c).
Definition outputsOf (c : component) : list port :=
  filter (fun p => hasRole output p) (comp_ports c).

(** The key of a port of a component in [portOutputs]. *)
Definition keyOf (c : component) (p : port) : string :=
  portKey (PortRef (comp_id c) (port_id p)).


(** The pairs the resolver has to turn down, each with its cause. *)
Inductive mustReject (st : state) (a b : portRef) : Prop :=
| reject_outputs pa pb :
    getPort st a = Some pa -> getPort st b = Some pb ->
    port_role pa = output -> port_role pb = output -> mustReject st a b
| reject_inputs pa pb :
    getPort st a = Some pa -> getPort st b = Some pb ->
    port_role pa = input -> port_role pb = input -> mustReject st a b
| reject_same_component :
    componentId a = componentId b -> mustReject st a b
| reject_sink_fed pa pb from to conn :
    getPort st a = Some pa -> getPort st b = Some pb ->
    orientation (port_role pa) (port_role pb) a b = Some (from, to) ->
    conn ∈ connections st -> conn_to conn = to -> mustReject st a b
| reject_duplicate pa pb from to conn :
    getPort st a = Some pa -> getPort st b = Some pb ->
    orientation (port_role pa) (port_role pb) a b = Some (from, to) ->
    conn ∈ connections st -> conn_from conn = from -> conn_to conn = to ->
    mustReject st a b.

(** A source port that may fan out: an Output port of an adder or of a
    gradientor. *)
Definition fanOutSource (st : state) (ref : portRef) (p : port) : Prop :=
  exists c, findComponent st (componentId ref) = Some c
            /\ (comp_type c = adder \/ comp_type c = gradientor)
            /\ port_role p = output.

(** A source port limited to one connection: an Output port of a factory
    or a Flex port of a storage. *)
Definition singleSource (st : state) (ref : portRef) (p : port) : Prop :=
  exists c, findComponent st (componentId ref) = Some c
            /\ ((comp_type c = factory /\ port_role p = output)
                \/ (comp_type c = storage /\ port_role p = flex)).

(** Evaluation changes nothing of a component but the slots of a
    storage: two versions of a component have the same shape. *)
Definition sameShape (c c' : component) : Prop :=
  comp_id c' = comp_id c /\ comp_type c' = comp_type c
  /\ comp_color c' = comp_color c /\ comp_ports c' = comp_ports c
  /\ comp_mode c' = comp_mode c.

(** The fully saturated pigments that mixing with itself leaves alone. *)
Definition pure_pigments : list color :=
  [ rgb 255 0 0; rgb 255 255 0; rgb 0 0 255; rgb 0 255 0; rgb 255 128 0 ].

(* ================================================================== *)
(** ** Some grids                                                      *)
(* ================================================================== *)

Definition red : color := rgb 255 0 0.
Definition blue : color := rgb 0 0 255.

Definition plain : options := {| opt_color := None; opt_mode := None |}.
Definition paint (c : color) : options :=
  {| opt_color := Some c; opt_mode := None |}.

(** A red and a blue factory feeding the two inputs of an adder:
    components [c-2] (ports [p-3] to [p-6]), [c-7] ([p-8] to [p-11]) and
    [c-12] (inputs [p-13], [p-14], output [p-15]). *)
Definition scene_mix : state :=
  performAll
    [ Create factory (paint red); Create factory (paint blue);
      Create adder plain;
      Connect (PortRef "c-2" "p-3") (PortRef "c-12" "p-13");
      Connect (PortRef "c-12" "p-14") (PortRef "c-7" "p-8") ]
    init.


(** The same grid with a storage [c-18] (ports [p-19] to [p-24]) whose
    first port is fed by the adder. *)
Definition scene_fan : state :=
  performAll
    [ Create storage plain;
      Connect (PortRef "c-12" "p-15") (PortRef "c-18" "p-19") ]
    scene_mix.


(** A red factory [c-2] feeding the first port [p-8] of a storage [c-7],
    and the grid [deleteComponent] hands to [computeColors] when the
    factory is deleted. *)
Definition scene_store : state :=
  performAll
    [ Create factory (paint red); Create storage plain;
      Connect (PortRef "c-2" "p-3") (PortRef "c-7" "p-8") ]
    init.

Definition scene_unfed : state := removeComponent "c-2" scene_store.

(** The component of an id, for reading the grids above. *)
Definition componentOf (st : state) (cid : string) : component :=
  match findComponent st cid with
  | Some c => c
  | None => {| comp_id := ""; comp_type := factory; comp_color := None;
               comp_ports := []; comp_storageSlots := None;
               comp_mode := None |}
  end.

(* ================================================================== *)
(** ** Notions used for the fixed point                                *)
(* ================================================================== *)

#[global] Instance port_eq_dec : EqDecision port.
Proof. solve_decision. Defined.

(** What [setPortOutput] leaves in the map: the old value when the new
    one equals it for [colorsEqual], the new one otherwise. *)
Definition merge (old new : option color) : option color :=
  if colorsEqual old new then old else new.

(** The map [m'] has every colour of the map [m]. *)
Definition le_map (m m' : outputs) : Prop :=
  forall k v, getOutput m k = Some v -> getOutput m' k = Some v.

(** The ports of a component at which its evaluation sets an output. *)
Definition writesAt (c : component) (p : port) : bool :=
  match comp_type c with
  | factory | adder => hasRole output p
  | gradientor =>
      bool_decide (find (fun q => hasRole output q) (comp_ports c) = Some p)
  | storage => hasRole flex p
  end.

(** The colour the evaluation of a component sets at one of its ports,
    given the map it reads and, for a storage, the colours it holds. *)
Definition emitted (conns : list connection) (m : outputs) (c : component)
    (p : port) : option color :=
  if writesAt c p then
    match comp_type c with
    | factory => comp_color c
    | adder => adderColor conns m c
    | gradientor => gradientorColor conns m c
    | storage => held c (port_id p)
    end
  else None.

(** The colour [v] held for a port agrees with the inbound colour the
    port reads in the map. *)
Definition matched (conns : list connection) (m : outputs) (c : component)
    (p : port) (v : color) : Prop :=
  exists w, inboundColor conns m (comp_id c) (port_id p) = Some w
            /\ (v = w \/ colorsEqual (Some v) (Some w) = true).

(** The keys of the ports of a component, and of a list of components. *)
Definition keysOf (c : component) : list string :=
  List.map (keyOf c) (comp_ports c).
Definition allKeys (cs : list component) : list string :=
  flat_map keysOf cs.

(** The grids [createComponent] builds: no two ports share a key, and an
    adder has at most two Input ports. *)
Definition twoInputs (c : component) : Prop :=
  comp_type c = adder -> length (inputsOf c) <= 2.
Definition wellFormed (cs : list component) : Prop :=
  NoDup (allKeys cs) /\ Forall twoInputs cs.

(** A component not yet evaluated in this run of [computeColors] has no
    colour in the map. *)
Definition silent (m : outputs) (c : component) : Prop :=
  forall p, p ∈ comp_ports c -> getOutput m (keyOf c p) = None.

(** A component evaluated before: every colour at one of its keys is the
    colour it emits on the present map, and every colour a storage holds
    agrees with what the port reads. *)
Definition justified (conns : list connection) (m : outputs) (c : component)
    : Prop :=
  (forall p v, p ∈ comp_ports c -> getOutput m (keyOf c p) = Some v ->
               emitted conns m c p = Some v)
  /\ (comp_type c = storage ->
      forall p v, p ∈ comp_ports c -> port_role p = flex ->
                  held c (port_id p) = Some v -> matched conns m c p v).

(** The invariant of the rounds, on components tagged with whether they
    were evaluated in this run. *)
Definition tagged (b : bool) (conns : list connection) (m : outputs)
    (c : component) : Prop :=
  if b then justified conns m c else silent m c.
Definition roundInv (conns : list connection) (L : list (bool * component))
    (m : outputs) : Prop :=
  forall b c, (b, c) ∈ L -> tagged b conns m c.

(** A port id that names a Flex port of a storage. *)
Definition storesAt (c : component) (pid : string) : bool :=
  bool_decide (comp_type c = storage)
  && existsb (fun p => hasRole flex p && bool_decide (port_id p = pid))
       (comp_ports c).

(** How a component that was evaluated before changes in later rounds:
    held colours stay, empty slots of Flex ports may be filled. *)
Definition evolves (c c' : component) : Prop :=
  sameShape c c'
  /\ (forall pid v, held c pid = Some v -> held c' pid = Some v)
  /\ (forall pid, storesAt c pid = false -> held c' pid = held c pid).

(** Two versions of a component that hold the same colours. *)
Definition sameHeld (c c' : component) : Prop :=
  sameShape c c' /\ forall pid, held c' pid = held c pid.

(** The invariant of the loop of [computeColors] after its first round. *)
Definition loopInv (conns : list connection) (s : loopState) : Prop :=
  wellFormed (ls_components s)
  /\ roundInv conns (List.map (pair true) (ls_components s)) (portOutputs s).

(* ================================================================== *)
(** ** Notions used for the identifiers                                *)
(* ================================================================== *)

(** The string has no colon, the separator of [portKey]. *)
Fixpoint noColon (s : string) : bool :=
  match s with
  | EmptyString => true
  | String a s => negb (Ascii.eqb a ":"%char) && noColon s
  end.

Definition portIdsOf (c : component) : list string :=
  List.map port_id (comp_ports c).
Definition allPortIds (cs : list component) : list string :=
  flat_map portIdsOf cs.

(** A port id made by [nextId] from a counter value in [(lo, hi]]. *)
Definition madeWithin (lo hi : N) (pid : string) : Prop :=
  exists k, pid = "p-" +:+ pretty k /\ (lo < k <= hi)%N.

(** What [nextId] guarantees of the identifiers of a grid whose counter
    has reached [hi]: component ids without colon, port ids pairwise
    distinct and made from counter values already used; and adders have
    two inputs. *)
Definition idsOn (cs : list component) (hi : N) : Prop :=
  Forall (fun c => noColon (comp_id c) = true) cs
  /\ NoDup (allPortIds cs)
  /\ Forall (madeWithin 0 hi) (allPortIds cs)
  /\ Forall twoInputs cs.
Definition idsInv (st : state) : Prop :=
  idsOn (components st) (idCounter st).

(** A component under construction: its port ids so far are pairwise
    distinct and made from counter values above [lo]. *)
Definition freshPorts (lo : N) (cst : component * state) : Prop :=
  NoDup (portIdsOf (fst cst))
  /\ Forall (madeWithin lo (idCounter (snd cst))) (portIdsOf (fst cst))
  /\ (lo <= idCounter (snd cst))%N.

(* ================================================================== *)
(** ** game.js: what the view reads                                    *)
(* ================================================================== *)


Definition isPortOutput (conns : list connection) (p : port) (c : component)
    : bool :=
  match port_role p with
  | output => true
  | flex =>
      existsb (fun conn =>
                 sameRef (conn_from conn) (PortRef (comp_id c) (port_id p)))
        conns
  | input => false
  end.



Local Open Scope float_scope.

(** [setComponentPosition]: the position kept for a component, given the
    size of the board and of the element as the DOM reports them. *)
Definition setComponentPosition (rectWidth rectHeight width height x y : number)
    : number * number :=
  let clampedX := Math_max 8 (Math_min x (rectWidth - width - 8)) in
  let clampedY := Math_max 8 (Math_min y (rectHeight - height - 8)) in
  (clampedX, clampedY).

Local Close Scope float_scope.

(* ================================================================== *)
(** ** Notions used for the invariants of the grid                     *)
(* ================================================================== *)

(** The roles of the ports [buildPorts] gives a component of each type. *)
Definition layout (t : CType) : list Role :=
  match t with
  | factory => [output; output; output; output]
  | adder => [input; input; output]
  | gradientor => [input; output]
  | storage => [flex; flex; flex; flex; flex; flex]
  end.

(** Ports of the given roles, numbered from the counter value [n] on. *)
Fixpoint portsFrom (n : N) (roles : list Role) : list port :=
  match roles with
  | [] => []
  | r :: roles =>
      {| port_id := "p-" +:+ pretty (n + 1)%N; port_role := r |}
      :: portsFrom (n + 1) roles
  end.

(** An identifier [nextId] makes with this prefix from a counter value
    up to [hi]. *)
Definition madeBy (prefix : string) (hi : N) (id : string) : Prop :=
  exists k, id = prefix +:+ "-" +:+ pretty k /\ (k <= hi)%N.

(** The state after a first click: the port is selected. *)
Definition select (ref : portRef) (st : state) : state :=
  {| components := components st; connections := connections st;
     selectedPort := Some ref; idCounter := idCounter st |}.

(** The state [handlePortClick] hands to [computeColors] when it accepts
    a connection. *)
Definition linked (conn : connection) (st : state) : state :=
  {| components := components st; connections := connections st ++ [conn];
     selectedPort := None; idCounter := (idCounter st + 1)%N |}.

(** [handlePortClick] accepts the connection [conn] for the pair of ports
    selected. *)
Definition accepts (st : state) (a b : portRef) (conn : connection) : Prop :=
  componentId a <> componentId b
  /\ resolveConnection st a b = Some (conn_from conn, conn_to conn)
  /\ connectionExists st (conn_from conn) (conn_to conn) = false
  /\ conn_id conn = "link-" +:+ pretty (idCounter st + 1)%N.

(** The state [resetGrid] hands to [computeColors]. *)
Definition emptied (st : state) : state :=
  set_components (set_connections st []) [].

(** A component as [createComponent] builds it: the ports of its type,
    and slots exactly when it is a storage. *)
Definition built (c : component) : Prop :=
  List.map port_role (comp_ports c) = layout (comp_type c)
  /\ (is_Some (comp_storageSlots c) <-> comp_type c = storage).

(** Both ends of a connection are ports of the grid, on two components,
    the source not an Input and the sink not an Output. *)
Definition wired (st : state) (conn : connection) : Prop :=
  exists pf pt,
    getPort st (conn_from conn) = Some pf
    /\ getPort st (conn_to conn) = Some pt
    /\ port_role pf <> input /\ port_role pt <> output
    /\ componentId (conn_from conn) <> componentId (conn_to conn).

(** The number of connections that leave a port. *)
Definition outDegree (conns : list connection) (f : portRef) : nat :=
  length (filter (fun conn => sameRef (conn_from conn) f) conns).

(** The port may feed several connections: it is an Output port of an
    adder or of a gradientor. *)
Definition mayFanOut (st : state) (f : portRef) : Prop :=
  exists p, getPort st f = Some p /\ fanOutSource st f p.

(** The colours of the map sit at ports of the grid that a component
    writes. *)
Definition atWrittenPorts (cs : list component) (m : outputs) : Prop :=
  forall k v, getOutput m k = Some v ->
  exists c p, c ∈ cs /\ p ∈ comp_ports c /\ k = keyOf c p /\ writesAt c p = true.

(** Identifiers made by [nextId] with this prefix from counter values up
    to [hi], no two of them equal. *)
Definition idsMade (prefix : string) (hi : N) (ids : list string) : Prop :=
  Forall (madeBy prefix hi) ids /\ NoDup ids.

(* ================================================================== *)
(** ** Notions used for the arithmetic of numbers                      *)
(* ================================================================== *)

(** The place of a number that is not NaN in the order of the numbers:
    the sign and class first, then the exponent, then the mantissa; both
    zeros have the same place. *)
Definition rank (x : spec_float) : Z * Z * Z :=
  match x with
  | S754_zero _ => (0, 0, 0)%Z
  | S754_infinity s => (if s then (-2)%Z else 2%Z, 0%Z, 0%Z)
  | S754_nan => (0, 0, 0)%Z
  | S754_finite s m e =>
      if s then ((-1)%Z, (- e)%Z, Zneg m) else (1%Z, e, Zpos m)
  end.

Definition lexlt (a b : Z * Z * Z) : Prop :=
  (a.1.1 < b.1.1
   \/ (a.1.1 = b.1.1
       /\ (a.1.2 < b.1.2 \/ (a.1.2 = b.1.2 /\ a.2 < b.2))))%Z.

(** The order and the equality of numbers, as propositions. *)
Definition flt (x y : number) : Prop := (x <? y)%float = true.
Definition fle (x y : number) : Prop := (x <=? y)%float = true.

(** A number that is an integer from 0 to 255. *)
Definition eightBit (x : number) : Prop :=
  exists z, (0 <= z <= 255)%Z /\ x = of_Z z.

(** A number that is NaN or an integer from 0 to 255. *)
Definition eightBitOrNaN (x : number) : Prop := is_nan x = true \/ eightBit x.

(** A number that is NaN or lies between 0 and 255. *)
Definition inGamut (x : number) : Prop :=
  is_nan x = true \/ (fle 0 x /\ fle x 255).

(** A property of the three channels of a colour. *)
Definition channels (P : number -> Prop) (c : color) : Prop :=
  P (channel c 0) /\ P (channel c 1) /\ P (channel c 2).

(** What [adjustColor] does to each channel. *)
Definition adjustChannel (mode : Mode) (value : number) : number :=
  let factor := match mode with
                | darken => 0x1.999999999999ap-1%float
                | lighten => 0x1.3333333333333p+0%float
                end in
  Math_max 0 (Math_min 255 (Math_round (value * factor))).

(** Two functions of the integers agree on [0 .. n-1]. *)
Definition agreeBelow (n : nat) (f g : Z -> number) : bool :=
  forallb (fun k => PrimFloat.Leibniz.eqb (f (Z.of_nat k)) (g (Z.of_nat k)))
    (seq 0 n).

(** A coordinate of the RYB cube at one of its ends. *)
Definition cubeEnd (b : bool) : number := if b then 255%float else 0%float.

(** The index in [COLORS] of the corner of the RYB cube with these ends. *)
Definition cornerIndex (r y b : bool) : nat :=
  (if r then 4 else 0) + (if y then 2 else 0) + (if b then 1 else 0).

(* ================================================================== *)
(** ** More grids                                                      *)
(* ================================================================== *)

(** [scene_fan] with a second connection from the output of the adder,
    to the second port of the storage. *)
Definition scene_fan2 : state :=
  performAll [ Connect (PortRef "c-18" "p-20") (PortRef "c-12" "p-15") ]
    scene_fan.

(** A red factory [c-2] feeding a darkening gradientor [c-7] (input
    [p-8], output [p-9]). *)
Definition scene_dark : state :=
  performAll
    [ Create factory (paint red);
      Create gradientor {| opt_color := None; opt_mode := Some darken |};
      Connect (PortRef "c-2" "p-3") (PortRef "c-7" "p-8") ]
    init.

(** A factory whose colour has a NaN channel. *)
Definition scene_nan : state :=
  performAll [ Create factory (paint (nan, 0%float, 0%float)) ] init.

(** The operations that are no click on a port. *)
Definition passive (a : action) : bool :=
  match a with
  | Click _ | Connect _ _ => false
  | _ => true
  end.

(** A state after a reset in which a selection made before the reset is
    still pending: no connection, the old selection or none, and only
    components whose ids were made after the counter value [lo]. *)
Definition afterReset (lo : N) (sel : portRef) (s : state) : Prop :=
  connections s = []
  /\ (selectedPort s = Some sel \/ selectedPort s = None)
  /\ (lo <= idCounter s)%N
  /\ Forall (fun id => exists k, id = "c-" +:+ pretty k /\ (lo < k)%N)
       (List.map comp_id (components s)).

(* ================================================================== *)
(** ** game.js: the id counter as a binary64 number                    *)
(* ================================================================== *)

(** 2^53, up to which every natural number is a binary64 number. *)
Definition counterBound : N := 9007199254740992.

Module Binary64.

(** The number [idCounter] of game.js when its value is the natural
    number [n]. *)
Definition counterNumber (n : N) : number := of_Z (Z.of_N n).

(** The value of a number that is a natural number: [m * 2^e] for the
    mantissa [m] and the exponent [e] of the number. *)
Definition counterValue (x : number) : N :=
  match Prim2SF x with
  | S754_finite false m e => Z.to_N (Z.shiftl (Zpos m) e)
  | _ => 0%N
  end.

(** [idCounter += 1]: the sum is the binary64 sum. *)
Definition increment (n : N) : N := counterValue (counterNumber n + 1)%float.

(** [nextId]; the template literal writes the counter, an integer below
    10^21, in decimal digits. *)
Definition nextId (prefix : string) (st : state) : string * state :=
  let n := increment (idCounter st) in
  (prefix +:+ "-" +:+ pretty n,
   {| components := components st; connections := connections st;
      selectedPort := selectedPort st; idCounter := n |}).

Definition addPort (role : Role) (cst : component * state) : component * state :=
  let '(c, st) := cst in
  let '(pid, st) := nextId "p" st in
  (push_port c {| port_id := pid; port_role := role |}, st).

Definition buildPorts (cst : component * state) : component * state :=
  match comp_type (fst cst) with
  | factory => addPort output (addPort output (addPort output (addPort output cst)))
  | adder => addPort output (addPort input (addPort input cst))
  | gradientor => addPort output (addPort input cst)
  | storage =>
      addPort flex (addPort flex (addPort flex
        (addPort flex (addPort flex (addPort flex cst)))))
  end.

Definition createComponent (type : CType) (o : options) (st : state)
    : component * state :=
  let '(cid, st) := nextId "c" st in
  let c := {| comp_id := cid; comp_type := type; comp_color := opt_color o;
              comp_ports := [];
              comp_storageSlots :=
                match type with storage => Some ∅ | _ => None end;
              comp_mode := opt_mode o |} in
  let '(c, st) := buildPorts (c, st) in
  (c, set_components st (components st ++ [c])).

Definition tryConnect (first second : portRef) (st : state)
    : option connection * state :=
  if bool_decide (componentId first = componentId second)
  then (None, clearSelection st)
  else
    match resolveConnection st first second with
    | None => (None, clearSelection st)
    | Some (from, to) =>
        if connectionExists st from to then (None, clearSelection st)
        else
          let '(lid, st) := nextId "link" st in
          let conn := {| conn_id := lid; conn_from := from; conn_to := to |} in
          let st := set_connections st (connections st ++ [conn]) in
          let st := clearSelection st in
          (Some conn, fst (computeColors st))
    end.

Definition handlePortClick (portRef : portRef) (st : state) : state :=
  match selectedPort st with
  | None =>
      {| components := components st; connections := connections st;
         selectedPort := Some portRef; idCounter := idCounter st |}
  | Some selected => snd (tryConnect selected portRef st)
  end.

Definition perform (a : action) (st : state) : state :=
  match a with
  | Create type o => snd (createComponent type o st)
  | Click ref => handlePortClick ref st
  | Connect first second => snd (tryConnect first second st)
  | Delete cid => deleteComponent cid st
  | Reset => resetGrid st
  | Recompute => fst (computeColors st)
  end.

Definition performAll (l : list action) (st : state) : state :=
  foldl (fun st a => perform a st) st l.

Inductive reachable : state -> Prop :=
| reachable_init : reachable init
| reachable_step a st : reachable st -> reachable (perform a st).

End Binary64.

(** The grid of [scene_mix], built with the binary64 counter. *)
Definition scene_mix64 : state :=
  Binary64.performAll
    [ Create factory (paint red); Create factory (paint blue);
      Create adder plain;
      Connect (PortRef "c-2" "p-3") (PortRef "c-12" "p-13");
      Connect (PortRef "c-12" "p-14") (PortRef "c-7" "p-8") ]
    init.

(* ================================================================== *)
(** ** The evaluation loop stops                                       *)
(* ================================================================== *)

Lemma guard_round conns s : guard (round conns s) = S (guard s).
Proof.
  unfold round.
  destruct (evalComponents conns (ls_components s) (portOutputs s, false))
    as [cs [m ch]].
  reflexivity.
Qed.

Lemma while_eq fuel conns s :
  while fuel conns s =
  if changed s && (guard s <? 8)%nat then
    match fuel with
    | 0 => None
    | S fuel => while fuel conns (round conns s)
    end
  else Some s.
Proof. destruct fuel; reflexivity. Qed.

(** With as much fuel as rounds are left under the cap, the loop exits:
    its condition is false at the state returned. *)
Lemma while_exits conns fuel :
  forall s, guard s <= 8 -> 8 - guard s <= fuel ->
  exists r, while fuel conns s = Some r
            /\ guard s <= guard r <= 8
            /\ (changed r = false \/ guard r = 8).
Proof.
  induction fuel as [|fuel IH]; intros s Hle Hfuel; rewrite while_eq.
  - assert (guard s = 8) as Hg by lia.
    exists s. rewrite Hg, andb_false_r. auto with lia.
  - destruct (changed s) eqn:Hch; [|exists s; auto with lia].
    destruct (Nat.ltb_spec (guard s) 8) as [Hlt|Hge]; cbn [andb].
    + destruct (IH (round conns s)) as (r & Hr & Hb & Hstop);
        rewrite ?guard_round; try lia.
      rewrite guard_round in Hb. exists r. auto with lia.
    + exists s. auto with lia.
Qed.

(** The guard only grows while the loop runs. *)
Lemma while_guard_mono conns fuel :
  forall s r, while fuel conns s = Some r -> guard s <= guard r.
Proof.
  induction fuel as [|fuel IH]; intros s r; rewrite while_eq;
    destruct (changed s && _); try discriminate;
    try (intros [= <-]; lia).
  intros H. apply IH in H. rewrite guard_round in H. lia.
Qed.

(** C7. [computeColors] terminates on every state, whatever the wiring:
    its loop exits after at least one and at most eight rounds, either
    because a round changed nothing or because the cap was reached, and
    [computeColors] returns the components and the map of that moment.
    The embedding has no failing operation: every lookup of the source
    that can miss is a [match] with its [null] branch. *)
Theorem computeColors_terminates (st : state) :
  exists r,
    exitLoop st = Some r
    /\ 1 <= guard r <= 8
    /\ (changed r = false \/ guard r = 8)
    /\ computeColors st = (set_components st (ls_components r), portOutputs r).
Proof.
  destruct (while_exits (connections st) 8 (enterLoop st))
    as (r & Hr & Hb & Hstop); cbn [enterLoop guard]; try lia.
  exists r. unfold exitLoop, computeColors. rewrite Hr.
  repeat split; try tauto; try lia.
  rewrite while_eq in Hr. cbn [enterLoop changed guard andb Nat.ltb Nat.leb] in Hr.
  apply while_guard_mono in Hr. rewrite guard_round in Hr. lia.
Qed.

(* ================================================================== *)
(** ** The connection resolver                                         *)
(* ================================================================== *)

Lemma sameRef_true a b : sameRef a b = true <-> a = b.
Proof.
  unfold sameRef. rewrite andb_true_iff, !bool_decide_eq_true.
  destruct a, b; cbn. split; [intros [-> ->]|intros [= -> ->]]; auto.
Qed.

Lemma sameRef_false a b : sameRef a b = false <-> a <> b.
Proof.
  rewrite <- sameRef_true. destruct (sameRef a b); split; congruence.
Qed.

Lemma canAccept_false st t :
  canAccept st t = false <-> exists conn, conn ∈ connections st /\ conn_to conn = t.
Proof.
  unfold canAccept. rewrite negb_false_iff, existsb_exists.
  split; intros (conn & Hin & H); exists conn.
  - apply list_elem_of_In in Hin. apply sameRef_true in H. auto.
  - apply list_elem_of_In in Hin. rewrite sameRef_true. auto.
Qed.

Lemma canAccept_true st t :
  canAccept st t = true <-> t ∉ map conn_to (connections st).
Proof.
  rewrite <- not_false_iff_true, canAccept_false, list_elem_of_In, in_map_iff.
  split; intros H (conn & H1 & H2); apply H; exists conn;
    rewrite ?list_elem_of_In in *; auto.
Qed.

Lemma connectionExists_true st f t :
  connectionExists st f t = true <->
  exists conn, conn ∈ connections st /\ conn_from conn = f /\ conn_to conn = t.
Proof.
  unfold connectionExists. rewrite existsb_exists.
  split; intros (conn & Hin & H); exists conn.
  - apply list_elem_of_In in Hin. apply andb_true_iff in H as [H1 H2].
    apply sameRef_true in H1, H2. auto.
  - destruct H as [H1 H2].
    rewrite <- list_elem_of_In, andb_true_iff, !sameRef_true. auto.
Qed.

(** A source that is not allowed to fan out can send only while no
    connection leaves it. *)
Lemma canSend_single st f pf :
  singleSource st f pf ->
  canSend st f pf = negb (existsb (fun conn => sameRef (conn_from conn) f)
                            (connections st)).
Proof.
  intros (c & Hc & Hk). unfold canSend. rewrite Hc.
  destruct Hk as [[-> ->]|[-> ->]]; reflexivity.
Qed.

Lemma canSend_fanOut st f pf : fanOutSource st f pf -> canSend st f pf = true.
Proof.
  intros (c & Hc & Hk & Hr). unfold canSend. rewrite Hc, Hr.
  destruct Hk as [-> | ->]; reflexivity.
Qed.

(** [resolveConnection] is the orientation table followed by the two
    capacity gates. *)
Lemma resolveConnection_eq st a b :
  resolveConnection st a b =
  match getPort st a, getPort st b with
  | Some pa, Some pb =>
      match orientation (port_role pa) (port_role pb) a b with
      | Some (f, t) =>
          let pf := match port_role pa, port_role pb with
                    | input, _ | flex, output => pb
                    | _, _ => pa
                    end in
          if canAccept st t && canSend st f pf then Some (f, t) else None
      | None => None
      end
  | _, _ => None
  end.
Proof.
  unfold resolveConnection.
  destruct (getPort st a) as [pa|]; [|reflexivity].
  destruct (getPort st b) as [pb|]; [|reflexivity].
  destruct (port_role pa), (port_role pb); cbn [orientation]; try reflexivity;
    match goal with
    | |- context [canAccept st ?t && canSend st ?f ?p] =>
        destruct (canAccept st t), (canSend st f p); reflexivity
    end.
Qed.

(** The port of the oriented source is the port found for its reference. *)
Lemma orientation_source st a b pa pb f t :
  getPort st a = Some pa -> getPort st b = Some pb ->
  orientation (port_role pa) (port_role pb) a b = Some (f, t) ->
  getPort st f = Some (match port_role pa, port_role pb with
                       | input, _ | flex, output => pb
                       | _, _ => pa
                       end).
Proof.
  intros Ha Hb. destruct (port_role pa), (port_role pb); cbn;
    intros [= <- <-]; assumption.
Qed.

Lemma computeColors_connections st :
  connections (fst (computeColors st)) = connections st.
Proof.
  unfold computeColors. destruct (while _ _ _); reflexivity.
Qed.

Lemma computeColors_selectedPort st :
  selectedPort (fst (computeColors st)) = selectedPort st.
Proof.
  unfold computeColors. destruct (while _ _ _); reflexivity.
Qed.

Lemma computeColors_idCounter st :
  idCounter (fst (computeColors st)) = idCounter st.
Proof.
  unfold computeColors. destruct (while _ _ _); reflexivity.
Qed.

(** What an accepted pair looks like. *)
Lemma tryConnect_Some a b st conn st' :
  tryConnect a b st = (Some conn, st') ->
  componentId a <> componentId b
  /\ resolveConnection st a b = Some (conn_from conn, conn_to conn)
  /\ connectionExists st (conn_from conn) (conn_to conn) = false
  /\ connections st' = connections st ++ [conn].
Proof.
  unfold tryConnect. case_bool_decide as Hsame; [discriminate|].
  destruct (resolveConnection st a b) as [[f t]|]; [|discriminate].
  destruct (connectionExists st f t) eqn:Hdup; [discriminate|].
  cbn. intros [= <- <-]. cbn. rewrite computeColors_connections. auto.
Qed.

Lemma tryConnect_accept a b st f t :
  componentId a <> componentId b ->
  resolveConnection st a b = Some (f, t) ->
  exists conn st', tryConnect a b st = (Some conn, st')
                   /\ conn_from conn = f /\ conn_to conn = t
                   /\ connections st' = connections st ++ [conn].
Proof.
  intros Hne Hres.
  assert (connectionExists st f t = false) as Hdup.
  { apply not_true_iff_false. rewrite connectionExists_true.
    intros (conn & Hin & Hf & Ht).
    rewrite resolveConnection_eq in Hres.
    destruct (getPort st a) as [pa|]; [|discriminate].
    destruct (getPort st b) as [pb|]; [|discriminate].
    destruct (orientation _ _ a b) as [[f' t']|]; [|discriminate].
    cbn zeta in Hres.
    destruct (canAccept st t') eqn:Hacc; [|discriminate].
    destruct (canSend st f' _); [|discriminate].
    injection Hres as -> ->.
    apply canAccept_true in Hacc. apply Hacc.
    apply list_elem_of_In, in_map_iff. exists conn.
    rewrite <- list_elem_of_In. auto. }
  unfold tryConnect. rewrite bool_decide_eq_false_2 by assumption.
  rewrite Hres, Hdup. cbn.
  eexists _, _. split; [reflexivity|]. cbn.
  rewrite computeColors_connections. auto.
Qed.

(** C4. [tryConnect] turns down a pair of two Output ports, a pair of two
    Input ports, a pair on one component, a pair whose oriented
    destination already has an incoming connection, and a pair whose
    oriented connection already exists: it returns no connection and the
    state it leaves differs from the one it found only by the cleared
    selection (no connection is added, nothing fails). *)
Theorem tryConnect_rejects (st : state) (a b : portRef) :
  mustReject st a b -> tryConnect a b st = (None, clearSelection st).
Proof.
  intros H. unfold tryConnect. case_bool_decide as Hsame; [reflexivity|].
  rewrite resolveConnection_eq.
  destruct H as [pa pb Ha Hb Ra Rb | pa pb Ha Hb Ra Rb | Heq
                | pa pb f t conn Ha Hb Ho Hin Ht
                | pa pb f t conn Ha Hb Ho Hin Hf Ht].
  - rewrite Ha, Hb, Ra, Rb. reflexivity.
  - rewrite Ha, Hb, Ra, Rb. reflexivity.
  - contradiction.
  - rewrite Ha, Hb, Ho. cbn zeta.
    assert (canAccept st t = false) as -> by (apply canAccept_false; eauto).
    reflexivity.
  - rewrite Ha, Hb, Ho. cbn zeta.
    assert (canAccept st t = false) as -> by (apply canAccept_false; eauto).
    reflexivity.
Qed.

(** C5. Between two ports of distinct components whose roles have an
    orientation [from -> to]: when [from] is an Output port of an adder or
    of a gradientor and [to] is free, [tryConnect] accepts the pair
    whatever the number of connections that already leave [from]; when
    [from] is an Output port of a factory or a Flex port of a storage and
    a connection already leaves it, [tryConnect] turns the pair down. *)
Theorem source_capacity (st : state) (a b : portRef) (pa pb pf : port)
    (from to : portRef) :
  componentId a <> componentId b ->
  getPort st a = Some pa -> getPort st b = Some pb ->
  orientation (port_role pa) (port_role pb) a b = Some (from, to) ->
  getPort st from = Some pf ->
  (fanOutSource st from pf -> canAccept st to = true ->
   forall n, length (filter (fun conn => sameRef (conn_from conn) from)
                       (connections st)) = n ->
   exists conn st',
     tryConnect a b st = (Some conn, st')
     /\ conn_from conn = from /\ conn_to conn = to
     /\ connections st' = connections st ++ [conn])
  /\ (singleSource st from pf ->
      (exists conn, conn ∈ connections st /\ conn_from conn = from) ->
      tryConnect a b st = (None, clearSelection st)).
Proof.
  intros Hne Ha Hb Ho Hf.
  pose proof (orientation_source st a b pa pb from to Ha Hb Ho) as Hpf.
  rewrite Hf in Hpf. injection Hpf as Hpf.
  split.
  - intros Hfan Hacc n _. apply tryConnect_accept; [assumption|].
    rewrite resolveConnection_eq, Ha, Hb, Ho. cbn zeta.
    rewrite <- Hpf, Hacc, (canSend_fanOut _ _ _ Hfan). reflexivity.
  - intros Hsingle (conn & Hin & Hfrom).
    unfold tryConnect. rewrite bool_decide_eq_false_2 by assumption.
    rewrite resolveConnection_eq, Ha, Hb, Ho. cbn zeta.
    rewrite <- Hpf, (canSend_single _ _ _ Hsingle).
    assert (existsb (fun conn => sameRef (conn_from conn) from)
              (connections st) = true) as ->.
    { apply existsb_exists. exists conn.
      rewrite <- list_elem_of_In, sameRef_true. auto. }
    rewrite andb_false_r. reflexivity.
Qed.

(** C6. A connection accepted by [tryConnect] is oriented by the roles of
    the two ports, not by the order of selection, except between two Flex
    ports: Output to Input, Output to Flex, Flex to Input, and first
    selected to second selected for Flex with Flex. *)
Theorem accepted_orientation (st st' : state) (a b : portRef)
    (conn : connection) :
  tryConnect a b st = (Some conn, st') ->
  exists pa pb,
    getPort st a = Some pa /\ getPort st b = Some pb
    /\ orientation (port_role pa) (port_role pb) a b
       = Some (conn_from conn, conn_to conn)
    /\ match port_role pa, port_role pb with
       | output, input | output, flex | flex, input | flex, flex =>
           conn_from conn = a /\ conn_to conn = b
       | input, output | flex, output | input, flex =>
           conn_from conn = b /\ conn_to conn = a
       | _, _ => False
       end.
Proof.
  intros H. apply tryConnect_Some in H as (_ & Hres & _).
  rewrite resolveConnection_eq in Hres.
  destruct (getPort st a) as [pa|]; [|discriminate].
  destruct (getPort st b) as [pb|]; [|discriminate].
  exists pa, pb. split; [reflexivity|]. split; [reflexivity|].
  destruct (orientation _ _ a b) as [[f t]|] eqn:Ho; [|discriminate].
  cbn zeta in Hres. destruct (_ && _); [|discriminate].
  injection Hres as <- <-. split; [reflexivity|].
  destruct (port_role pa), (port_role pb); cbn in Ho; try discriminate;
    injection Ho as <- <-; auto.
Qed.

(* ================================================================== *)
(** ** No port is fed twice                                            *)
(* ================================================================== *)

Lemma nextId_connections prefix st :
  connections (snd (nextId prefix st)) = connections st.
Proof. reflexivity. Qed.

Lemma addPort_connections role cst :
  connections (snd (addPort role cst)) = connections (snd cst).
Proof. destruct cst as [c st]. reflexivity. Qed.

Lemma buildPorts_connections cst :
  connections (snd (buildPorts cst)) = connections (snd cst).
Proof.
  unfold buildPorts. destruct (comp_type (fst cst));
    rewrite !addPort_connections; reflexivity.
Qed.

Lemma createComponent_connections type o st :
  connections (snd (createComponent type o st)) = connections st.
Proof.
  unfold createComponent. cbn.
  match goal with |- context [buildPorts ?x] =>
    pose proof (buildPorts_connections x) as H; destruct (buildPorts x) end.
  cbn in *. assumption.
Qed.

(** The connections after [tryConnect] are those before, with the
    accepted connection, whose destination was free, at the end. *)
Lemma tryConnect_connections a b st :
  connections (snd (tryConnect a b st)) = connections st
  \/ exists conn, connections (snd (tryConnect a b st)) = connections st ++ [conn]
                  /\ conn_to conn ∉ map conn_to (connections st).
Proof.
  destruct (tryConnect a b st) as [[conn|] st'] eqn:E.
  - right. exists conn. apply tryConnect_Some in E as (_ & Hres & _ & Hc).
    split; [exact Hc|]. apply canAccept_true.
    rewrite resolveConnection_eq in Hres.
    destruct (getPort st a) as [pa|]; [|discriminate].
    destruct (getPort st b) as [pb|]; [|discriminate].
    destruct (orientation _ _ a b) as [[f t]|]; [|discriminate].
    cbn zeta in Hres. destruct (canAccept st t) eqn:Hacc; [|discriminate].
    destruct (canSend st f _); [|discriminate].
    injection Hres as _ <-. exact Hacc.
  - left. revert E. unfold tryConnect.
    repeat (case_match; try discriminate); intros [= <-]; reflexivity.
Qed.

Lemma removeComponent_connections cid st :
  sublist (connections (removeComponent cid st)) (connections st).
Proof.
  unfold removeComponent. cbn.
  assert (forall s, connections
            match selectedPort s with
            | Some sel => if bool_decide (componentId sel = cid)
                          then clearSelection s else s
            | None => s
            end = connections s) as ->.
  { intros s. destruct (selectedPort s); [case_bool_decide|]; reflexivity. }
  apply sublist_filter.
Qed.

Lemma sinks_NoDup_sublist (l k : list connection) :
  sublist l k -> NoDup (map conn_to k) -> NoDup (map conn_to l).
Proof.
  intros Hs Hnd.
  assert (sublist (map conn_to l) (map conn_to k)) as Hm
    by (clear Hnd; induction Hs; cbn; constructor; assumption).
  eapply sublist_NoDup; eassumption.
Qed.

(** Every operation keeps the destinations of the connections distinct. *)
Lemma perform_sinks a st :
  NoDup (map conn_to (connections st)) ->
  NoDup (map conn_to (connections (perform a st))).
Proof.
  intros Hnd. destruct a as [type o|ref|first second|cid| |]; cbn [perform].
  - rewrite createComponent_connections. exact Hnd.
  - unfold handlePortClick. destruct (selectedPort st) as [sel|]; [|exact Hnd].
    destruct (tryConnect_connections sel ref st) as [->|(conn & -> & Hfree)];
      [exact Hnd|].
    rewrite map_app. cbn. apply NoDup_app. split; [exact Hnd|]. split.
    + intros x Hx Hx'. apply list_elem_of_singleton in Hx' as ->. auto.
    + apply NoDup_singleton.
  - destruct (tryConnect_connections first second st)
      as [->|(conn & -> & Hfree)]; [exact Hnd|].
    rewrite map_app. cbn. apply NoDup_app. split; [exact Hnd|]. split.
    + intros x Hx Hx'. apply list_elem_of_singleton in Hx' as ->. auto.
    + apply NoDup_singleton.
  - unfold deleteComponent. destruct (findComponent st cid); [|exact Hnd].
    rewrite computeColors_connections.
    eapply sinks_NoDup_sublist; [apply removeComponent_connections|exact Hnd].
  - unfold resetGrid. rewrite computeColors_connections. cbn. constructor.
  - rewrite computeColors_connections. exact Hnd.
Qed.

(** C2. In every state reached from the empty grid by creating
    components, clicking ports, connecting, deleting, resetting and
    recomputing, the destinations of the connections are pairwise
    distinct: no port is fed from two sources. *)
Theorem sinks_unique (st : state) :
  reachable st -> NoDup (map conn_to (connections st)).
Proof.
  induction 1 as [|a st _ IH].
  - constructor.
  - apply perform_sinks, IH.
Qed.

Lemma reachable_performAll l : forall st, reachable st -> reachable (performAll l st).
Proof.
  induction l as [|a l IH]; intros st H; cbn; [exact H|].
  apply IH. constructor. exact H.
Qed.

(* ================================================================== *)
(** ** Mixing colours                                                  *)
(* ================================================================== *)

(** Addition of binary64 numbers is commutative: the specification of
    the sum is symmetric, and a number is determined by its
    specification value. *)
Lemma SF64add_comm x y : SF64add x y = SF64add y x.
Proof.
  unfold SF64add, SFadd.
  destruct x as [sx|sx| |sx mx ex], y as [sy|sy| |sy my ey];
    try reflexivity; try (destruct sx, sy; reflexivity).
  rewrite (Z.min_comm ey ex), Z.add_comm. reflexivity.
Qed.

Lemma number_add_comm (x y : number) : (x + y = y + x)%float.
Proof. apply Prim2SF_inj. rewrite !add_spec. apply SF64add_comm. Qed.

(** C10. [mixColors] is commutative, for all colours (and so for those
    with integer channels between 0 and 255): both orders average the
    same two RYB triples channel by channel. *)
Theorem mixColors_comm (a b : color) : mixColors a b = mixColors b a.
Proof.
  unfold mixColors.
  rewrite (number_add_comm (channel (rgbToRyb a) 0)),
          (number_add_comm (channel (rgbToRyb a) 1)),
          (number_add_comm (channel (rgbToRyb a) 2)).
  reflexivity.
Qed.

(** Two colours with different first channels are different. *)
Lemma color_neq (c d : color) :
  strict_eq (channel c 0) (channel d 0) = false ->
  is_nan (channel c 0) = false -> c <> d.
Proof.
  intros Hne Hnan ->. unfold strict_eq in Hne. unfold is_nan in Hnan.
  rewrite Hne in Hnan. discriminate.
Qed.

(** Black mixed with itself gives white: [rgbToRyb] sends black to the
    RYB triple (0, 0, 0), which is the white corner of the cube of
    [rybToRgb]. *)
Lemma mixColors_black_black :
  mixColors (rgb 0 0 0) (rgb 0 0 0) = rgb 255 255 255
  /\ mixColors (rgb 0 0 0) (rgb 0 0 0) <> rgb 0 0 0.
Proof.
  split; [vm_compute; reflexivity|].
  apply color_neq; vm_compute; reflexivity.
Qed.

(** C8. [mixColors] does not return every colour mixed with itself:
    black gives white, white gives black and the dark grey (10, 10, 10)
    gives (254, 253, 253).  [rgbToRyb] takes the whiteness of the colour,
    its smallest RGB channel, out and adds it back to the three pigment
    amounts, where no pigment, (0, 0, 0), is the white corner of the cube
    of [rybToRgb] and all pigments, (255, 255, 255), the black one: light
    and dark change places.  So red mixed with white gives the darker
    (159, 32, 32), and red mixed with black the lighter
    (255, 127, 127). *)
Theorem mixColors_swaps_light_and_dark :
  rgbToRyb (rgb 0 0 0) = rgb 0 0 0
  /\ rgbToRyb (rgb 255 255 255) = rgb 255 255 255
  /\ rybToRgb (rgb 0 0 0) = rgb 255 255 255
  /\ rybToRgb (rgb 255 255 255) = rgb 0 0 0
  /\ mixColors (rgb 0 0 0) (rgb 0 0 0) = rgb 255 255 255
  /\ mixColors (rgb 255 255 255) (rgb 255 255 255) = rgb 0 0 0
  /\ mixColors (rgb 10 10 10) (rgb 10 10 10) = rgb 254 253 253
  /\ mixColors (rgb 255 0 0) (rgb 255 255 255) = rgb 159 32 32
  /\ mixColors (rgb 255 0 0) (rgb 0 0 0) = rgb 255 127 127.
Proof. repeat split; vm_compute; reflexivity. Qed.

(** Red, yellow, blue, green and orange mixed with themselves give
    exactly themselves. *)
Theorem mixColors_self_pure (c : color) :
  In c pure_pigments -> mixColors c c = c.
Proof.
  unfold pure_pigments. cbn [In].
  intros [<-|[<-|[<-|[<-|[<-|[]]]]]]; vm_compute; reflexivity.
Qed.

Lemma mixColors_self_pure_witness :
  mixColors (rgb 255 0 0) (rgb 255 0 0) = rgb 255 0 0.
Proof.
  apply (mixColors_self_pure (rgb 255 0 0)). cbn. left. reflexivity.
Defined.

(* ================================================================== *)
(** ** One evaluation of a component                                   *)
(* ================================================================== *)

Lemma colorsEqual_None_r a : colorsEqual a None = true -> a = None.
Proof. destruct a as [[[? ?] ?]|]; [discriminate|reflexivity]. Qed.

Lemma colorsEqual_None_l a : colorsEqual None a = true -> a = None.
Proof. destruct a as [[[? ?] ?]|]; [discriminate|reflexivity]. Qed.

Lemma setPortOutput_quiet m k c m' :
  setPortOutput m k c = (m', false) ->
  m' = m /\ colorsEqual (getOutput m k) c = true.
Proof.
  unfold setPortOutput. destruct (colorsEqual (getOutput m k) c);
    intros [= <-]; auto.
Qed.

Lemma emitAll_quiet cid ps c :
  forall m ch m',
  emitAll cid ps c (m, ch) = (m', false) ->
  ch = false /\ m' = m
  /\ Forall (fun p => colorsEqual (getOutput m (portKey (PortRef cid (port_id p)))) c
                      = true) ps.
Proof.
  induction ps as [|p ps IH]; intros m ch m'; cbn.
  - intros [= <- <-]. auto.
  - destruct (setPortOutput m _ c) as [m1 set] eqn:E. intros H.
    apply IH in H as (Hch & -> & Hall).
    destruct set; [discriminate|].
    apply setPortOutput_quiet in E as [-> Heq]. auto.
Qed.

Lemma emitStored_quiet cid s ps :
  forall m ch m',
  emitStored cid s ps (m, ch) = (m', false) -> ch = false /\ m' = m.
Proof.
  induction ps as [|p ps IH]; intros m ch m'; cbn.
  - intros [= <- <-]. auto.
  - destruct (hasRole flex p); cbn; [|apply IH].
    destruct (setPortOutput m _ _) as [m1 set] eqn:E. intros H.
    apply IH in H as (Hch & ->).
    destruct set; [discriminate|].
    apply setPortOutput_quiet in E as [-> _]. auto.
Qed.

Lemma storeInbound_quiet conns m cid ps :
  forall s ch s',
  storeInbound conns m cid ps (s, ch) = (s', false) -> ch = false /\ s' = s.
Proof.
  induction ps as [|p ps IH]; intros s ch s'; cbn.
  - intros [= <- <-]. auto.
  - destruct (hasRole flex p); cbn; [|apply IH].
    destruct (colorsEqual _ _); cbn; [apply IH|].
    intros H. apply IH in H as [? _]. discriminate.
Qed.

(** A storage takes for each of its Flex ports the inbound colour when
    that differs from the colour it holds, and touches no other slot. *)
Lemma storeInbound_held conns m cid pid ps :
  forall s ch,
  heldColor (fst (storeInbound conns m cid ps (s, ch))) pid =
  if existsb (fun p => hasRole flex p && bool_decide (port_id p = pid)) ps
  then if colorsEqual (heldColor s pid) (inboundColor conns m cid pid)
       then heldColor s pid else inboundColor conns m cid pid
  else heldColor s pid.
Proof.
  induction ps as [|p ps IH]; intros s ch; cbn; [reflexivity|].
  destruct (hasRole flex p); cbn [negb andb orb]; [|apply IH].
  case_bool_decide as Hp; cbn [orb].
  - subst pid. destruct (colorsEqual (heldColor s (port_id p)) _) eqn:E;
      cbn [negb]; rewrite IH.
    + rewrite E. destruct (existsb _ ps); reflexivity.
    + unfold heldColor at 1 2 3. rewrite !lookup_insert_eq.
      repeat (case_match; try reflexivity).
  - destruct (colorsEqual (heldColor s (port_id p)) _); cbn [negb];
      rewrite IH; [reflexivity|].
    unfold heldColor. rewrite !lookup_insert_ne by assumption. reflexivity.
Qed.

Lemma sameShape_refl c : sameShape c c.
Proof. repeat split. Qed.

Lemma sameShape_trans c1 c2 c3 :
  sameShape c1 c2 -> sameShape c2 c3 -> sameShape c1 c3.
Proof. unfold sameShape. intuition congruence. Qed.

Lemma evalComponent_shape conns c acc :
  sameShape c (fst (evalComponent conns c acc)).
Proof.
  unfold evalComponent. destruct (comp_type c) eqn:T;
    try apply sameShape_refl.
  - destruct (find _ _); apply sameShape_refl.
  - destruct (storeInbound _ _ _ _ _). repeat split.
Qed.

Lemma evalComponent_other conns c acc :
  comp_type c <> storage -> fst (evalComponent conns c acc) = c.
Proof.
  unfold evalComponent. destruct (comp_type c); try reflexivity.
  - destruct (find _ _); reflexivity.
  - congruence.
Qed.

Lemma evalComponent_held conns c acc pid :
  comp_type c = storage ->
  held (fst (evalComponent conns c acc)) pid =
  if existsb (fun p => hasRole flex p && bool_decide (port_id p = pid))
       (comp_ports c)
  then if colorsEqual (held c pid) (inboundColor conns (fst acc) (comp_id c) pid)
       then held c pid else inboundColor conns (fst acc) (comp_id c) pid
  else held c pid.
Proof.
  intros T. unfold evalComponent. rewrite T.
  pose proof (storeInbound_held conns (fst acc) (comp_id c) pid (comp_ports c)
                (match comp_storageSlots c with Some s => s | None => ∅ end)
                (snd acc)) as H.
  destruct (storeInbound _ _ _ _ _) as [s ch]. cbn in *.
  unfold held. cbn. rewrite H.
  destruct (comp_storageSlots c); reflexivity.
Qed.

(** A quiet evaluation (the flag stays down) leaves the map alone, and
    what an adder computed is what the map already holds at its outputs. *)
Lemma evalComponent_quiet conns c m ch c' m' :
  evalComponent conns c (m, ch) = (c', (m', false)) ->
  ch = false /\ m' = m
  /\ (comp_type c = adder ->
      Forall (fun p => colorsEqual (getOutput m (keyOf c p)) (adderColor conns m c)
                       = true) (outputsOf c)).
Proof.
  unfold evalComponent. destruct (comp_type c) eqn:T.
  - intros [= <- H]. apply emitAll_quiet in H as (? & ? & _).
    repeat split; auto; discriminate.
  - intros [= <- H]. apply emitAll_quiet in H as (? & ? & Hall). cbn in Hall.
    repeat split; auto.
  - destruct (find _ _) as [p|].
    + intros [= <- H].
      change (emitAll (comp_id c) [p] (gradientorColor conns m c) (m, ch)
              = (m', false)) in H.
      apply emitAll_quiet in H as (? & ? & _).
      repeat split; auto; discriminate.
    + intros [= <- <- <-]. repeat split; auto; discriminate.
  - cbn. destruct (storeInbound _ _ _ _ _) as [s ch1] eqn:E.
    intros [= <- H]. apply emitStored_quiet in H as [-> ->].
    apply storeInbound_quiet in E as [-> _].
    repeat split; auto; discriminate.
Qed.

Lemma evalComponents_shape conns cs :
  forall acc, Forall2 sameShape cs (fst (evalComponents conns cs acc)).
Proof.
  induction cs as [|c cs IH]; intros acc; cbn; [constructor|].
  pose proof (evalComponent_shape conns c acc) as Hc.
  destruct (evalComponent conns c acc) as [c1 acc1].
  specialize (IH acc1). destruct (evalComponents conns cs acc1) as [cs1 acc2].
  constructor; assumption.
Qed.

Lemma evalComponents_quiet conns cs :
  forall m ch cs' m',
  evalComponents conns cs (m, ch) = (cs', (m', false)) ->
  ch = false /\ m' = m
  /\ Forall (fun c => comp_type c = adder ->
               Forall (fun p => colorsEqual (getOutput m (keyOf c p))
                                  (adderColor conns m c) = true) (outputsOf c))
       cs.
Proof.
  induction cs as [|c cs IH]; intros m ch cs' m'; cbn.
  - intros [= <- <- <-]. auto.
  - destruct (evalComponent conns c (m, ch)) as [c1 [m1 ch1]] eqn:E.
    destruct (evalComponents conns cs (m1, ch1)) as [cs1 [m2 ch2]] eqn:E'.
    intros [= <- <- ->]. apply IH in E' as (-> & -> & Hall).
    apply evalComponent_quiet in E as (-> & -> & Hc). auto.
Qed.

(* ================================================================== *)
(** ** The rounds of the loop                                          *)
(* ================================================================== *)

(** The loop state at exit is the entry state after some number of
    rounds. *)
Lemma while_rounds conns fuel :
  forall s r, while fuel conns s = Some r ->
  exists n, r = Nat.iter n (round conns) s.
Proof.
  induction fuel as [|fuel IH]; intros s r; rewrite while_eq;
    destruct (changed s && _); try discriminate;
    try (intros [= <-]; exists 0; reflexivity).
  intros H. apply IH in H as [n ->]. exists (S n).
  rewrite Nat.iter_succ_r. reflexivity.
Qed.

(** [computeColors] runs at least one round. *)
Lemma exitLoop_rounds st r :
  exitLoop st = Some r ->
  exists n, r = round (connections st)
                  (Nat.iter n (round (connections st)) (enterLoop st)).
Proof.
  unfold exitLoop. rewrite while_eq.
  cbn [enterLoop changed guard andb Nat.ltb Nat.leb].
  intros H. apply while_rounds in H as [n ->].
  exists n. rewrite <- Nat.iter_succ, Nat.iter_succ_r. reflexivity.
Qed.

Lemma round_shape conns s :
  Forall2 sameShape (ls_components s) (ls_components (round conns s)).
Proof.
  unfold round.
  pose proof (evalComponents_shape conns (ls_components s) (portOutputs s, false)).
  destruct (evalComponents _ _ _) as [cs [m ch]]. assumption.
Qed.

Lemma Forall2_sameShape_trans l1 l2 l3 :
  Forall2 sameShape l1 l2 -> Forall2 sameShape l2 l3 -> Forall2 sameShape l1 l3.
Proof.
  intros H. revert l3. induction H; intros l3 H3; inversion H3; subst;
    constructor; eauto using sameShape_trans.
Qed.

Lemma rounds_shape conns n s :
  Forall2 sameShape (ls_components s)
    (ls_components (Nat.iter n (round conns) s)).
Proof.
  induction n as [|n IH]; cbn.
  - induction (ls_components s); constructor; auto using sameShape_refl.
  - eapply Forall2_sameShape_trans; [exact IH|apply round_shape].
Qed.

Lemma evalComponents_lookup conns cs :
  forall acc i c,
  cs !! i = Some c ->
  exists acc', fst (evalComponents conns cs acc) !! i
               = Some (fst (evalComponent conns c acc')).
Proof.
  induction cs as [|c0 cs IH]; intros acc i c Hi; [destruct i; discriminate|].
  cbn. destruct (evalComponent conns c0 acc) as [c1 acc1] eqn:E.
  destruct i as [|i]; cbn in Hi.
  - injection Hi as ->. exists acc.
    destruct (evalComponents conns cs acc1). cbn. rewrite E. reflexivity.
  - destruct (IH acc1 i c Hi) as [acc' H]. exists acc'.
    destruct (evalComponents conns cs acc1). exact H.
Qed.

Lemma Forall2_sameShape_lookup l1 l2 i c :
  Forall2 sameShape l1 l2 -> l1 !! i = Some c ->
  exists c', l2 !! i = Some c' /\ sameShape c c'.
Proof.
  intros H. revert i. induction H as [|x y l1 l2 Hxy _ IH]; intros i Hi;
    [destruct i; discriminate|].
  destruct i as [|i]; cbn in *.
  - injection Hi as ->. eauto.
  - apply IH. exact Hi.
Qed.

Lemma computeColors_exit st r :
  exitLoop st = Some r ->
  computeColors st = (set_components st (ls_components r), portOutputs r).
Proof. unfold exitLoop, computeColors. intros ->. reflexivity. Qed.

Lemma flex_port_found (c : component) (p : port) :
  p ∈ comp_ports c -> port_role p = flex ->
  existsb (fun q => hasRole flex q && bool_decide (port_id q = port_id p))
    (comp_ports c) = true.
Proof.
  intros Hin Hr. apply existsb_exists. exists p.
  rewrite <- list_elem_of_In. split; [exact Hin|].
  unfold hasRole. rewrite !bool_decide_eq_true_2; auto.
Qed.

(** C3, amended. For a Flex port of a storage component: one evaluation
    of the storage keeps the colour held for the port when it equals the
    inbound colour read for it, and replaces it by that inbound colour
    otherwise, the inbound colour of a port without incoming connection
    being [null]; so after [computeColors] a Flex port without incoming
    connection holds no colour, whatever it held before. *)
Theorem storage_held_follows_inbound (st : state) (i : nat) (c : component)
    (p : port) :
  components st !! i = Some c -> comp_type c = storage ->
  p ∈ comp_ports c -> port_role p = flex ->
  (forall acc,
     let inbound :=
       inboundColor (connections st) (fst acc) (comp_id c) (port_id p) in
     held (fst (evalComponent (connections st) c acc)) (port_id p)
     = if colorsEqual (held c (port_id p)) inbound
       then held c (port_id p) else inbound)
  /\ (findInbound (connections st) (comp_id c) (port_id p) = None ->
      exists c', components (fst (computeColors st)) !! i = Some c'
                 /\ comp_id c' = comp_id c
                 /\ held c' (port_id p) = None).
Proof.
  intros Hi T Hin Hr. split.
  - intros acc. cbn zeta. rewrite evalComponent_held by assumption.
    rewrite flex_port_found by assumption. reflexivity.
  - intros Hnone.
    destruct (computeColors_terminates st) as (r & Hexit & _ & _ & ->).
    cbn [fst set_components components].
    apply exitLoop_rounds in Hexit as [n ->].
    pose proof (rounds_shape (connections st) n (enterLoop st)) as Hshape.
    revert Hshape.
    generalize (Nat.iter n (round (connections st)) (enterLoop st)) as s'.
    intros s' Hshape. cbn [enterLoop ls_components] in Hshape.
    destruct (Forall2_sameShape_lookup _ _ i c Hshape Hi)
      as (c1 & Hc1 & Hid & Hty & _ & Hports & _).
    unfold round.
    destruct (evalComponents_lookup (connections st) (ls_components s')
                (portOutputs s', false) i c1 Hc1) as [acc' Hl].
    destruct (evalComponents _ _ _) as [cs [m ch]]. cbn in *.
    eexists. split; [exact Hl|].
    split.
    + destruct (evalComponent_shape (connections st) c1 acc') as [-> _].
      exact Hid.
    + rewrite evalComponent_held by congruence.
      rewrite Hports, flex_port_found by assumption.
      unfold inboundColor. rewrite Hid, Hnone.
      destruct (colorsEqual _ None) eqn:E; [|reflexivity].
      apply colorsEqual_None_r in E. exact E.
Qed.


(* ================================================================== *)
(** ** What one evaluation writes                                      *)
(* ================================================================== *)

Lemma merge_out old out :
  (forall v, old = Some v -> out = Some v) -> merge old out = out.
Proof.
  intros H. unfold merge. destruct (colorsEqual old out) eqn:E; [|reflexivity].
  destruct old as [v|]; [symmetry; auto|].
  symmetry. apply colorsEqual_None_l. exact E.
Qed.

Lemma merge_same x : merge x x = x.
Proof. unfold merge. destruct (colorsEqual x x); reflexivity. Qed.

Lemma merge_merge old c : merge (merge old c) c = merge old c.
Proof.
  unfold merge at 2 3. destruct (colorsEqual old c) eqn:E.
  - unfold merge. rewrite E. reflexivity.
  - apply merge_same.
Qed.

Lemma merge_None_r h : merge h None = None.
Proof.
  unfold merge. destruct (colorsEqual h None) eqn:E; [|reflexivity].
  apply colorsEqual_None_r. exact E.
Qed.


Lemma colorsEqual_Some_l v b : colorsEqual (Some v) b = true -> exists w, b = Some w.
Proof. destruct b as [w|]; [eauto|destruct v as [[? ?] ?]; discriminate]. Qed.

(** A merge that yields a colour either kept it or took it. *)
Lemma merge_Some h inb v :
  merge h inb = Some v ->
  (h = Some v /\ colorsEqual (Some v) inb = true) \/ inb = Some v.
Proof.
  unfold merge. destruct (colorsEqual h inb) eqn:E; [|auto].
  intros ->. auto.
Qed.

Lemma merge_None h inb : merge h inb = None -> inb = None.
Proof.
  unfold merge. destruct (colorsEqual h inb) eqn:E; [|auto].
  intros ->. apply colorsEqual_None_l. exact E.
Qed.

(** A held colour that agrees with the inbound colour is kept. *)
Lemma merge_agree v w :
  v = w \/ colorsEqual (Some v) (Some w) = true ->
  merge (Some v) (Some w) = Some v.
Proof.
  intros [->|E]; [apply merge_same|]. unfold merge. rewrite E. reflexivity.
Qed.

Lemma getOutput_insert (m : outputs) k v k' :
  getOutput (<[k:=v]> m) k' = if decide (k = k') then v else getOutput m k'.
Proof.
  unfold getOutput. rewrite lookup_insert. destruct (decide (k = k')); reflexivity.
Qed.

Lemma setPortOutput_get m k c k' :
  getOutput (fst (setPortOutput m k c)) k'
  = if decide (k = k') then merge (getOutput m k) c else getOutput m k'.
Proof.
  unfold setPortOutput, merge.
  destruct (colorsEqual (getOutput m k) c); cbn.
  - destruct (decide (k = k')) as [->|]; reflexivity.
  - apply getOutput_insert.
Qed.

(** The map [emitAll] returns does not depend on the flag it is given. *)
Lemma emitAll_get cid ps c :
  forall m ch,
  (forall p, p ∈ ps ->
     getOutput (fst (emitAll cid ps c (m, ch))) (portKey (PortRef cid (port_id p)))
     = merge (getOutput m (portKey (PortRef cid (port_id p)))) c)
  /\ (forall k, k ∉ List.map (fun p => portKey (PortRef cid (port_id p))) ps ->
        getOutput (fst (emitAll cid ps c (m, ch))) k = getOutput m k).
Proof.
  induction ps as [|p ps IH]; intros m ch; cbn.
  - split; [intros p Hp; inversion Hp|reflexivity].
  - pose proof (setPortOutput_get m (portKey (PortRef cid (port_id p))) c) as Hset.
    destruct (setPortOutput m _ c) as [m1 set]. cbn in Hset.
    destruct (IH m1 (if set then true else ch)) as [IH1 IH2].
    split.
    + intros q Hq.
      destruct (decide (portKey (PortRef cid (port_id q))
                        ∈ List.map (fun p => portKey (PortRef cid (port_id p))) ps))
        as [Hin|Hnin].
      * apply list_elem_of_In, in_map_iff in Hin as (q' & Hk & Hq').
        apply list_elem_of_In in Hq'. rewrite <- Hk, IH1 by assumption.
        rewrite Hset. case_decide as Hd; [|reflexivity].
        rewrite Hd. apply merge_merge.
      * rewrite IH2 by assumption. rewrite Hset.
        apply elem_of_cons in Hq as [->|Hq].
        -- rewrite decide_True by reflexivity. reflexivity.
        -- exfalso. apply Hnin, list_elem_of_In, in_map_iff.
           exists q. rewrite <- list_elem_of_In. auto.
    + intros k Hk. rewrite IH2.
      * rewrite Hset. rewrite decide_False; [reflexivity|].
        intros <-. apply Hk. left.
      * intros Hin. apply Hk. right. exact Hin.
Qed.

Lemma emitStored_get cid s ps :
  NoDup (List.map (fun p => portKey (PortRef cid (port_id p))) ps) ->
  forall m ch,
  (forall p, p ∈ ps -> port_role p = flex ->
     getOutput (fst (emitStored cid s ps (m, ch))) (portKey (PortRef cid (port_id p)))
     = merge (getOutput m (portKey (PortRef cid (port_id p))))
         (heldColor s (port_id p)))
  /\ (forall k, (forall p, p ∈ ps -> port_role p = flex ->
                           k <> portKey (PortRef cid (port_id p))) ->
        getOutput (fst (emitStored cid s ps (m, ch))) k = getOutput m k).
Proof.
  induction ps as [|p ps IH]; intros Hnd m ch; cbn.
  - split; [intros p Hp; inversion Hp|reflexivity].
  - cbn in Hnd. apply NoDup_cons in Hnd as [Hp Hnd].
    unfold hasRole at 1 2. case_bool_decide as Hr; cbn [negb].
    + pose proof (setPortOutput_get m (portKey (PortRef cid (port_id p)))
                    (heldColor s (port_id p))) as Hset.
      destruct (setPortOutput m _ _) as [m1 set]. cbn in Hset.
      destruct (IH Hnd m1 (if set then true else ch)) as [IH1 IH2].
      split.
      * intros q Hq Hqr. apply elem_of_cons in Hq as [->|Hq].
        -- rewrite IH2; [rewrite Hset, decide_True by reflexivity; reflexivity|].
           intros q Hq _ Hk. apply Hp. rewrite Hk.
           apply list_elem_of_In, in_map_iff. exists q.
           rewrite <- list_elem_of_In. auto.
        -- rewrite IH1, Hset by assumption. rewrite decide_False; [reflexivity|].
           intros Hk. apply Hp. rewrite Hk.
           apply list_elem_of_In, in_map_iff. exists q.
           rewrite <- list_elem_of_In. auto.
      * intros k Hk. rewrite IH2, Hset.
        -- rewrite decide_False; [reflexivity|].
           intros <-. eapply Hk; [left|exact Hr|reflexivity].
        -- intros q Hq. apply Hk. right. exact Hq.
    + destruct (IH Hnd m ch) as [IH1 IH2]. split.
      * intros q Hq Hqr. apply elem_of_cons in Hq as [->|Hq];
          [contradiction|auto].
      * intros k Hk. apply IH2. intros q Hq. apply Hk. right. exact Hq.
Qed.

Lemma elem_of_map {A B} (f : A -> B) (l : list A) (y : B) :
  y ∈ List.map f l <-> exists x, y = f x /\ x ∈ l.
Proof.
  rewrite list_elem_of_In, in_map_iff. split; intros (x & H1 & H2); exists x.
  - rewrite list_elem_of_In. auto.
  - rewrite <- list_elem_of_In. auto.
Qed.

Lemma NoDup_map_inj {A B} (f : A -> B) (l : list A) (x y : A) :
  NoDup (List.map f l) -> x ∈ l -> y ∈ l -> f x = f y -> x = y.
Proof.
  induction l as [|a l IH]; cbn; intros Hnd Hx Hy Hf; [inversion Hx|].
  apply NoDup_cons in Hnd as [Ha Hnd].
  apply elem_of_cons in Hx as [->|Hx], Hy as [->|Hy]; auto.
  - exfalso. apply Ha. rewrite Hf. apply elem_of_map. eauto.
  - exfalso. apply Ha. rewrite <- Hf. apply elem_of_map. eauto.
Qed.

Lemma find_elem_of {A} (f : A -> bool) (l : list A) (x : A) :
  find f l = Some x -> x ∈ l /\ f x = true.
Proof.
  intros H. apply find_some in H as [H1 H2].
  rewrite list_elem_of_In. auto.
Qed.

Lemma hasRole_true r p : hasRole r p = true <-> port_role p = r.
Proof. unfold hasRole. apply bool_decide_eq_true. Qed.

Lemma elem_of_role_filter r (p : port) (l : list port) :
  p ∈ filter (fun q => hasRole r q) l <-> port_role p = r /\ p ∈ l.
Proof.
  rewrite list_elem_of_filter, <- hasRole_true.
  destruct (hasRole r p); cbn; intuition discriminate.
Qed.

Lemma sameShape_writesAt c c' p : sameShape c c' -> writesAt c' p = writesAt c p.
Proof.
  intros (_ & Ht & _ & Hp & _). unfold writesAt. rewrite Ht, Hp. reflexivity.
Qed.

Lemma sameShape_keyOf c c' p : sameShape c c' -> keyOf c' p = keyOf c p.
Proof. intros (Hi & _). unfold keyOf. rewrite Hi. reflexivity. Qed.

Lemma sameShape_keysOf c c' : sameShape c c' -> keysOf c' = keysOf c.
Proof.
  intros H. unfold keysOf. destruct H as (Hi & _ & _ & Hp & _).
  rewrite Hp. apply map_ext. intros p. unfold keyOf. rewrite Hi. reflexivity.
Qed.

(** The map after the evaluation of a component: at the ports the
    component writes, the merge of the old colour and the emitted one;
    elsewhere the old map. *)
Lemma evalComponent_get conns c m ch c' m' ch' :
  NoDup (keysOf c) ->
  evalComponent conns c (m, ch) = (c', (m', ch')) ->
  (forall p, p ∈ comp_ports c ->
     getOutput m' (keyOf c p)
     = if writesAt c p
       then merge (getOutput m (keyOf c p)) (emitted conns m c' p)
       else getOutput m (keyOf c p))
  /\ (forall k, k ∉ keysOf c -> getOutput m' k = getOutput m k).
Proof.
  intros Hnd E.
  pose proof (evalComponent_shape conns c (m, ch)) as Hsh.
  rewrite E in Hsh. cbn [fst] in Hsh.
  assert (forall p, emitted conns m c' p
                    = if writesAt c p then
                        match comp_type c with
                        | factory => comp_color c
                        | adder => adderColor conns m c'
                        | gradientor => gradientorColor conns m c'
                        | storage => held c' (port_id p)
                        end
                      else None) as Hem.
  { intros p. unfold emitted. rewrite (sameShape_writesAt _ _ _ Hsh).
    destruct Hsh as (_ & -> & -> & _). reflexivity. }
  unfold keysOf in *. unfold evalComponent in E.
  destruct (comp_type c) eqn:T.
  - (* factory *)
    injection E as <- E.
    destruct (emitAll_get (comp_id c)
                (filter (fun p => hasRole output p) (comp_ports c))
                (comp_color c) m ch) as [H1 H2].
    rewrite E in H1, H2. cbn [fst] in H1, H2. split.
    + intros p Hp. rewrite Hem. unfold writesAt. rewrite T.
      destruct (hasRole output p) eqn:R.
      * apply H1, elem_of_role_filter. rewrite <- hasRole_true. auto.
      * apply H2. intros Hin. apply elem_of_map in Hin as (q & Hk & Hq).
        apply elem_of_role_filter in Hq as [Hqr Hq].
        assert (p = q) as -> by (eapply NoDup_map_inj; eauto).
        apply hasRole_true in Hqr. congruence.
    + intros k Hk. apply H2. intros Hin. apply Hk.
      apply elem_of_map in Hin as (q & -> & Hq).
      apply elem_of_role_filter in Hq as [_ Hq]. apply elem_of_map. eauto.
  - (* adder *)
    injection E as <- E.
    destruct (emitAll_get (comp_id c)
                (filter (fun p => hasRole output p) (comp_ports c))
                (adderColor conns m c) m ch) as [H1 H2].
    cbn [fst] in E. rewrite E in H1, H2. cbn [fst] in H1, H2. split.
    + intros p Hp. rewrite Hem. unfold writesAt. rewrite T.
      destruct (hasRole output p) eqn:R.
      * apply H1, elem_of_role_filter. rewrite <- hasRole_true. auto.
      * apply H2. intros Hin. apply elem_of_map in Hin as (q & Hk & Hq).
        apply elem_of_role_filter in Hq as [Hqr Hq].
        assert (p = q) as -> by (eapply NoDup_map_inj; eauto).
        apply hasRole_true in Hqr. congruence.
    + intros k Hk. apply H2. intros Hin. apply Hk.
      apply elem_of_map in Hin as (q & -> & Hq).
      apply elem_of_role_filter in Hq as [_ Hq]. apply elem_of_map. eauto.
  - (* gradientor *)
    destruct (find (fun p => hasRole output p) (comp_ports c)) as [q|] eqn:F.
    + injection E as <- E.
      change (emitAll (comp_id c) [q] (gradientorColor conns (fst (m, ch)) c)
                (m, ch) = (m', ch')) in E.
      destruct (emitAll_get (comp_id c) [q] (gradientorColor conns m c) m ch)
        as [H1 H2].
      cbn [fst] in E. rewrite E in H1, H2. cbn [fst] in H1, H2.
      pose proof (find_elem_of _ _ _ F) as [Hq _]. split.
      * intros p Hp. rewrite Hem. unfold writesAt. rewrite T, F.
        case_bool_decide as Hd.
        -- injection Hd as <-. apply H1. left.
        -- apply H2. cbn. intros Hin. apply list_elem_of_singleton in Hin.
           apply Hd. f_equal. eapply NoDup_map_inj; eauto.
      * intros k Hk. apply H2. cbn. intros Hin.
        apply list_elem_of_singleton in Hin as ->.
        apply Hk, elem_of_map. eauto.
    + injection E as <- <- <-. split; [|reflexivity].
      intros p Hp. unfold writesAt. rewrite T, F.
      rewrite bool_decide_eq_false_2 by discriminate. reflexivity.
  - (* storage *)
    cbn [fst snd] in E.
    destruct (storeInbound conns m (comp_id c) (comp_ports c) _) as [s ch1].
    injection E as <- E.
    destruct (emitStored_get (comp_id c) s (comp_ports c) Hnd m ch1) as [H1 H2].
    rewrite E in H1, H2. cbn [fst] in H1, H2. split.
    + intros p Hp. rewrite Hem. unfold writesAt. rewrite T.
      destruct (hasRole flex p) eqn:R.
      * apply H1; [exact Hp|]. apply hasRole_true. exact R.
      * apply H2. intros q Hq Hqr Hk.
        assert (p = q) as -> by (eapply NoDup_map_inj; eauto).
        apply hasRole_true in Hqr. congruence.
    + intros k Hk. apply H2. intros q Hq _ ->. apply Hk, elem_of_map. eauto.
Qed.

(* ================================================================== *)
(** ** Colours only appear                                             *)
(* ================================================================== *)

Lemma le_map_refl m : le_map m m.
Proof. intros k v H. exact H. Qed.

Lemma le_map_trans m1 m2 m3 : le_map m1 m2 -> le_map m2 m3 -> le_map m1 m3.
Proof. intros H1 H2 k v H. apply H2, H1, H. Qed.

Lemma inboundColor_mono conns m m' cid pid w :
  le_map m m' -> inboundColor conns m cid pid = Some w ->
  inboundColor conns m' cid pid = Some w.
Proof.
  intros Hle. unfold inboundColor. destruct (findInbound conns cid pid); auto.
Qed.

Lemma adderColor_mono conns m m' c v :
  le_map m m' -> twoInputs c -> comp_type c = adder ->
  adderColor conns m c = Some v -> adderColor conns m' c = Some v.
Proof.
  intros Hle Htwo T. specialize (Htwo T). unfold inputsOf in Htwo.
  unfold adderColor.
  destruct (filter (fun p => hasRole input p) (comp_ports c))
    as [|pa [|pb [|pc l]]]; cbn in *; try discriminate; try lia.
  - destruct (inboundColor conns m _ _); discriminate.
  - destruct (inboundColor conns m _ (port_id pa)) as [x|] eqn:Ea.
    + destruct (inboundColor conns m _ (port_id pb)) as [y|] eqn:Eb;
        [|discriminate].
      rewrite (inboundColor_mono _ _ _ _ _ _ Hle Ea),
              (inboundColor_mono _ _ _ _ _ _ Hle Eb). auto.
    + destruct (inboundColor conns m _ (port_id pb)); discriminate.
Qed.

Lemma gradientorColor_mono conns m m' c v :
  le_map m m' ->
  gradientorColor conns m c = Some v -> gradientorColor conns m' c = Some v.
Proof.
  intros Hle. unfold gradientorColor.
  destruct (find (fun p => hasRole input p) (comp_ports c)) as [p|];
    [|discriminate].
  destruct (inboundColor conns m _ _) as [x|] eqn:E; [|discriminate].
  rewrite (inboundColor_mono _ _ _ _ _ _ Hle E). auto.
Qed.

Lemma emitted_mono conns m m' c p v :
  le_map m m' -> twoInputs c ->
  emitted conns m c p = Some v -> emitted conns m' c p = Some v.
Proof.
  intros Hle Htwo. unfold emitted. destruct (writesAt c p); [|discriminate].
  destruct (comp_type c) eqn:T; auto.
  - apply adderColor_mono; assumption.
  - apply gradientorColor_mono; assumption.
Qed.

Lemma matched_mono conns m m' c p v :
  le_map m m' -> matched conns m c p v -> matched conns m' c p v.
Proof.
  intros Hle (w & Hw & Hag). exists w. split; [|exact Hag].
  eapply inboundColor_mono; eassumption.
Qed.

Lemma sameShape_twoInputs c c' : sameShape c c' -> twoInputs c -> twoInputs c'.
Proof.
  intros (_ & Ht & _ & Hp & _) H T. unfold inputsOf. rewrite Hp.
  apply H. congruence.
Qed.

Lemma sameShape_adderColor conns m c c' :
  sameShape c c' -> adderColor conns m c' = adderColor conns m c.
Proof. intros (Hi & _ & _ & Hp & _). unfold adderColor. rewrite Hi, Hp. reflexivity. Qed.

Lemma sameShape_gradientorColor conns m c c' :
  sameShape c c' -> gradientorColor conns m c' = gradientorColor conns m c.
Proof.
  intros (Hi & _ & _ & Hp & Hm). unfold gradientorColor.
  rewrite Hi, Hp, Hm. reflexivity.
Qed.

(** A component keeps what it is justified to have when colours appear
    at the keys of other components only. *)
Lemma justified_mono conns m m' d :
  le_map m m' -> twoInputs d ->
  (forall p, p ∈ comp_ports d -> getOutput m' (keyOf d p) = getOutput m (keyOf d p)) ->
  justified conns m d -> justified conns m' d.
Proof.
  intros Hle Htwo Hsame [Ha Hc]. split.
  - intros p v Hp Hv. rewrite Hsame in Hv by assumption.
    eapply emitted_mono; eauto.
  - intros T p v Hp Hr Hh. eapply matched_mono; eauto.
Qed.

Lemma silent_same m m' d :
  (forall p, p ∈ comp_ports d -> getOutput m' (keyOf d p) = getOutput m (keyOf d p)) ->
  silent m d -> silent m' d.
Proof. intros Hsame H p Hp. rewrite Hsame by assumption. auto. Qed.

(** What a storage holds after its evaluation. *)
Lemma evalComponent_held' conns c m ch c' acc' pid :
  evalComponent conns c (m, ch) = (c', acc') ->
  held c' pid = if storesAt c pid
                then merge (held c pid) (inboundColor conns m (comp_id c) pid)
                else held c pid.
Proof.
  intros E. replace c' with (fst (evalComponent conns c (m, ch)))
    by (rewrite E; reflexivity).
  unfold storesAt. case_bool_decide as T; cbn [andb].
  - rewrite evalComponent_held by assumption. reflexivity.
  - rewrite evalComponent_other by assumption. reflexivity.
Qed.

Lemma storesAt_flex c p :
  comp_type c = storage -> p ∈ comp_ports c -> port_role p = flex ->
  storesAt c (port_id p) = true.
Proof.
  intros T Hp Hr. unfold storesAt.
  rewrite bool_decide_eq_true_2, flex_port_found by assumption. reflexivity.
Qed.

Lemma storesAt_inv c pid :
  storesAt c pid = true ->
  comp_type c = storage
  /\ exists p, p ∈ comp_ports c /\ port_role p = flex /\ port_id p = pid.
Proof.
  unfold storesAt. rewrite andb_true_iff, bool_decide_eq_true, existsb_exists.
  intros [T (p & Hp & Hq)]. split; [exact T|]. exists p.
  apply andb_true_iff in Hq as [Hr Hi].
  apply hasRole_true in Hr. apply bool_decide_eq_true in Hi.
  rewrite <- list_elem_of_In in Hp. auto.
Qed.

(** One evaluation under the invariant: colours only appear, the
    component is justified afterwards, and a component evaluated before
    keeps the colours it held. *)
Lemma evalComponent_step conns b c m ch c' m' ch' :
  NoDup (keysOf c) -> twoInputs c -> tagged b conns m c ->
  evalComponent conns c (m, ch) = (c', (m', ch')) ->
  le_map m m' /\ justified conns m' c' /\ (b = true -> evolves c c').
Proof.
  intros Hnd Htwo Htag E.
  pose proof (evalComponent_shape conns c (m, ch)) as Hsh.
  rewrite E in Hsh. cbn [fst] in Hsh.
  destruct (evalComponent_get conns c m ch c' m' ch' Hnd E) as [Hget1 Hget2].
  pose proof (fun pid => evalComponent_held' conns c m ch c' _ pid E) as Hheld.
  (* a colour held by a component evaluated before stays *)
  assert (b = true -> forall pid v, held c pid = Some v -> held c' pid = Some v)
    as Hkeep.
  { intros -> pid v Hv. rewrite Hheld.
    destruct (storesAt c pid) eqn:S; [|exact Hv].
    apply storesAt_inv in S as (T & p & Hp & Hr & <-).
    destruct Htag as [_ Hc].
    destruct (Hc T p v Hp Hr Hv) as (w & -> & Hag).
    rewrite Hv. apply merge_agree. exact Hag. }
  (* what the map has at a written port is what is emitted again *)
  assert (forall p v, p ∈ comp_ports c -> writesAt c p = true ->
                      getOutput m (keyOf c p) = Some v ->
                      emitted conns m c' p = Some v) as Hre.
  { intros p v Hp Hw Hv. destruct b; [|rewrite (Htag p Hp) in Hv; discriminate].
    destruct Htag as [Ha _]. specialize (Ha p v Hp Hv).
    unfold emitted in *. rewrite (sameShape_writesAt _ _ _ Hsh), Hw in *.
    rewrite (sameShape_adderColor conns m c c' Hsh),
            (sameShape_gradientorColor conns m c c' Hsh).
    destruct Hsh as (Hi & Ht & Hcol & Hports & Hmode). rewrite Ht, Hcol.
    destruct (comp_type c) eqn:T; try exact Ha.
    apply Hkeep; [reflexivity|exact Ha]. }
  (* a port that is not written has no colour *)
  assert (forall p, p ∈ comp_ports c -> writesAt c p = false ->
                    getOutput m (keyOf c p) = None) as Hno.
  { intros p Hp Hw. destruct b; [|exact (Htag p Hp)].
    destruct Htag as [Ha _].
    destruct (getOutput m (keyOf c p)) as [v|] eqn:Hv; [|reflexivity].
    specialize (Ha p v Hp Hv). unfold emitted in Ha. rewrite Hw in Ha.
    discriminate. }
  assert (forall p, p ∈ comp_ports c -> writesAt c p = true ->
                    getOutput m' (keyOf c p) = emitted conns m c' p) as Hnew.
  { intros p Hp Hw. rewrite Hget1, Hw by assumption.
    apply merge_out. intros v Hv. eapply Hre; eauto. }
  assert (le_map m m') as Hle.
  { intros k v Hv. destruct (decide (k ∈ keysOf c)) as [Hin|Hnin].
    - apply elem_of_map in Hin as (p & -> & Hp).
      destruct (writesAt c p) eqn:Hw.
      + rewrite Hnew by assumption. eapply Hre; eauto.
      + rewrite Hno in Hv by assumption. discriminate.
    - rewrite Hget2 by assumption. exact Hv. }
  split; [exact Hle|]. split; [|intros Hb].
  - destruct Hsh as (Hi & Ht & Hcol & Hports & Hmode).
    assert (sameShape c c') as Hsh by (repeat split; assumption).
    split.
    + intros p v Hp Hv. rewrite Hports in Hp.
      rewrite (sameShape_keyOf _ _ _ Hsh) in Hv.
      destruct (writesAt c p) eqn:Hw.
      * rewrite Hnew in Hv by assumption.
        eapply emitted_mono; eauto using sameShape_twoInputs.
      * rewrite Hget1, Hw, Hno in Hv by assumption. discriminate.
    + intros T p v Hp Hr Hv. rewrite Hports in Hp. rewrite Ht in T.
      apply (matched_mono conns m m' c' p v Hle).
      rewrite Hheld, storesAt_flex in Hv by assumption.
      unfold matched. rewrite Hi.
      apply merge_Some in Hv as [[_ Heq]|Heq].
      * destruct (colorsEqual_Some_l _ _ Heq) as [w Hw].
        exists w. rewrite Hw in Heq. auto.
      * exists v. auto.
  - split; [exact Hsh|]. split; [auto|].
    intros pid S. rewrite Hheld, S. reflexivity.
Qed.

(* ================================================================== *)
(** ** The invariant of the rounds                                     *)
(* ================================================================== *)

Lemma allKeys_app cs ds : allKeys (cs ++ ds) = allKeys cs ++ allKeys ds.
Proof. unfold allKeys. apply flat_map_app. Qed.

Lemma elem_of_allKeys k cs :
  k ∈ allKeys cs <-> exists c, c ∈ cs /\ k ∈ keysOf c.
Proof.
  unfold allKeys. rewrite list_elem_of_In, in_flat_map.
  split; intros (c & H1 & H2); exists c;
    rewrite ?list_elem_of_In in *; auto.
Qed.

Lemma Forall2_sameShape_allKeys cs cs' :
  Forall2 sameShape cs cs' -> allKeys cs' = allKeys cs.
Proof.
  induction 1 as [|c c' cs cs' Hc _ IH]; [reflexivity|].
  change (keysOf c' ++ allKeys cs' = keysOf c ++ allKeys cs).
  rewrite IH, (sameShape_keysOf _ _ Hc). reflexivity.
Qed.

Lemma Forall2_sameShape_twoInputs cs cs' :
  Forall2 sameShape cs cs' -> Forall twoInputs cs -> Forall twoInputs cs'.
Proof.
  induction 1 as [|c c' cs cs' Hc _ IH]; intros H; [constructor|].
  inversion H; subst. constructor; eauto using sameShape_twoInputs.
Qed.

Lemma wellFormed_sameShape cs cs' :
  Forall2 sameShape cs cs' -> wellFormed cs -> wellFormed cs'.
Proof.
  intros Hsh [Hnd Htwo]. split.
  - rewrite (Forall2_sameShape_allKeys _ _ Hsh). exact Hnd.
  - eapply Forall2_sameShape_twoInputs; eauto.
Qed.

(** The keys of two components at different places of a well-formed
    list are different. *)
Lemma keys_apart A c B d k :
  NoDup (allKeys (A ++ c :: B)) -> d ∈ A ++ B -> k ∈ keysOf d -> k ∉ keysOf c.
Proof.
  rewrite allKeys_app. cbn. intros Hnd Hd Hk Hkc.
  apply NoDup_app in Hnd as (_ & Hdis & Hnd).
  apply NoDup_app in Hnd as (_ & Hdis' & _).
  apply elem_of_app in Hd as [Hd|Hd].
  - apply (Hdis k); [apply elem_of_allKeys; eauto|].
    apply elem_of_app. left. exact Hkc.
  - apply (Hdis' k Hkc). apply elem_of_allKeys. eauto.
Qed.

Lemma evalComponents_inv conns :
  forall post pre m ch post' m' ch',
  wellFormed (List.map snd (pre ++ post)) ->
  roundInv conns (pre ++ post) m ->
  evalComponents conns (List.map snd post) (m, ch) = (post', (m', ch')) ->
  roundInv conns (pre ++ List.map (pair true) post') m'
  /\ le_map m m'
  /\ Forall2 (fun bc c' => sameShape (snd bc) c'
                           /\ (fst bc = true -> evolves (snd bc) c')) post post'.
Proof.
  induction post as [|[b c] post IH]; intros pre m ch post' m' ch' Hwf Hinv; cbn.
  - intros [= <- <- <-]. cbn. split; [exact Hinv|].
    split; [apply le_map_refl|constructor].
  - destruct (evalComponent conns c (m, ch)) as [c1 [m1 ch1]] eqn:E.
    destruct (evalComponents conns (List.map snd post) (m1, ch1))
      as [post1 [m2 ch2]] eqn:E'.
    intros [= <- <- <-].
    destruct Hwf as [Hnd Htwo].
    rewrite map_app in Hnd, Htwo. cbn in Hnd, Htwo.
    assert (NoDup (keysOf c)) as Hndc.
    { rewrite allKeys_app in Hnd. cbn in Hnd.
      apply NoDup_app in Hnd as (_ & _ & Hnd).
      apply NoDup_app in Hnd as (Hnd & _). exact Hnd. }
    assert (twoInputs c) as Htwoc.
    { rewrite Forall_app in Htwo. destruct Htwo as [_ Htwo].
      inversion Htwo; assumption. }
    assert (tagged b conns m c) as Htag.
    { apply Hinv. apply elem_of_app. right. left. }
    destruct (evalComponent_step conns b c m ch c1 m1 ch1 Hndc Htwoc Htag E)
      as (Hle & Hjust & Hev).
    destruct (evalComponent_get conns c m ch c1 m1 ch1 Hndc E) as [_ Hget2].
    pose proof (evalComponent_shape conns c (m, ch)) as Hsh.
    rewrite E in Hsh. cbn [fst] in Hsh.
    destruct (IH (pre ++ [(true, c1)]) m1 ch1 post1 m2 ch2) as (Hinv2 & Hle2 & Hall).
    + rewrite <- app_assoc. cbn. rewrite map_app. cbn. split.
      * rewrite allKeys_app in *. cbn in *.
        rewrite (sameShape_keysOf _ _ Hsh). exact Hnd.
      * rewrite Forall_app in *. destruct Htwo as [H1 H2].
        inversion H2; subst. split; [exact H1|].
        constructor; eauto using sameShape_twoInputs.
    + intros b' d Hd. rewrite <- app_assoc in Hd. cbn in Hd.
      apply elem_of_app in Hd as [Hd|Hd];
        [|apply elem_of_cons in Hd as [[= -> ->]|Hd]; [exact Hjust|]].
      * assert (forall p, p ∈ comp_ports d ->
                          getOutput m1 (keyOf d p) = getOutput m (keyOf d p)) as Hs.
        { intros p Hp. apply Hget2.
          eapply (keys_apart (List.map snd pre) c (List.map snd post) d);
            [exact Hnd| |apply elem_of_map; eauto].
          apply elem_of_app. left. apply elem_of_map. exists (b', d). auto. }
        assert (tagged b' conns m d) as Hd'
          by (apply Hinv, elem_of_app; auto).
        destruct b'; cbn in *.
        -- apply (justified_mono conns m m1 d Hle); auto.
           rewrite Forall_app in Htwo. destruct Htwo as [H1 _].
           rewrite Forall_forall in H1. apply H1, elem_of_map.
           exists (true, d). auto.
        -- eapply silent_same; eauto.
      * assert (forall p, p ∈ comp_ports d ->
                          getOutput m1 (keyOf d p) = getOutput m (keyOf d p)) as Hs.
        { intros p Hp. apply Hget2.
          eapply (keys_apart (List.map snd pre) c (List.map snd post) d);
            [exact Hnd| |apply elem_of_map; eauto].
          apply elem_of_app. right. apply elem_of_map. exists (b', d). auto. }
        assert (tagged b' conns m d) as Hd'.
        { apply Hinv, elem_of_app. right. right. exact Hd. }
        destruct b'; cbn in *.
        -- apply (justified_mono conns m m1 d Hle); auto.
           rewrite Forall_app in Htwo. destruct Htwo as [_ H2].
           inversion H2 as [|? ? _ H3]; subst.
           rewrite Forall_forall in H3. apply H3, elem_of_map.
           exists (true, d). auto.
        -- eapply silent_same; eauto.
    + exact E'.
    + rewrite <- app_assoc in Hinv2. cbn in Hinv2. split; [exact Hinv2|].
      split; [eapply le_map_trans; eauto|].
      constructor; [|exact Hall]. cbn. auto.
Qed.

Lemma map_snd_pair (b : bool) (cs : list component) :
  List.map snd (List.map (pair b) cs) = cs.
Proof. induction cs as [|c cs IH]; cbn; [|rewrite IH]; reflexivity. Qed.

Lemma Forall2_map_pair (b : bool) (R : bool * component -> component -> Prop)
    (cs cs' : list component) :
  Forall2 R (List.map (pair b) cs) cs' -> Forall2 (fun c c' => R (b, c) c') cs cs'.
Proof.
  revert cs'. induction cs as [|c cs IH]; intros cs' H; inversion H; subst;
    constructor; auto.
Qed.

Lemma evolves_refl c : evolves c c.
Proof. split; [apply sameShape_refl|]. split; auto. Qed.

Lemma sameShape_storesAt c c' pid : sameShape c c' -> storesAt c' pid = storesAt c pid.
Proof. intros (_ & Ht & _ & Hp & _). unfold storesAt. rewrite Ht, Hp. reflexivity. Qed.

Lemma evolves_trans c1 c2 c3 : evolves c1 c2 -> evolves c2 c3 -> evolves c1 c3.
Proof.
  intros (S1 & G1 & K1) (S2 & G2 & K2). split; [eapply sameShape_trans; eauto|].
  split; [auto|]. intros pid Hs. rewrite K2, K1; auto.
  rewrite (sameShape_storesAt _ _ _ S1). exact Hs.
Qed.

Lemma Forall2_evolves_refl cs : Forall2 evolves cs cs.
Proof. induction cs; constructor; auto using evolves_refl. Qed.

Lemma Forall2_evolves_trans l1 l2 l3 :
  Forall2 evolves l1 l2 -> Forall2 evolves l2 l3 -> Forall2 evolves l1 l3.
Proof.
  intros H. revert l3. induction H; intros l3 H3; inversion H3; subst;
    constructor; eauto using evolves_trans.
Qed.

(** The first round establishes the invariant. *)
Lemma round_enter st :
  wellFormed (components st) ->
  loopInv (connections st) (round (connections st) (enterLoop st)).
Proof.
  intros Hwf. unfold round. cbn [enterLoop ls_components portOutputs].
  destruct (evalComponents (connections st) (components st) (∅, false))
    as [cs [m ch]] eqn:E.
  pose proof (evalComponents_shape (connections st) (components st) (∅, false))
    as Hsh. rewrite E in Hsh. cbn [fst] in Hsh.
  destruct (evalComponents_inv (connections st)
              (List.map (pair false) (components st)) [] ∅ false cs m ch)
    as (Hinv & _ & _).
  - cbn. rewrite map_snd_pair. exact Hwf.
  - intros b c Hc. cbn in Hc. apply elem_of_map in Hc as (c0 & [= -> ->] & _).
    intros p Hp. reflexivity.
  - rewrite map_snd_pair. exact E.
  - split; cbn; [eapply wellFormed_sameShape; eauto|exact Hinv].
Qed.

(** Every later round keeps it, and the components evolve. *)
Lemma round_loopInv conns s :
  loopInv conns s ->
  loopInv conns (round conns s)
  /\ Forall2 evolves (ls_components s) (ls_components (round conns s)).
Proof.
  intros [Hwf Hinv]. unfold round.
  destruct (evalComponents conns (ls_components s) (portOutputs s, false))
    as [cs [m ch]] eqn:E.
  pose proof (evalComponents_shape conns (ls_components s) (portOutputs s, false))
    as Hsh. rewrite E in Hsh. cbn [fst] in Hsh.
  destruct (evalComponents_inv conns
              (List.map (pair true) (ls_components s)) [] (portOutputs s) false
              cs m ch) as (Hinv' & _ & Hall).
  - cbn. rewrite map_snd_pair. exact Hwf.
  - exact Hinv.
  - rewrite map_snd_pair. exact E.
  - cbn. split; [split; [eapply wellFormed_sameShape; eauto|exact Hinv']|].
    apply Forall2_map_pair in Hall.
    eapply Forall2_impl; [exact Hall|]. cbn. intros c c' [_ H]. auto.
Qed.

Lemma rounds_loopInv conns n s :
  loopInv conns s ->
  loopInv conns (Nat.iter n (round conns) s)
  /\ Forall2 evolves (ls_components s)
       (ls_components (Nat.iter n (round conns) s)).
Proof.
  intros H. induction n as [|n [IH1 IH2]]; cbn.
  - split; [exact H|apply Forall2_evolves_refl].
  - destruct (round_loopInv conns _ IH1) as [H1 H2].
    split; [exact H1|eapply Forall2_evolves_trans; eauto].
Qed.

(* ================================================================== *)
(** ** Evaluation depends on the held colours only                     *)
(* ================================================================== *)

Lemma emitAll_flag cid ps c :
  forall m ch ch',
  fst (emitAll cid ps c (m, ch)) = fst (emitAll cid ps c (m, ch'))
  /\ (ch = ch' -> emitAll cid ps c (m, ch) = emitAll cid ps c (m, ch')).
Proof.
  intros m ch ch'. split; [|intros ->; reflexivity].
  revert m ch ch'. induction ps as [|p ps IH]; intros m ch ch'; cbn;
    [reflexivity|].
  destruct (setPortOutput m _ c) as [m1 set]. apply IH.
Qed.

Lemma emitStored_agree cid s t ps :
  (forall pid, heldColor s pid = heldColor t pid) ->
  forall m ch ch',
  fst (emitStored cid s ps (m, ch)) = fst (emitStored cid t ps (m, ch'))
  /\ (ch = ch' -> emitStored cid s ps (m, ch) = emitStored cid t ps (m, ch')).
Proof.
  intros Hst. induction ps as [|p ps IH]; intros m ch ch'; cbn.
  - split; [reflexivity|intros ->; reflexivity].
  - destruct (hasRole flex p); cbn [negb]; [|apply IH].
    rewrite Hst. destruct (setPortOutput m _ _) as [m1 set].
    destruct (IH m1 (if set then true else ch) (if set then true else ch'))
      as [H1 H2].
    split; [exact H1|]. intros ->. apply H2. reflexivity.
Qed.

Lemma storeInbound_agree conns m cid ps :
  forall s t ch,
  (forall pid, heldColor s pid = heldColor t pid) ->
  snd (storeInbound conns m cid ps (s, ch)) = snd (storeInbound conns m cid ps (t, ch))
  /\ forall pid, heldColor (fst (storeInbound conns m cid ps (s, ch))) pid
                 = heldColor (fst (storeInbound conns m cid ps (t, ch))) pid.
Proof.
  induction ps as [|p ps IH]; intros s t ch Hst; cbn; [auto|].
  destruct (hasRole flex p); cbn [negb]; [|apply IH; exact Hst].
  rewrite Hst. destruct (colorsEqual _ _); cbn [negb]; apply IH;
    [exact Hst|].
  intros pid. unfold heldColor. rewrite !lookup_insert.
  case_decide; [reflexivity|apply Hst].
Qed.

(** Two versions of a component whose held colours agree once the
    inbound colours are merged in leave the same map and hold the same
    colours afterwards. *)
Lemma evalComponent_agree conns c d m ch ch2 c' d' m1 m2 f1 f2 :
  sameShape c d ->
  (forall pid, storesAt c pid = false -> held d pid = held c pid) ->
  (forall pid, storesAt c pid = true ->
               merge (held d pid) (inboundColor conns m (comp_id c) pid)
               = merge (held c pid) (inboundColor conns m (comp_id c) pid)) ->
  evalComponent conns c (m, ch) = (c', (m1, f1)) ->
  evalComponent conns d (m, ch2) = (d', (m2, f2)) ->
  m2 = m1 /\ sameHeld c' d'.
Proof.
  intros Hsh Hother Hflex Ec Ed.
  pose proof (evalComponent_shape conns c (m, ch)) as Hc.
  pose proof (evalComponent_shape conns d (m, ch2)) as Hd.
  rewrite Ec in Hc. rewrite Ed in Hd. cbn [fst] in Hc, Hd.
  assert (forall pid, held d' pid = held c' pid) as Hheld.
  { intros pid.
    rewrite (evalComponent_held' conns c m ch c' _ pid Ec),
            (evalComponent_held' conns d m ch2 d' _ pid Ed).
    rewrite (sameShape_storesAt _ _ _ Hsh).
    destruct Hsh as (Hi & _). rewrite Hi.
    destruct (storesAt c pid) eqn:S; auto. }
  split.
  - destruct Hsh as (Hi & Ht & Hcol & Hp & Hm).
    unfold evalComponent in Ec, Ed. rewrite Ht, Hi, Hp, Hcol in Ed.
    assert (adderColor conns m d = adderColor conns m c) as Had
      by (apply sameShape_adderColor; repeat split; assumption).
    assert (gradientorColor conns m d = gradientorColor conns m c) as Hgr
      by (apply sameShape_gradientorColor; repeat split; assumption).
    cbn [fst snd] in Ec, Ed. rewrite ?Had, ?Hgr in Ed.
    destruct (comp_type c) eqn:T.
    + injection Ec as _ Ec. injection Ed as _ Ed.
      pose proof (proj1 (emitAll_flag (comp_id c)
                           (filter (fun p => hasRole output p) (comp_ports c))
                           (comp_color c) m ch ch2)) as H.
      rewrite Ec, Ed in H. cbn in H. congruence.
    + injection Ec as _ Ec. injection Ed as _ Ed.
      pose proof (proj1 (emitAll_flag (comp_id c)
                           (filter (fun p => hasRole output p) (comp_ports c))
                           (adderColor conns m c) m ch ch2)) as H.
      rewrite Ec, Ed in H. cbn in H. congruence.
    + destruct (find (fun p => hasRole output p) (comp_ports c)) as [q|].
      * injection Ec as _ Ec. injection Ed as _ Ed.
        pose proof (proj1 (emitAll_flag (comp_id c) [q]
                             (gradientorColor conns m c) m ch ch2)) as H.
        change (emitAll (comp_id c) [q] (gradientorColor conns m c) (m, ch)
                = (m1, f1)) in Ec.
        change (emitAll (comp_id c) [q] (gradientorColor conns m c) (m, ch2)
                = (m2, f2)) in Ed.
        rewrite Ec, Ed in H. cbn in H. congruence.
      * congruence.
    + destruct (storeInbound conns m (comp_id c) (comp_ports c)
                  (match comp_storageSlots c with Some s => s | None => ∅ end, ch))
        as [s1 g1] eqn:Sc.
      destruct (storeInbound conns m (comp_id c) (comp_ports c)
                  (match comp_storageSlots d with Some s => s | None => ∅ end, ch2))
        as [s2 g2] eqn:Sd.
      injection Ec as Ec1 Ec. injection Ed as Ed1 Ed.
      assert (forall pid, heldColor s1 pid = heldColor s2 pid) as Hs.
      { intros pid. specialize (Hheld pid). subst c' d'.
        unfold held in Hheld. cbn in Hheld. auto. }
      pose proof (proj1 (emitStored_agree (comp_id c) s1 s2 (comp_ports c) Hs
                           m g1 g2)) as H.
      rewrite Ec, Ed in H. cbn in H. congruence.
  - split; [|exact Hheld].
    eapply sameShape_trans; [|exact Hd].
    eapply sameShape_trans; [|exact Hsh].
    destruct Hc as (H1 & H2 & H3 & H4 & H5). repeat split; congruence.
Qed.

(** Versions that hold the same colours evaluate alike. *)
Lemma evalComponent_cong conns c d acc :
  sameHeld c d ->
  snd (evalComponent conns c acc) = snd (evalComponent conns d acc)
  /\ sameHeld (fst (evalComponent conns c acc)) (fst (evalComponent conns d acc)).
Proof.
  intros [Hsh Hheld]. destruct acc as [m ch].
  destruct (evalComponent conns c (m, ch)) as [c' [m1 f1]] eqn:Ec.
  destruct (evalComponent conns d (m, ch)) as [d' [m2 f2]] eqn:Ed.
  destruct (evalComponent_agree conns c d m ch ch c' d' m1 m2 f1 f2 Hsh)
    as [-> Hsame]; auto.
  { intros pid _. rewrite Hheld. reflexivity. }
  cbn. split; [|exact Hsame]. f_equal.
  (* the flags *)
  destruct Hsh as (Hi & Ht & Hcol & Hp & Hm).
  assert (adderColor conns m d = adderColor conns m c) as Had
    by (apply sameShape_adderColor; repeat split; assumption).
  assert (gradientorColor conns m d = gradientorColor conns m c) as Hgr
    by (apply sameShape_gradientorColor; repeat split; assumption).
  unfold evalComponent in Ec, Ed. rewrite Ht, Hi, Hp, Hcol in Ed.
  cbn [fst snd] in Ec, Ed. rewrite ?Had, ?Hgr in Ed.
  destruct (comp_type c) eqn:T; try congruence.
  - destruct (find _ _); congruence.
  - assert (forall pid,
              heldColor (match comp_storageSlots c with Some s => s | None => ∅ end) pid
              = heldColor (match comp_storageSlots d with Some s => s | None => ∅ end) pid)
      as Hs.
    { intros pid. specialize (Hheld pid). unfold held in Hheld.
      destruct (comp_storageSlots c), (comp_storageSlots d); auto. }
    destruct (storeInbound_agree conns m (comp_id c) (comp_ports c) _ _ ch Hs)
      as [Hflag Hs'].
    destruct (storeInbound conns m (comp_id c) (comp_ports c)
                (match comp_storageSlots c with Some s => s | None => ∅ end, ch))
      as [s1 g1].
    destruct (storeInbound conns m (comp_id c) (comp_ports c)
                (match comp_storageSlots d with Some s => s | None => ∅ end, ch))
      as [s2 g2].
    cbn in Hflag, Hs'. subst g2.
    injection Ec as _ Ec. injection Ed as _ Ed.
    pose proof (proj2 (emitStored_agree (comp_id c) s1 s2 (comp_ports c) Hs'
                         m g1 g1) eq_refl) as H.
    congruence.
Qed.

Lemma evalComponents_cong conns :
  forall cs ds acc,
  Forall2 sameHeld cs ds ->
  snd (evalComponents conns cs acc) = snd (evalComponents conns ds acc)
  /\ Forall2 sameHeld (fst (evalComponents conns cs acc))
       (fst (evalComponents conns ds acc)).
Proof.
  intros cs ds acc H. revert acc.
  induction H as [|c d cs ds Hcd _ IH]; intros acc; cbn; [auto|].
  destruct (evalComponent_cong conns c d acc Hcd) as [Hacc Hsame].
  destruct (evalComponent conns c acc) as [c' acc1].
  destruct (evalComponent conns d acc) as [d' acc2].
  cbn in Hacc, Hsame. subst acc2.
  destruct (IH acc1) as [Hacc Hall].
  destruct (evalComponents conns cs acc1) as [cs' acc2].
  destruct (evalComponents conns ds acc1) as [ds' acc3].
  cbn in *. split; [exact Hacc|constructor; assumption].
Qed.

(** The first round run again on the components as they are after any
    number of further rounds: the same map, and the same held colours as
    after that first round. *)
Lemma evalComponent_replay conns c0 cR m ch chR c1 m1 f1 c1' m1' f1' :
  evalComponent conns c0 (m, ch) = (c1, (m1, f1)) ->
  evolves c1 cR ->
  evalComponent conns cR (m, chR) = (c1', (m1', f1')) ->
  m1' = m1 /\ sameHeld c1 c1'.
Proof.
  intros E0 (Hsh & Hgrow & Hkeep) ER.
  pose proof (evalComponent_shape conns c0 (m, ch)) as Hsh0.
  rewrite E0 in Hsh0. cbn [fst] in Hsh0.
  pose proof (fun pid => evalComponent_held' conns c0 m ch c1 _ pid E0) as Hheld.
  eapply (evalComponent_agree conns c0 cR); eauto.
  - eapply sameShape_trans; eauto.
  - intros pid S. rewrite Hkeep, Hheld, S; [reflexivity|].
    rewrite (sameShape_storesAt _ _ _ Hsh0). exact S.
  - intros pid S. specialize (Hheld pid). rewrite S in Hheld.
    destruct (held c1 pid) as [v|] eqn:H1.
    + rewrite (Hgrow pid v H1), <- Hheld. symmetry in Hheld.
      apply merge_Some in Hheld as [[_ Heq]|Heq].
      * unfold merge. rewrite Heq. reflexivity.
      * rewrite Heq. apply merge_same.
    + rewrite <- Hheld. symmetry in Hheld. apply merge_None in Hheld.
      rewrite Hheld. apply merge_None_r.
Qed.

Lemma evalComponents_replay conns :
  forall cs0 csR m ch chR cs1 m1 f1,
  evalComponents conns cs0 (m, ch) = (cs1, (m1, f1)) ->
  Forall2 evolves cs1 csR ->
  fst (snd (evalComponents conns csR (m, chR))) = m1
  /\ Forall2 sameHeld cs1 (fst (evalComponents conns csR (m, chR))).
Proof.
  induction cs0 as [|c0 cs0 IH]; intros csR m ch chR cs1 m1 f1; cbn.
  - intros [= <- <- <-] H. inversion H; subst. cbn. auto.
  - destruct (evalComponent conns c0 (m, ch)) as [c1 [m2 f2]] eqn:E0.
    destruct (evalComponents conns cs0 (m2, f2)) as [cs2 [m3 f3]] eqn:E0'.
    intros [= <- <- <-] H. inversion H as [|? cR ? csR' Hev Hall]; subst. cbn.
    destruct (evalComponent conns cR (m, chR)) as [c1' [m2' f2']] eqn:ER.
    destruct (evalComponent_replay conns c0 cR m ch chR c1 m2 f2 c1' m2' f2'
                E0 Hev ER) as [-> Hsame].
    destruct (IH csR' m2 f2 f2' cs2 m3 f3 E0' Hall) as [Hm Hall'].
    destruct (evalComponents conns csR' (m2, f2')) as [cs2' [m3' f3']].
    cbn in *. split; [exact Hm|constructor; assumption].
Qed.

(* ================================================================== *)
(** ** Computing twice                                                 *)
(* ================================================================== *)

Lemma sameHeld_sym c d : sameHeld c d -> sameHeld d c.
Proof.
  intros [(H1 & H2 & H3 & H4 & H5) H]. split; [repeat split; congruence|].
  intros pid. rewrite H. reflexivity.
Qed.

Lemma sameHeld_trans c d e : sameHeld c d -> sameHeld d e -> sameHeld c e.
Proof.
  intros [S1 H1] [S2 H2]. split; [eapply sameShape_trans; eauto|].
  intros pid. rewrite H2, H1. reflexivity.
Qed.

Lemma Forall2_sameHeld_sym cs ds : Forall2 sameHeld cs ds -> Forall2 sameHeld ds cs.
Proof. induction 1; constructor; auto using sameHeld_sym. Qed.

Lemma Forall2_sameHeld_trans l1 l2 l3 :
  Forall2 sameHeld l1 l2 -> Forall2 sameHeld l2 l3 -> Forall2 sameHeld l1 l3.
Proof.
  intros H. revert l3. induction H; intros l3 H3; inversion H3; subst;
    constructor; eauto using sameHeld_trans.
Qed.

(** A round reads the components through the colours they hold. *)
Lemma round_cong conns s s' :
  Forall2 sameHeld (ls_components s) (ls_components s') ->
  portOutputs s = portOutputs s' ->
  Forall2 sameHeld (ls_components (round conns s)) (ls_components (round conns s'))
  /\ portOutputs (round conns s) = portOutputs (round conns s')
  /\ changed (round conns s) = changed (round conns s').
Proof.
  intros Hcs Hm. unfold round. rewrite <- Hm.
  destruct (evalComponents_cong conns _ _ (portOutputs s, false) Hcs) as [H1 H2].
  destruct (evalComponents conns (ls_components s) _) as [cs [m ch]].
  destruct (evalComponents conns (ls_components s') _) as [cs' [m' ch']].
  cbn in *. injection H1 as -> ->. auto.
Qed.

Lemma while_cong conns fuel :
  forall s s',
  Forall2 sameHeld (ls_components s) (ls_components s') ->
  portOutputs s = portOutputs s' -> changed s = changed s' ->
  guard s = guard s' ->
  forall r r', while fuel conns s = Some r -> while fuel conns s' = Some r' ->
  portOutputs r = portOutputs r'.
Proof.
  induction fuel as [|fuel IH]; intros s s' Hcs Hm Hch Hg r r';
    rewrite (while_eq _ _ s), (while_eq _ _ s'), <- Hch, <- Hg;
    destruct (changed s && _); try discriminate;
    try (intros [= <-] [= <-]; exact Hm).
  destruct (round_cong conns s s' Hcs Hm) as (H1 & H2 & H3).
  apply IH; auto. rewrite !guard_round. congruence.
Qed.

(** A round that changes nothing leaves the held colours as they were. *)
Lemma evalComponent_quiet_held conns c m ch c' m' :
  evalComponent conns c (m, ch) = (c', (m', false)) -> sameHeld c c'.
Proof.
  intros E. pose proof (evalComponent_shape conns c (m, ch)) as Hsh.
  rewrite E in Hsh. cbn [fst] in Hsh. split; [exact Hsh|].
  intros pid. destruct (decide (comp_type c = storage)) as [T|T].
  - unfold evalComponent in E. rewrite T in E. cbn [fst snd] in E.
    destruct (storeInbound conns m (comp_id c) (comp_ports c) _) as [s ch1] eqn:S.
    injection E as <- E. apply emitStored_quiet in E as [-> _].
    apply storeInbound_quiet in S as [_ ->].
    unfold held. cbn. destruct (comp_storageSlots c); reflexivity.
  - pose proof (evalComponent_other conns c (m, ch) T) as H.
    rewrite E in H. cbn in H. subst c'. reflexivity.
Qed.

Lemma evalComponents_quiet_held conns cs :
  forall m ch cs' m',
  evalComponents conns cs (m, ch) = (cs', (m', false)) -> Forall2 sameHeld cs cs'.
Proof.
  induction cs as [|c cs IH]; intros m ch cs' m'; cbn.
  - intros [= <- _ _]. constructor.
  - destruct (evalComponent conns c (m, ch)) as [c1 [m1 ch1]] eqn:E.
    destruct (evalComponents conns cs (m1, ch1)) as [cs1 [m2 ch2]] eqn:E'.
    intros [= <- <- ->].
    pose proof (evalComponents_quiet conns cs m1 ch1 cs1 m2 E') as (-> & _ & _).
    constructor; [eapply evalComponent_quiet_held; eauto|eauto].
Qed.

Lemma round_quiet conns s :
  changed (round conns s) = false ->
  portOutputs (round conns s) = portOutputs s
  /\ Forall2 sameHeld (ls_components s) (ls_components (round conns s)).
Proof.
  unfold round.
  destruct (evalComponents conns (ls_components s) (portOutputs s, false))
    as [cs [m ch]] eqn:E. cbn. intros ->.
  pose proof (evalComponents_quiet conns _ _ _ _ _ E) as (_ & -> & _).
  split; [reflexivity|]. eapply evalComponents_quiet_held; eauto.
Qed.

Lemma exitLoop_eq st :
  exitLoop st
  = while 7 (connections st) (round (connections st) (enterLoop st)).
Proof. unfold exitLoop. rewrite while_eq. reflexivity. Qed.

(** The first round of a second [computeColors] ends with the map of the
    first round of the first, and with the same held colours. *)
Lemma second_first_round st rA :
  wellFormed (components st) -> exitLoop st = Some rA ->
  let conns := connections st in
  let s1 := round conns (enterLoop st) in
  let s1' := round conns (enterLoop (set_components st (ls_components rA))) in
  portOutputs s1' = portOutputs s1
  /\ Forall2 sameHeld (ls_components s1) (ls_components s1').
Proof.
  intros Hwf HexA conns s1 s1'.
  rewrite exitLoop_eq in HexA. fold conns s1 in HexA.
  apply while_rounds in HexA as [n ->].
  destruct (rounds_loopInv conns n s1 (round_enter st Hwf)) as [_ Hev].
  subst s1 s1'. unfold round in *.
  cbn [enterLoop ls_components portOutputs set_components components] in *.
  destruct (evalComponents conns (components st) (∅, false))
    as [cs1 [m1 f1]] eqn:E0.
  cbn [ls_components] in Hev.
  match type of Hev with Forall2 _ _ ?l =>
    destruct (evalComponents_replay conns (components st) l ∅ false false
                cs1 m1 f1 E0 Hev) as [Hm Hall];
    destruct (evalComponents conns l (∅, false)) as [cs1' [m1' f1']]
  end.
  cbn in *. auto.
Qed.

(** On a well-formed grid (no two ports share a key and adders have at
    most two inputs), calling [computeColors] twice in a row yields the
    same map [portOutputs] both times: the second call starts from the
    held colours the first call left, replays its first round to the same
    map and the same held colours, and goes on as the first call did. *)
Lemma recompute_idempotent_wellFormed (st : state) :
  wellFormed (components st) ->
  snd (computeColors (fst (computeColors st))) = snd (computeColors st).
Proof.
  intros Hwf.
  destruct (computeColors_terminates st) as (rA & HexA & _ & _ & ->).
  cbn [fst snd].
  set (st2 := set_components st (ls_components rA)).
  destruct (computeColors_terminates st2) as (rB & HexB & _ & _ & ->).
  cbn [snd].
  destruct (second_first_round st rA Hwf HexA) as [Hm Hcs]. fold st2 in Hm, Hcs.
  rewrite exitLoop_eq in HexA, HexB.
  change (connections st2) with (connections st) in *.
  set (conns := connections st) in *.
  set (s1 := round conns (enterLoop st)) in *.
  set (s1' := round conns (enterLoop st2)) in *.
  assert (guard s1 = guard s1') as Hg by (unfold s1, s1'; rewrite !guard_round; reflexivity).
  destruct (changed s1) eqn:C1, (changed s1') eqn:C1'.
  - (* both first rounds changed something *)
    symmetry. eapply (while_cong conns 7 s1 s1'); eauto; congruence.
  - (* only the first round of the first call changed something: the map
       is empty and the second round of the first call changes nothing *)
    rewrite while_eq, C1' in HexB. cbn in HexB. injection HexB as <-.
    destruct (round_quiet conns (enterLoop st2) C1') as [Hm2 Hcs2].
    fold s1' in Hm2, Hcs2. cbn [enterLoop portOutputs ls_components st2
                                set_components components] in Hm2, Hcs2.
    assert (Forall2 sameHeld (ls_components s1) (ls_components (enterLoop st2)))
      as Hcs3.
    { eapply Forall2_sameHeld_trans; [exact Hcs|].
      apply Forall2_sameHeld_sym. exact Hcs2. }
    assert (portOutputs s1 = portOutputs (enterLoop st2)) as Hm3
      by (rewrite <- Hm, Hm2; reflexivity).
    destruct (round_cong conns s1 (enterLoop st2) Hcs3 Hm3) as (_ & Hm4 & Hc4).
    fold s1' in Hm4, Hc4.
    rewrite while_eq, C1 in HexA.
    assert (guard s1 = 1) as Hg1 by (unfold s1; rewrite guard_round; reflexivity).
    rewrite Hg1 in HexA. cbn [andb Nat.ltb Nat.leb] in HexA.
    rewrite while_eq, Hc4, C1' in HexA. cbn in HexA. injection HexA as <-.
    symmetry. exact Hm4.
  - (* only the first round of the second call changed something: the
       first call stopped after its first round, and the second call
       starts from what it left *)
    exfalso.
    rewrite while_eq, C1 in HexA. cbn in HexA. injection HexA as <-.
    destruct (round_quiet conns (enterLoop st) C1) as [_ Hcs2].
    fold s1 in Hcs2.
    assert (portOutputs (enterLoop st) = portOutputs (enterLoop st2)) as Hm3
      by reflexivity.
    destruct (round_cong conns (enterLoop st) (enterLoop st2) Hcs2 Hm3)
      as (_ & _ & Hc4).
    fold s1 s1' in Hc4. congruence.
  - symmetry. eapply (while_cong conns 7 s1 s1'); eauto; congruence.
Qed.

(* ================================================================== *)
(** ** The identifiers [nextId] makes                                  *)
(* ================================================================== *)

Lemma noColon_app s t : noColon (s +:+ t) = noColon s && noColon t.
Proof.
  induction s as [|a s IH]; [reflexivity|].
  change (negb (Ascii.eqb a ":"%char) && noColon (s +:+ t)
          = negb (Ascii.eqb a ":"%char) && noColon s && noColon t).
  rewrite IH, andb_assoc. reflexivity.
Qed.

Lemma noColon_pretty_N_char x : Ascii.eqb (pretty_N_char x) ":"%char = false.
Proof. unfold pretty_N_char. repeat case_match; reflexivity. Qed.

Lemma noColon_pretty_N_go x :
  forall s, noColon s = true -> noColon (pretty_N_go x s) = true.
Proof.
  induction (N.lt_wf_0 x) as [x _ IH]; intros s Hs.
  destruct (decide (x = 0%N)) as [->|Hx]; [exact Hs|].
  rewrite pretty_N_go_step by lia. apply IH.
  - apply N.div_lt; lia.
  - cbn. rewrite noColon_pretty_N_char, Hs. reflexivity.
Qed.

Lemma noColon_pretty (n : N) : noColon (pretty n) = true.
Proof.
  unfold pretty, pretty_N. case_decide; [reflexivity|].
  apply noColon_pretty_N_go. reflexivity.
Qed.

(** Two strings without colon followed by a colon and a rest are equal
    only part by part. *)
Lemma split_colon a b x y :
  noColon a = true -> noColon b = true ->
  a +:+ ":" +:+ x = b +:+ ":" +:+ y -> a = b /\ x = y.
Proof.
  assert (forall s, "" +:+ s = s) as Hnil by reflexivity.
  assert (forall c s t, String c s +:+ t = String c (s +:+ t)) as Hcons
    by reflexivity.
  revert b. induction a as [|c a IH]; intros [|d b] Ha Hb H;
    repeat (first [rewrite Hnil in H | rewrite Hcons in H]); cbn in Ha, Hb.
  - injection H as ->. auto.
  - injection H as <- _. discriminate.
  - injection H as -> _. discriminate.
  - injection H as -> H.
    apply andb_true_iff in Ha as [_ Ha], Hb as [_ Hb].
    destruct (IH b Ha Hb H) as [-> ->]. auto.
Qed.

Lemma keyOf_inj c d p q :
  noColon (comp_id c) = true -> noColon (comp_id d) = true ->
  keyOf c p = keyOf d q -> port_id p = port_id q.
Proof.
  intros Hc Hd H. unfold keyOf, portKey in H. cbn in H.
  apply (split_colon _ _ _ _ Hc Hd) in H as [_ H]. exact H.
Qed.

Lemma elem_of_allPortIds pid cs :
  pid ∈ allPortIds cs <-> exists c, c ∈ cs /\ pid ∈ portIdsOf c.
Proof.
  unfold allPortIds. rewrite list_elem_of_In, in_flat_map.
  split; intros (c & H1 & H2); exists c;
    rewrite ?list_elem_of_In in *; auto.
Qed.

(** Distinct port ids under component ids without colon give distinct
    keys. *)
Lemma allKeys_NoDup cs :
  Forall (fun c => noColon (comp_id c) = true) cs ->
  NoDup (allPortIds cs) -> NoDup (allKeys cs).
Proof.
  induction cs as [|c cs IH]; intros Hno Hnd; [constructor|].
  inversion Hno as [|? ? Hc Hcs]; subst.
  change (NoDup (portIdsOf c ++ allPortIds cs)) in Hnd.
  change (NoDup (keysOf c ++ allKeys cs)).
  apply NoDup_app in Hnd as (Hndc & Hdis & Hndcs).
  apply NoDup_app. split; [|split; [|auto]].
  - unfold keysOf, portIdsOf in *. clear -Hndc Hc.
    induction (comp_ports c) as [|p ps IHp]; cbn in *; [constructor|].
    apply NoDup_cons in Hndc as [Hp Hndc]. apply NoDup_cons. split; [|auto].
    intros Hin. apply elem_of_map in Hin as (q & Hk & Hq).
    apply Hp. rewrite (keyOf_inj c c p q Hc Hc Hk). apply elem_of_map. eauto.
  - intros k Hk Hk'. apply elem_of_map in Hk as (p & -> & Hp).
    apply elem_of_allKeys in Hk' as (d & Hd & Hkd).
    apply elem_of_map in Hkd as (q & Hk & Hq).
    rewrite Forall_forall in Hcs.
    apply (Hdis (port_id p)).
    + apply elem_of_map. eauto.
    + rewrite (keyOf_inj c d p q Hc (Hcs d Hd) Hk).
      apply elem_of_allPortIds. exists d. split; [exact Hd|].
      apply elem_of_map. eauto.
Qed.

Lemma idsOn_wellFormed cs hi : idsOn cs hi -> wellFormed cs.
Proof.
  intros (Hno & Hnd & _ & Htwo). split; [|exact Htwo].
  apply allKeys_NoDup; assumption.
Qed.

Lemma made_inj (k k' : N) : "p-" +:+ pretty k = "p-" +:+ pretty k' -> k = k'.
Proof. intros [= H]. apply pretty_N_inj. exact H. Qed.

Lemma allPortIds_app cs ds : allPortIds (cs ++ ds) = allPortIds cs ++ allPortIds ds.
Proof. unfold allPortIds. apply flat_map_app. Qed.

Lemma sameShape_portIdsOf c c' : sameShape c c' -> portIdsOf c' = portIdsOf c.
Proof. intros (_ & _ & _ & Hp & _). unfold portIdsOf. rewrite Hp. reflexivity. Qed.

Lemma idsOn_shape cs cs' hi : Forall2 sameShape cs cs' -> idsOn cs hi -> idsOn cs' hi.
Proof.
  intros Hsh (Hno & Hnd & Hmade & Htwo).
  assert (allPortIds cs' = allPortIds cs) as Hids.
  { clear -Hsh. induction Hsh as [|c c' cs cs' Hc _ IH]; [reflexivity|].
    change (portIdsOf c' ++ allPortIds cs' = portIdsOf c ++ allPortIds cs).
    rewrite IH, (sameShape_portIdsOf _ _ Hc). reflexivity. }
  unfold idsOn. rewrite Hids. repeat split; auto.
  - clear -Hsh Hno. induction Hsh as [|c c' cs cs' Hc _ IH]; [constructor|].
    inversion Hno; subst. constructor; auto.
    destruct Hc as (-> & _). assumption.
  - eapply Forall2_sameShape_twoInputs; eauto.
Qed.

Lemma idsOn_mono cs hi hi' : (hi <= hi')%N -> idsOn cs hi -> idsOn cs hi'.
Proof.
  intros Hle (Hno & Hnd & Hmade & Htwo). repeat split; auto.
  eapply Forall_impl; [exact Hmade|]. intros pid (k & -> & Hk).
  exists k. split; [reflexivity|lia].
Qed.

Lemma allPortIds_sublist cs' cs : sublist cs' cs -> sublist (allPortIds cs') (allPortIds cs).
Proof.
  induction 1 as [|c cs' cs _ IH|c cs' cs _ IH]; [constructor| |].
  - change (sublist (portIdsOf c ++ allPortIds cs') (portIdsOf c ++ allPortIds cs)).
    apply sublist_app; [reflexivity|exact IH].
  - change (sublist (allPortIds cs') (portIdsOf c ++ allPortIds cs)).
    apply sublist_inserts_l. exact IH.
Qed.

Lemma Forall_sublist {A} (P : A -> Prop) (l k : list A) :
  sublist l k -> Forall P k -> Forall P l.
Proof.
  induction 1 as [|x l k _ IH|x l k _ IH]; intros HP; [constructor| |];
    inversion HP; subst; [constructor|]; auto.
Qed.

Lemma idsOn_sublist cs' cs hi : sublist cs' cs -> idsOn cs hi -> idsOn cs' hi.
Proof.
  intros Hsub (Hno & Hnd & Hmade & Htwo).
  pose proof (allPortIds_sublist _ _ Hsub) as Hsub'.
  repeat split.
  - eapply Forall_sublist; eauto.
  - eapply sublist_NoDup; eauto.
  - eapply Forall_sublist; eauto.
  - eapply Forall_sublist; eauto.
Qed.

Lemma spliceFirst_sublist cid cs : sublist (spliceFirst cid cs) cs.
Proof.
  induction cs as [|c cs IH]; cbn; [constructor|].
  case_bool_decide; [apply sublist_cons; reflexivity|].
  apply sublist_skip. exact IH.
Qed.

(** A component with fresh port ids joins the grid. *)
Lemma idsOn_snoc cs c hi hi' :
  idsOn cs hi -> (hi <= hi')%N ->
  noColon (comp_id c) = true -> NoDup (portIdsOf c) ->
  Forall (madeWithin hi hi') (portIdsOf c) -> twoInputs c ->
  idsOn (cs ++ [c]) hi'.
Proof.
  intros (Hno & Hnd & Hmade & Htwo) Hle Hc Hndc Hmadec Htwoc.
  unfold idsOn. rewrite allPortIds_app. cbn. rewrite app_nil_r.
  rewrite Forall_forall in Hmade, Hmadec.
  repeat split.
  - apply Forall_app. split; [exact Hno|]. constructor; [exact Hc|constructor].
  - apply NoDup_app. split; [exact Hnd|]. split; [|exact Hndc].
    intros pid Hold Hnew.
    destruct (Hmade pid Hold) as (k & -> & Hk).
    destruct (Hmadec _ Hnew) as (k' & Heq & Hk').
    apply made_inj in Heq. lia.
  - apply Forall_app. split; apply Forall_forall; intros pid Hpid.
    + destruct (Hmade pid Hpid) as (k & -> & Hk). exists k. split; [reflexivity|lia].
    + destruct (Hmadec pid Hpid) as (k & -> & Hk). exists k. split; [reflexivity|lia].
  - apply Forall_app. split; [exact Htwo|]. constructor; [exact Htwoc|constructor].
Qed.

Lemma computeColors_shape st :
  Forall2 sameShape (components st) (components (fst (computeColors st))).
Proof.
  destruct (computeColors_terminates st) as (r & Hexit & _ & _ & ->).
  apply exitLoop_rounds in Hexit as [n ->]. cbn [fst set_components components].
  eapply Forall2_sameShape_trans; [|apply round_shape].
  apply (rounds_shape (connections st) n (enterLoop st)).
Qed.

Lemma computeColors_idsInv st : idsInv st -> idsInv (fst (computeColors st)).
Proof.
  unfold idsInv. rewrite computeColors_idCounter.
  apply idsOn_shape, computeColors_shape.
Qed.

Lemma addPort_eq role c st :
  addPort role (c, st)
  = (push_port c {| port_id := "p-" +:+ pretty (idCounter st + 1)%N;
                    port_role := role |},
     {| components := components st; connections := connections st;
        selectedPort := selectedPort st; idCounter := (idCounter st + 1)%N |}).
Proof. reflexivity. Qed.

Lemma addPort_freshPorts lo role cst :
  freshPorts lo cst -> freshPorts lo (addPort role cst).
Proof.
  destruct cst as [c st]. rewrite addPort_eq. unfold freshPorts, portIdsOf.
  cbn [fst snd push_port comp_ports idCounter].
  intros (Hnd & Hmade & Hlo). rewrite map_app. cbn [List.map port_id].
  rewrite Forall_forall in Hmade. repeat split.
  - apply NoDup_app. split; [exact Hnd|]. split; [|apply NoDup_singleton].
    intros pid Hold Hnew. apply list_elem_of_singleton in Hnew.
    destruct (Hmade pid Hold) as (k & -> & Hk).
    apply made_inj in Hnew. lia.
  - apply Forall_app. split.
    + apply Forall_forall. intros pid Hpid.
      destruct (Hmade pid Hpid) as (k & -> & Hk).
      exists k. split; [reflexivity|lia].
    + constructor; [|constructor]. eexists. split; [reflexivity|lia].
  - lia.
Qed.

Lemma addPort_keeps role cst :
  comp_id (fst (addPort role cst)) = comp_id (fst cst)
  /\ comp_type (fst (addPort role cst)) = comp_type (fst cst)
  /\ components (snd (addPort role cst)) = components (snd cst)
  /\ List.map port_role (comp_ports (fst (addPort role cst)))
     = List.map port_role (comp_ports (fst cst)) ++ [role].
Proof.
  destruct cst as [c st]. rewrite addPort_eq. cbn. rewrite map_app. auto.
Qed.

Lemma buildPorts_freshPorts lo cst :
  freshPorts lo cst -> freshPorts lo (buildPorts cst).
Proof.
  intros H. unfold buildPorts.
  destruct (comp_type (fst cst)); repeat apply addPort_freshPorts; exact H.
Qed.

Lemma buildPorts_keeps cst :
  comp_id (fst (buildPorts cst)) = comp_id (fst cst)
  /\ comp_type (fst (buildPorts cst)) = comp_type (fst cst)
  /\ components (snd (buildPorts cst)) = components (snd cst)
  /\ List.map port_role (comp_ports (fst (buildPorts cst)))
     = List.map port_role (comp_ports (fst cst))
       ++ match comp_type (fst cst) with
          | factory => [output; output; output; output]
          | adder => [input; input; output]
          | gradientor => [input; output]
          | storage => [flex; flex; flex; flex; flex; flex]
          end.
Proof.
  unfold buildPorts. destruct (comp_type (fst cst)) eqn:T;
    repeat match goal with
           | |- context [addPort ?r ?x] =>
               lazymatch x with
               | context [addPort _ _] => fail
               | _ => let H := fresh in
                      pose proof (addPort_keeps r x) as (H & ? & ? & ?);
                      generalize dependent (addPort r x); intros
               end
           end;
    repeat split; try congruence.
  all: repeat match goal with H : List.map port_role _ = _ |- _ =>
                rewrite H; clear H end;
       rewrite <- ?app_assoc; reflexivity.
Qed.

Lemma length_inputsOf c :
  length (inputsOf c)
  = length (filter (fun r => r = input) (List.map port_role (comp_ports c))).
Proof.
  unfold inputsOf. induction (comp_ports c) as [|[pid r] ps IH]; [reflexivity|].
  cbn [List.map port_role].
  destruct (decide (r = input)) as [->|Hr].
  - rewrite (filter_cons_True (fun p => hasRole input p)) by (vm_compute; exact I).
    rewrite (filter_cons_True (fun r => r = input)) by reflexivity.
    cbn [length]. rewrite IH. reflexivity.
  - rewrite (filter_cons_False (fun p => hasRole input p))
      by (destruct r; [congruence|vm_compute; auto..]).
    rewrite (filter_cons_False (fun r => r = input)) by exact Hr.
    exact IH.
Qed.

Lemma createComponent_idsInv type o st :
  idsInv st -> idsInv (snd (createComponent type o st)).
Proof.
  unfold idsInv, createComponent. intros H.
  set (c0 := {| comp_id := "c" +:+ "-" +:+ pretty (idCounter st + 1)%N;
                comp_type := type; comp_color := opt_color o;
                comp_ports := [];
                comp_storageSlots :=
                  match type with storage => Some ∅ | _ => None end;
                comp_mode := opt_mode o |}).
  set (st0 := {| components := components st; connections := connections st;
                 selectedPort := selectedPort st;
                 idCounter := (idCounter st + 1)%N |}).
  change (nextId "c" st) with ("c" +:+ "-" +:+ pretty (idCounter st + 1)%N, st0).
  cbv beta iota. fold c0.
  assert (freshPorts (idCounter st) (c0, st0)) as Hfresh.
  { unfold freshPorts. cbn. repeat split; [constructor|constructor|lia]. }
  apply buildPorts_freshPorts in Hfresh.
  destruct (buildPorts_keeps (c0, st0)) as (Hid & Hty & Hcs & Hroles).
  destruct (buildPorts (c0, st0)) as [c st1]. cbn [fst snd] in *.
  destruct Hfresh as (Hnd & Hmade & Hlo).
  rewrite Hcs. apply (idsOn_snoc _ _ (idCounter st)); auto.
  - rewrite Hid.
    change (noColon ("c-" +:+ pretty (idCounter st + 1)%N) = true).
    rewrite noColon_app, noColon_pretty. reflexivity.
  - intros T. rewrite length_inputsOf, Hroles. rewrite Hty in T.
    subst c0. cbn [comp_type comp_ports List.map app] in *. rewrite T.
    rewrite (filter_cons_True (fun r => r = input)) by reflexivity.
    rewrite (filter_cons_True (fun r => r = input)) by reflexivity.
    rewrite (filter_cons_False (fun r => r = input)) by discriminate.
    cbn. lia.
Qed.

Lemma tryConnect_idsInv a b st : idsInv st -> idsInv (snd (tryConnect a b st)).
Proof.
  intros H. unfold tryConnect.
  case_bool_decide; [exact H|].
  destruct (resolveConnection st a b) as [[f t]|]; [|exact H].
  destruct (connectionExists st f t); [exact H|].
  cbn. apply computeColors_idsInv.
  unfold idsInv in *. cbn. eapply idsOn_mono; [|exact H]. lia.
Qed.

Lemma removeComponent_idsInv cid st : idsInv st -> idsInv (removeComponent cid st).
Proof.
  unfold idsInv, removeComponent. cbn. intros H.
  assert (forall s, idsOn (components s) (idCounter s) ->
            idsOn (spliceFirst cid (components s)) (idCounter s)) as Hs
    by (intros s; apply idsOn_sublist, spliceFirst_sublist).
  destruct (selectedPort st); [case_bool_decide|]; apply Hs; exact H.
Qed.

(** Every operation keeps the identifiers as [nextId] makes them. *)
Lemma perform_idsInv a st : idsInv st -> idsInv (perform a st).
Proof.
  intros H. destruct a as [type o|ref|first second|cid| |]; cbn [perform].
  - apply createComponent_idsInv, H.
  - unfold handlePortClick. destruct (selectedPort st); [|exact H].
    apply tryConnect_idsInv, H.
  - apply tryConnect_idsInv, H.
  - unfold deleteComponent. destruct (findComponent st cid); [|exact H].
    apply computeColors_idsInv, removeComponent_idsInv, H.
  - unfold resetGrid. apply computeColors_idsInv.
    unfold idsInv, idsOn. cbn. repeat split; constructor.
  - apply computeColors_idsInv, H.
Qed.

(** The grids the operations build are well formed. *)
Lemma reachable_wellFormed st : reachable st -> wellFormed (components st).
Proof.
  intros H. apply (idsOn_wellFormed _ (idCounter st)).
  induction H as [|a st _ IH].
  - unfold idsOn. cbn. repeat split; constructor.
  - apply perform_idsInv, IH.
Qed.

(* ================================================================== *)
(** ** The fixed point on the grids the operations build               *)
(* ================================================================== *)

Lemma exitLoop_loopInv st r :
  wellFormed (components st) -> exitLoop st = Some r ->
  loopInv (connections st) r.
Proof.
  intros Hwf Hexit. rewrite exitLoop_eq in Hexit.
  apply while_rounds in Hexit as [n ->].
  apply rounds_loopInv, round_enter, Hwf.
Qed.

(** C9. In every state the operations reach, calling [computeColors]
    twice in a row, with nothing in between, yields the same map
    [portOutputs] both times. *)
Theorem recompute_idempotent (st : state) :
  reachable st ->
  snd (computeColors (fst (computeColors st))) = snd (computeColors st).
Proof.
  intros H. apply recompute_idempotent_wellFormed, reachable_wellFormed, H.
Qed.


(* ================================================================== *)
(** ** The operations, step by step                                    *)
(* ================================================================== *)

Lemma portsFrom_app n rs r :
  portsFrom n (rs ++ [r])
  = portsFrom n rs
    ++ [ {| port_id := "p-" +:+ pretty (n + N.of_nat (length rs) + 1)%N;
            port_role := r |} ].
Proof.
  revert n. induction rs as [|r0 rs IH]; intros n; cbn [portsFrom app length].
  - rewrite N.add_0_r. reflexivity.
  - rewrite IH. do 3 f_equal.
    replace (n + 1 + N.of_nat (length rs) + 1)%N
      with (n + N.of_nat (S (length rs)) + 1)%N by lia.
    reflexivity.
Qed.

(** [createComponent] appends one component: its id is made from the
    next counter value, its ports are numbered from there on with the
    roles of its type, the other components and the connections stay,
    and the counter moves past the ids handed out. *)
Lemma createComponent_eq type o st :
  createComponent type o st =
  let c := {| comp_id := "c-" +:+ pretty (idCounter st + 1)%N;
              comp_type := type; comp_color := opt_color o;
              comp_ports := portsFrom (idCounter st + 1) (layout type);
              comp_storageSlots :=
                match type with storage => Some ∅ | _ => None end;
              comp_mode := opt_mode o |} in
  (c, {| components := components st ++ [c]; connections := connections st;
         selectedPort := selectedPort st;
         idCounter := (idCounter st + 1 + N.of_nat (length (layout type)))%N |}).
Proof.
  unfold createComponent, nextId.
  destruct type; cbn [buildPorts fst comp_type];
    repeat (rewrite addPort_eq; cbn [components connections selectedPort
                                      idCounter]);
    cbv beta iota zeta delta
      [push_port set_components comp_id comp_type comp_color comp_ports
       comp_storageSlots comp_mode app components connections selectedPort
       idCounter layout portsFrom length];
    (apply f_equal2; [reflexivity|f_equal; lia]).
Qed.

(** What the second click does: nothing but dropping the selection, or
    a connection is accepted, pushed, and the colours recomputed. *)
Lemma tryConnect_cases a b st :
  tryConnect a b st = (None, clearSelection st)
  \/ exists conn,
       accepts st a b conn
       /\ tryConnect a b st = (Some conn, fst (computeColors (linked conn st))).
Proof.
  unfold tryConnect.
  destruct (bool_decide (componentId a = componentId b)) eqn:Hab; [left; reflexivity|].
  apply bool_decide_eq_false in Hab.
  destruct (resolveConnection st a b) as [[from to]|] eqn:Hres; [|left; reflexivity].
  destruct (connectionExists st from to) eqn:Hex; [left; reflexivity|].
  right.
  exists {| conn_id := "link-" +:+ pretty (idCounter st + 1)%N;
            conn_from := from; conn_to := to |}.
  split; [repeat split; assumption|reflexivity].
Qed.

(** The loop of [computeColors] stops, converged or at its cap, and the
    state and the map returned are those of its exit. *)
Lemma exitLoop_stops st :
  exists r,
    exitLoop st = Some r
    /\ (changed r = false \/ guard r = 8)
    /\ computeColors st = (set_components st (ls_components r), portOutputs r).
Proof.
  destruct (while_exits (connections st) 8 (enterLoop st))
    as (r & Hr & _ & Hstop); cbn [enterLoop guard]; try lia.
  exists r. unfold exitLoop, computeColors. rewrite Hr. auto.
Qed.

Section Operations.

(** A property of the state that every step of every operation keeps
    holds in every state the operations reach. *)
Variable P : state -> Prop.

Hypothesis P_init : P init.
Hypothesis P_create : forall type o st, P st -> P (snd (createComponent type o st)).
Hypothesis P_select : forall ref st, P st -> P (select ref st).
Hypothesis P_clear : forall st, P st -> P (clearSelection st).
Hypothesis P_linked :
  forall a b conn st, P st -> accepts st a b conn -> P (linked conn st).
Hypothesis P_remove : forall cid st, P st -> P (removeComponent cid st).
Hypothesis P_emptied : forall st, P st -> P (emptied st).
Hypothesis P_compute : forall st, P st -> P (fst (computeColors st)).

Lemma tryConnect_ops a b st : P st -> P (snd (tryConnect a b st)).
Proof using P_clear P_linked P_compute.
  intros H. destruct (tryConnect_cases a b st) as [->|(conn & Hacc & ->)].
  - apply P_clear, H.
  - cbn [snd]. eapply P_compute, P_linked; eassumption.
Qed.

Lemma perform_ops a st : P st -> P (perform a st).
Proof using P_create P_select P_clear P_linked P_remove P_emptied P_compute.
  intros H. destruct a as [type o|ref|first second|cid| |]; cbn [perform].
  - apply P_create, H.
  - unfold handlePortClick. destruct (selectedPort st) as [sel|].
    + apply tryConnect_ops, H.
    + apply (P_select ref), H.
  - apply tryConnect_ops, H.
  - unfold deleteComponent. destruct (findComponent st cid); [|exact H].
    apply P_compute, P_remove, H.
  - apply P_compute, (P_emptied st), H.
  - apply P_compute, H.
Qed.

Lemma reachable_ops st : reachable st -> P st.
Proof using All.
  induction 1 as [|a st _ IH]; [exact P_init|apply perform_ops, IH].
Qed.

End Operations.

(* ================================================================== *)
(** ** Identifiers of components and connections                       *)
(* ================================================================== *)

Lemma madeBy_inj prefix (k k' : N) :
  prefix +:+ "-" +:+ pretty k = prefix +:+ "-" +:+ pretty k' -> k = k'.
Proof.
  induction prefix as [|a prefix IH].
  - intros [= H]. apply pretty_N_inj. exact H.
  - intros [= H]. apply IH. exact H.
Qed.

Lemma idsMade_nil prefix hi : idsMade prefix hi [].
Proof. split; constructor. Qed.

Lemma idsMade_mono prefix hi hi' ids :
  (hi <= hi')%N -> idsMade prefix hi ids -> idsMade prefix hi' ids.
Proof.
  intros Hle [Hmade Hnd]. split; [|exact Hnd].
  eapply Forall_impl; [exact Hmade|].
  intros id (k & -> & Hk). exists k. split; [reflexivity|lia].
Qed.

Lemma idsMade_sublist prefix hi ids ids' :
  sublist ids' ids -> idsMade prefix hi ids -> idsMade prefix hi ids'.
Proof.
  intros Hsub [Hmade Hnd]. split.
  - eapply Forall_sublist; eassumption.
  - eapply sublist_NoDup; eassumption.
Qed.

(** The identifier made from the next counter value is new. *)
Lemma idsMade_snoc prefix hi hi' ids :
  (hi + 1 <= hi')%N -> idsMade prefix hi ids ->
  idsMade prefix hi' (ids ++ [prefix +:+ "-" +:+ pretty (hi + 1)%N]).
Proof.
  intros Hle [Hmade Hnd]. split.
  - apply Forall_app. split.
    + eapply Forall_impl; [exact Hmade|].
      intros id (k & -> & Hk). exists k. split; [reflexivity|lia].
    + constructor; [|constructor]. exists (hi + 1)%N. split; [reflexivity|lia].
  - apply NoDup_app. split; [exact Hnd|]. split; [|apply NoDup_singleton].
    intros id Hin Hnew. apply list_elem_of_singleton in Hnew. subst id.
    rewrite Forall_forall in Hmade. destruct (Hmade _ Hin) as (k & Hk & Hle').
    apply madeBy_inj in Hk. lia.
Qed.

Lemma sublist_map {A B} (f : A -> B) (l k : list A) :
  sublist l k -> sublist (List.map f l) (List.map f k).
Proof.
  induction 1; cbn; [constructor|apply sublist_skip|apply sublist_cons]; assumption.
Qed.

Lemma Forall2_sameShape_ids cs cs' :
  Forall2 sameShape cs cs' -> List.map comp_id cs' = List.map comp_id cs.
Proof.
  induction 1 as [|c c' cs cs' (Hid & _) _ IH]; [reflexivity|].
  cbn. rewrite Hid, IH. reflexivity.
Qed.

Lemma removeComponent_idCounter cid st :
  idCounter (removeComponent cid st) = idCounter st.
Proof.
  unfold removeComponent. destruct (selectedPort st) as [sel|];
    [destruct (bool_decide _)|]; reflexivity.
Qed.

Lemma removeComponent_selectedPort cid st :
  selectedPort (removeComponent cid st)
  = match selectedPort st with
    | Some sel => if bool_decide (componentId sel = cid) then None else Some sel
    | None => None
    end.
Proof.
  unfold removeComponent. destruct (selectedPort st) as [sel|] eqn:Hs;
    [destruct (bool_decide _)|]; cbn; try rewrite Hs; reflexivity.
Qed.

Lemma removeComponent_components cid st :
  components (removeComponent cid st) = spliceFirst cid (components st).
Proof.
  unfold removeComponent. destruct (selectedPort st) as [sel|];
    [destruct (bool_decide _)|]; reflexivity.
Qed.

Lemma removeComponent_conns cid st :
  connections (removeComponent cid st)
  = filter (fun conn =>
              negb (bool_decide (componentId (conn_from conn) = cid))
              && negb (bool_decide (componentId (conn_to conn) = cid)))
      (connections st).
Proof.
  unfold removeComponent. destruct (selectedPort st) as [sel|];
    [destruct (bool_decide _)|]; reflexivity.
Qed.

(** The ids of the components, in every state the operations reach. *)
Lemma reachable_compIds st :
  reachable st ->
  idsMade "c" (idCounter st) (List.map comp_id (components st)).
Proof.
  revert st.
  apply (reachable_ops
           (fun st => idsMade "c" (idCounter st) (List.map comp_id (components st)))).
  - apply idsMade_nil.
  - intros type o st H. rewrite createComponent_eq. cbn [snd components idCounter].
    rewrite map_app. cbn [List.map comp_id].
    apply (idsMade_snoc "c"); [lia|exact H].
  - intros ref st H. exact H.
  - intros st H. exact H.
  - intros a b conn st H _. cbn [linked components idCounter].
    eapply idsMade_mono; [|exact H]. lia.
  - intros cid st H.
    rewrite removeComponent_idCounter, removeComponent_components.
    eapply idsMade_sublist; [|exact H].
    apply sublist_map, spliceFirst_sublist.
  - intros st _. apply idsMade_nil.
  - intros st H. rewrite computeColors_idCounter.
    rewrite (Forall2_sameShape_ids _ _ (computeColors_shape st)). exact H.
Qed.

(** The ids of the connections, in every state the operations reach. *)
Lemma reachable_linkIds st :
  reachable st ->
  idsMade "link" (idCounter st) (List.map conn_id (connections st)).
Proof.
  revert st.
  apply (reachable_ops
           (fun st => idsMade "link" (idCounter st)
                        (List.map conn_id (connections st)))).
  - apply idsMade_nil.
  - intros type o st H. rewrite createComponent_eq. cbn [snd connections idCounter].
    eapply idsMade_mono; [|exact H]. lia.
  - intros ref st H. exact H.
  - intros st H. exact H.
  - intros a b conn st H (_ & _ & _ & Hid). cbn [linked connections idCounter].
    rewrite map_app. cbn [List.map]. rewrite Hid.
    apply (idsMade_snoc "link"); [lia|exact H].
  - intros cid st H. rewrite removeComponent_idCounter.
    eapply idsMade_sublist; [|exact H].
    apply sublist_map, removeComponent_connections.
  - intros st _. apply idsMade_nil.
  - intros st H. rewrite computeColors_idCounter, computeColors_connections.
    exact H.
Qed.

(* ================================================================== *)
(** ** What [computeColors] keeps of every component                   *)
(* ================================================================== *)

Section Along.

(** A relation between a component and a later version of it that one
    evaluation establishes holds between the components before and after
    [computeColors]. *)
Variable R : component -> component -> Prop.

Hypothesis R_refl : forall c, R c c.
Hypothesis R_trans : forall a b c, R a b -> R b c -> R a c.
Hypothesis R_eval : forall conns c acc, R c (fst (evalComponent conns c acc)).

Lemma evalComponents_along conns cs :
  forall acc, Forall2 R cs (fst (evalComponents conns cs acc)).
Proof using R_eval.
  induction cs as [|c cs IH]; intros acc; cbn; [constructor|].
  pose proof (R_eval conns c acc) as Hc.
  destruct (evalComponent conns c acc) as [c1 acc1].
  specialize (IH acc1). destruct (evalComponents conns cs acc1) as [cs1 acc2].
  constructor; assumption.
Qed.

Lemma Forall2_along_trans l1 l2 l3 :
  Forall2 R l1 l2 -> Forall2 R l2 l3 -> Forall2 R l1 l3.
Proof using R_trans.
  intros H. revert l3. induction H; intros l3 H3; inversion H3; subst;
    constructor; eauto.
Qed.

Lemma round_along conns s :
  Forall2 R (ls_components s) (ls_components (round conns s)).
Proof using R_eval.
  unfold round.
  pose proof (evalComponents_along conns (ls_components s) (portOutputs s, false)).
  destruct (evalComponents _ _ _) as [cs [m ch]]. assumption.
Qed.

Lemma rounds_along conns n s :
  Forall2 R (ls_components s) (ls_components (Nat.iter n (round conns) s)).
Proof using All.
  induction n as [|n IH]; cbn.
  - induction (ls_components s); constructor; auto.
  - eapply Forall2_along_trans; [exact IH|apply round_along].
Qed.

Lemma computeColors_along st :
  Forall2 R (components st) (components (fst (computeColors st))).
Proof using All.
  destruct (exitLoop_stops st) as (r & Hexit & _ & ->).
  apply exitLoop_rounds in Hexit as [n ->]. cbn [fst set_components components].
  eapply Forall2_along_trans; [|apply round_along].
  apply (rounds_along (connections st) n (enterLoop st)).
Qed.

End Along.

Lemma evalComponent_storage conns c acc :
  comp_type c = storage ->
  exists s, fst (evalComponent conns c acc) = set_storageSlots c s.
Proof.
  intros T. unfold evalComponent. rewrite T.
  destruct (storeInbound _ _ _ _ _) as [s ch]. exists s. reflexivity.
Qed.

Lemma evalComponent_built conns c acc :
  built c -> built (fst (evalComponent conns c acc)).
Proof.
  intros [Hports Hslots].
  destruct (decide (comp_type c = storage)) as [T|T].
  - destruct (evalComponent_storage conns c acc T) as [s ->].
    split; [exact Hports|]. cbn [set_storageSlots comp_storageSlots comp_type].
    split; [intros _; exact T|intros _; eexists; reflexivity].
  - rewrite evalComponent_other by exact T. split; assumption.
Qed.

Lemma computeColors_built st :
  Forall built (components st) ->
  Forall built (components (fst (computeColors st))).
Proof.
  intros H.
  pose proof (computeColors_along (fun c c' => built c -> built c')) as Hal.
  specialize (Hal (fun c H => H) (fun a b c Hab Hbc H => Hbc (Hab H))
                  (fun conns c acc => evalComponent_built conns c acc) st).
  revert H. induction Hal as [|c c' cs cs' Hc _ IH]; intros H; [constructor|].
  inversion H; subst. constructor; auto.
Qed.

Lemma portsFrom_roles n roles : List.map port_role (portsFrom n roles) = roles.
Proof.
  revert n. induction roles as [|r roles IH]; intros n; cbn; [reflexivity|].
  rewrite IH. reflexivity.
Qed.

(** Every component of the grid has the ports of its type, and slots
    exactly when it is a storage. *)
Lemma reachable_built st : reachable st -> Forall built (components st).
Proof.
  revert st. apply (reachable_ops (fun st => Forall built (components st))).
  - constructor.
  - intros type o st H. rewrite createComponent_eq. cbn [snd components].
    apply Forall_app. split; [exact H|]. constructor; [|constructor].
    split; cbn [comp_ports comp_type comp_storageSlots].
    + apply portsFrom_roles.
    + destruct type; split; try discriminate; try reflexivity;
        try (intros [? [=]]); intros _; eexists; reflexivity.
  - intros ref st H. exact H.
  - intros st H. exact H.
  - intros a b conn st H _. exact H.
  - intros cid st H. rewrite removeComponent_components.
    eapply Forall_sublist; [apply spliceFirst_sublist|exact H].
  - intros st _. constructor.
  - intros st H. apply computeColors_built, H.
Qed.

(* ================================================================== *)
(** ** The ends of the connections                                     *)
(* ================================================================== *)

Lemma find_app_Some {A} (f : A -> bool) (l k : list A) (x : A) :
  find f l = Some x -> find f (l ++ k) = Some x.
Proof.
  induction l as [|y l IH]; cbn; [discriminate|].
  destruct (f y); [trivial|exact IH].
Qed.

Lemma getPort_components st st' ref :
  components st' = components st -> getPort st' ref = getPort st ref.
Proof. intros H. unfold getPort, findComponent. rewrite H. reflexivity. Qed.

Lemma findComponent_components st st' cid :
  components st' = components st -> findComponent st' cid = findComponent st cid.
Proof. intros H. unfold findComponent. rewrite H. reflexivity. Qed.

(** A component found before [createComponent] is found after it. *)
Lemma createComponent_findComponent type o st cid c :
  findComponent st cid = Some c ->
  findComponent (snd (createComponent type o st)) cid = Some c.
Proof.
  rewrite createComponent_eq. unfold findComponent. cbn [snd components].
  apply find_app_Some.
Qed.

Lemma createComponent_getPort type o st ref p :
  getPort st ref = Some p ->
  getPort (snd (createComponent type o st)) ref = Some p.
Proof.
  unfold getPort.
  destruct (findComponent st (componentId ref)) as [c|] eqn:Hc; [|discriminate].
  rewrite (createComponent_findComponent _ _ _ _ _ Hc). trivial.
Qed.

Lemma find_sameShape cs cs' cid :
  Forall2 sameShape cs cs' ->
  match find (fun c => bool_decide (comp_id c = cid)) cs,
        find (fun c => bool_decide (comp_id c = cid)) cs' with
  | Some c, Some c' => sameShape c c'
  | None, None => True
  | _, _ => False
  end.
Proof.
  induction 1 as [|c c' cs cs' Hc _ IH]; cbn; [exact I|].
  pose proof Hc as (Hid & _). rewrite Hid.
  destruct (bool_decide (comp_id c = cid)); [exact Hc|exact IH].
Qed.

(** Components of the same shape have the same ports under the same
    references. *)
Lemma getPort_sameShape st st' ref :
  Forall2 sameShape (components st) (components st') ->
  getPort st' ref = getPort st ref.
Proof.
  intros H. unfold getPort, findComponent.
  pose proof (find_sameShape _ _ (componentId ref) H) as Hf.
  destruct (find _ (components st)) as [c|], (find _ (components st')) as [c'|];
    try contradiction; [|reflexivity].
  destruct Hf as (_ & _ & _ & -> & _). reflexivity.
Qed.

Lemma findComponent_sameShape st st' cid c :
  Forall2 sameShape (components st) (components st') ->
  findComponent st cid = Some c ->
  exists c', findComponent st' cid = Some c' /\ sameShape c c'.
Proof.
  intros H Hc. unfold findComponent in *.
  pose proof (find_sameShape _ _ cid H) as Hf. rewrite Hc in Hf.
  destruct (find _ (components st')) as [c'|]; [|contradiction].
  exists c'. split; [reflexivity|exact Hf].
Qed.

Lemma find_spliceFirst cid cid' cs :
  cid' <> cid ->
  find (fun c => bool_decide (comp_id c = cid')) (spliceFirst cid cs)
  = find (fun c => bool_decide (comp_id c = cid')) cs.
Proof.
  intros Hne. induction cs as [|c cs IH]; [reflexivity|]. cbn.
  destruct (bool_decide (comp_id c = cid)) eqn:Hc.
  - apply bool_decide_eq_true in Hc.
    rewrite bool_decide_eq_false_2 by congruence. reflexivity.
  - cbn. rewrite IH. reflexivity.
Qed.

(** [deleteComponent] leaves the components of other ids where they
    are found. *)
Lemma removeComponent_findComponent cid st cid' :
  cid' <> cid ->
  findComponent (removeComponent cid st) cid' = findComponent st cid'.
Proof.
  intros Hne. unfold findComponent. rewrite removeComponent_components.
  apply find_spliceFirst, Hne.
Qed.

Lemma removeComponent_getPort cid st ref :
  componentId ref <> cid ->
  getPort (removeComponent cid st) ref = getPort st ref.
Proof.
  intros Hne. unfold getPort.
  rewrite removeComponent_findComponent by exact Hne. reflexivity.
Qed.

Lemma removeComponent_conn cid st conn :
  conn ∈ connections (removeComponent cid st) <->
  conn ∈ connections st
  /\ componentId (conn_from conn) <> cid /\ componentId (conn_to conn) <> cid.
Proof.
  rewrite removeComponent_conns, list_elem_of_filter.
  rewrite andb_True, !negb_True, !bool_decide_spec. tauto.
Qed.

(** An accepted connection runs between two ports of the grid on two
    components, from a port that is not an Input to a port that is not
    an Output. *)
Lemma accepts_wired st a b conn : accepts st a b conn -> wired st conn.
Proof.
  intros (Hab & Hres & _ & _). rewrite resolveConnection_eq in Hres.
  destruct (getPort st a) as [pa|] eqn:Ha; [|discriminate].
  destruct (getPort st b) as [pb|] eqn:Hb; [|discriminate].
  destruct (orientation (port_role pa) (port_role pb) a b) as [[f t]|] eqn:Ho;
    [|discriminate].
  cbv zeta in Hres. destruct (canAccept st t && canSend st f _); [|discriminate].
  injection Hres as Hf Ht. unfold wired. rewrite <- Hf, <- Ht. clear Hf Ht.
  destruct (port_role pa) eqn:Ra, (port_role pb) eqn:Rb; cbn in Ho;
    try discriminate; injection Ho as <- <-.
  all: first [ exists pa, pb; rewrite Ra, Rb; repeat split; congruence
             | exists pb, pa; rewrite Ra, Rb; repeat split; congruence ].
Qed.

Lemma wired_sameShape st st' conn :
  Forall2 sameShape (components st) (components st') ->
  wired st conn -> wired st' conn.
Proof.
  intros H (pf & pt & Hf & Ht & Hrest). exists pf, pt.
  rewrite !(getPort_sameShape _ _ _ H). auto.
Qed.

(** Both ends of every connection, in every state the operations
    reach. *)
Lemma reachable_wired st : reachable st -> Forall (wired st) (connections st).
Proof.
  revert st. apply (reachable_ops (fun st => Forall (wired st) (connections st))).
  - constructor.
  - intros type o st H. rewrite createComponent_connections.
    eapply Forall_impl; [exact H|]. intros conn (pf & pt & Hf & Ht & Hrest).
    exists pf, pt. split; [|split]; auto using createComponent_getPort.
  - intros ref st H. exact H.
  - intros st H. exact H.
  - intros a b conn st H Hacc. cbn [linked connections].
    apply Forall_app. split; [exact H|].
    constructor; [|constructor]. apply (accepts_wired _ _ _ _ Hacc).
  - intros cid st H. rewrite Forall_forall in *. intros conn Hin.
    apply removeComponent_conn in Hin as (Hin & Hf & Ht).
    destruct (H _ Hin) as (pf & pt & Hpf & Hpt & Hrest). exists pf, pt.
    rewrite !removeComponent_getPort by assumption. auto.
  - intros st _. constructor.
  - intros st H. rewrite computeColors_connections.
    eapply Forall_impl; [exact H|]. intros conn.
    apply wired_sameShape, computeColors_shape.
Qed.

(* ================================================================== *)
(** ** The sources that fan out                                        *)
(* ================================================================== *)

Lemma outDegree_app conns conns' f :
  outDegree (conns ++ conns') f = outDegree conns f + outDegree conns' f.
Proof. unfold outDegree. rewrite filter_app, length_app. reflexivity. Qed.

Lemma outDegree_one conn f :
  outDegree [conn] f = if sameRef (conn_from conn) f then 1 else 0.
Proof.
  unfold outDegree. destruct (sameRef (conn_from conn) f) eqn:H.
  - rewrite filter_cons_True by (rewrite H; exact I). reflexivity.
  - rewrite filter_cons_False by (rewrite H; exact id). reflexivity.
Qed.

Lemma outDegree_0 conns f :
  outDegree conns f = 0 <->
  existsb (fun conn => sameRef (conn_from conn) f) conns = false.
Proof.
  induction conns as [|conn conns IH]; [split; reflexivity|].
  change (conn :: conns) with ([conn] ++ conns).
  rewrite outDegree_app, outDegree_one. cbn [app existsb].
  destruct (sameRef (conn_from conn) f); cbn; [split; discriminate|exact IH].
Qed.

Lemma outDegree_sublist conns conns' f :
  sublist conns' conns -> outDegree conns' f <= outDegree conns f.
Proof.
  induction 1 as [|conn l k _ IH|conn l k _ IH]; [reflexivity| |].
  - change (conn :: l) with ([conn] ++ l). change (conn :: k) with ([conn] ++ k).
    rewrite !outDegree_app. lia.
  - change (conn :: k) with ([conn] ++ k). rewrite outDegree_app. lia.
Qed.

(** [canSend] lets a port send when it may fan out or feeds nothing
    yet. *)
Lemma canSend_true st f pf :
  canSend st f pf = true ->
  fanOutSource st f pf \/ outDegree (connections st) f = 0.
Proof.
  unfold canSend, fanOutSource.
  destruct (findComponent st (componentId f)) as [c|].
  - destruct (bool_decide (port_role pf = output)) eqn:Ro,
      (bool_decide (comp_type c = adder)) eqn:Ta,
      (bool_decide (comp_type c = gradientor)) eqn:Tg;
      cbn [andb orb]; intros H;
      try (right; apply outDegree_0, negb_true_iff, H);
      left; exists c; apply bool_decide_eq_true in Ro;
      try apply bool_decide_eq_true in Ta;
      try apply bool_decide_eq_true in Tg; auto.
  - cbn [orb]. intros H. right. apply outDegree_0, negb_true_iff, H.
Qed.

Lemma accepts_source st a b conn :
  accepts st a b conn ->
  mayFanOut st (conn_from conn) \/ outDegree (connections st) (conn_from conn) = 0.
Proof.
  intros (Hab & Hres & _ & _). rewrite resolveConnection_eq in Hres.
  destruct (getPort st a) as [pa|] eqn:Ha; [|discriminate].
  destruct (getPort st b) as [pb|] eqn:Hb; [|discriminate].
  destruct (orientation (port_role pa) (port_role pb) a b) as [[f t]|] eqn:Ho;
    [|discriminate].
  pose proof (orientation_source st a b pa pb f t Ha Hb Ho) as Hf.
  cbv zeta in Hres.
  destruct (canAccept st t); [|discriminate]. cbn [andb] in Hres.
  destruct (canSend st f _) eqn:Hsend; [|discriminate].
  injection Hres as <- _.
  destruct (canSend_true _ _ _ Hsend) as [Hfan|H0]; [left|right; exact H0].
  eexists. split; [exact Hf|exact Hfan].
Qed.

Lemma mayFanOut_sameShape st st' f :
  Forall2 sameShape (components st) (components st') ->
  mayFanOut st f -> mayFanOut st' f.
Proof.
  intros H (p & Hp & c & Hc & Ht & Hr).
  destruct (findComponent_sameShape _ _ _ _ H Hc) as (c' & Hc' & Hsh).
  exists p. split; [rewrite (getPort_sameShape _ _ _ H); exact Hp|].
  exists c'. destruct Hsh as (_ & -> & _). auto.
Qed.

(** A port that feeds more than one connection is an Output port of an
    adder or of a gradientor, in every state the operations reach. *)
Lemma reachable_fanOut st :
  reachable st ->
  forall f, outDegree (connections st) f <= 1 \/ mayFanOut st f.
Proof.
  revert st.
  apply (reachable_ops
           (fun st => forall f, outDegree (connections st) f <= 1 \/ mayFanOut st f)).
  - intros f. left. cbn. lia.
  - intros type o st H f. rewrite createComponent_connections.
    destruct (H f) as [Hle|(p & Hp & c & Hc & Ht)]; [left; exact Hle|right].
    exists p. split; [apply createComponent_getPort, Hp|].
    exists c. split; [apply createComponent_findComponent, Hc|exact Ht].
  - intros ref st H. exact H.
  - intros st H. exact H.
  - intros a b conn st H Hacc f. cbn [linked connections].
    rewrite outDegree_app, outDegree_one.
    assert (forall g, mayFanOut st g -> mayFanOut (linked conn st) g) as Hkeep.
    { intros g (p & Hp & c & Hc & Ht). exists p. split; [exact Hp|].
      exists c. split; [exact Hc|exact Ht]. }
    destruct (sameRef (conn_from conn) f) eqn:Hf.
    + apply sameRef_true in Hf. subst f.
      destruct (accepts_source _ _ _ _ Hacc) as [Hfan|H0].
      * right. apply Hkeep, Hfan.
      * left. lia.
    + destruct (H f) as [Hle|Hfan]; [left; lia|right; apply Hkeep, Hfan].
  - intros cid st H f.
    pose proof (outDegree_sublist _ _ f (removeComponent_connections cid st)) as Hsub.
    destruct (H f) as [Hle|(p & Hp & c & Hc & Ht)]; [left; lia|].
    destruct (decide (componentId f = cid)) as [Hcid|Hcid].
    + left. enough (outDegree (connections (removeComponent cid st)) f = 0) by lia.
      apply outDegree_0, not_true_is_false. intros Hex.
      apply existsb_exists in Hex as (conn & Hin & Hsame).
      apply list_elem_of_In, removeComponent_conn in Hin as (_ & Hfrom & _).
      apply sameRef_true in Hsame. congruence.
    + right. exists p. split; [rewrite removeComponent_getPort; assumption|].
      exists c. split; [rewrite removeComponent_findComponent; assumption|exact Ht].
  - intros st _ f. left. cbn. lia.
  - intros st H f. rewrite computeColors_connections.
    destruct (H f) as [Hle|Hfan]; [left; exact Hle|right].
    eapply mayFanOut_sameShape; [apply computeColors_shape|exact Hfan].
Qed.
(* ================================================================== *)
(** ** The id counter as a binary64 number                             *)
(* ================================================================== *)

Lemma iter_pos_nat {A} (f : A -> A) (p : positive) (x : A) :
  SpecFloat.iter_pos f p x = Nat.iter (Pos.to_nat p) f x.
Proof.
  revert x. induction p as [p IH|p IH|]; intros x; cbn [SpecFloat.iter_pos].
  - rewrite !IH, Pos2Nat.inj_xI. cbn [Nat.mul].
    rewrite Nat.add_0_r, Nat.iter_succ_r, Nat.iter_add. reflexivity.
  - rewrite !IH, Pos2Nat.inj_xO. cbn [Nat.mul].
    rewrite Nat.add_0_r, Nat.iter_add. reflexivity.
  - reflexivity.
Qed.

(** [q] followed by [k] zero bits. *)
Lemma digits2_pos_shift (k : nat) (q : positive) :
  Zpos (digits2_pos (Nat.iter k xO q)) = (Zpos (digits2_pos q) + Z.of_nat k)%Z.
Proof.
  induction k as [|k IH]; [cbn; lia|].
  change (Nat.iter (S k) xO q) with (xO (Nat.iter k xO q)).
  cbn [digits2_pos]. rewrite Pos2Z.inj_succ, IH. lia.
Qed.

Lemma shr_1_shift (s r : nat) (q : positive) :
  Nat.iter s shr_1
    {| shr_m := Zpos (Nat.iter (s + r) xO q); shr_r := false; shr_s := false |}
  = {| shr_m := Zpos (Nat.iter r xO q); shr_r := false; shr_s := false |}.
Proof.
  induction s as [|s IH]; [reflexivity|].
  rewrite Nat.iter_succ_r.
  change (Nat.iter (S s + r) xO q) with (xO (Nat.iter (s + r) xO q)).
  cbn [shr_1 orb]. exact IH.
Qed.

Lemma shift_value (k : nat) (q : positive) :
  Zpos (Nat.iter k xO q) = (Zpos q * 2 ^ Z.of_nat k)%Z.
Proof.
  induction k as [|k IH]; [cbn; lia|].
  change (Nat.iter (S k) xO q) with (xO (Nat.iter k xO q)).
  rewrite Pos2Z.inj_xO, IH, Nat2Z.inj_succ, Z.pow_succ_r by lia.
  lia.
Qed.

Lemma shr_shift (s r : nat) (q : positive) (e : Z) :
  shr {| shr_m := Zpos (Nat.iter (s + r) xO q); shr_r := false; shr_s := false |}
    e (Z.of_nat s)
  = ({| shr_m := Zpos (Nat.iter r xO q); shr_r := false; shr_s := false |},
     (e + Z.of_nat s)%Z).
Proof.
  destruct s as [|s].
  - cbn [Z.of_nat shr Nat.add]. rewrite Z.add_0_r. reflexivity.
  - change (Z.of_nat (S s)) with (Zpos (Pos.of_succ_nat s)). unfold shr.
    rewrite iter_pos_nat, SuccNat2Pos.id_succ, shr_1_shift.
    reflexivity.
Qed.

(** Rounding a mantissa of at most 53 significant bits followed by zero
    bits is exact: it moves the mantissa to 53 bits. *)
Lemma binary_round_aux_shift (j s r : nat) (q : positive) (e : Z) :
  j = (s + r)%nat ->
  (Zpos (digits2_pos q) + Z.of_nat r = 53)%Z ->
  (-1074 <= e + Z.of_nat s <= 971)%Z ->
  binary_round_aux prec emax false (Zpos (Nat.iter j xO q)) e loc_Exact
  = S754_finite false (Nat.iter r xO q) (e + Z.of_nat s).
Proof.
  intros -> Hd He. unfold binary_round_aux, shr_fexp.
  cbn [Zdigits2 shr_record_of_loc]. rewrite digits2_pos_shift.
  replace (fexp prec emax (Zpos (digits2_pos q) + Z.of_nat (s + r) + e) - e)%Z
    with (Z.of_nat s)
    by (unfold fexp, SpecFloat.emin, prec, emax; lia).
  rewrite shr_shift. cbn [shr_m loc_of_shr_record round_nearest_even Zdigits2
                          shr_record_of_loc].
  rewrite digits2_pos_shift.
  replace (fexp prec emax (Zpos (digits2_pos q) + Z.of_nat r + (e + Z.of_nat s))
           - (e + Z.of_nat s))%Z
    with 0%Z
    by (unfold fexp, SpecFloat.emin, prec, emax; lia).
  cbn [shr shr_m].
  replace (e + Z.of_nat s <=? emax - prec)%Z with true
    by (symmetry; apply Z.leb_le; unfold prec, emax; lia).
  reflexivity.
Qed.

Lemma binary_round_shift (q : positive) (j : nat) (e : Z) :
  (Zpos (digits2_pos q) <= 53)%Z ->
  (-1074 <= Zpos (digits2_pos q) + Z.of_nat j + e - 53 <= 971)%Z ->
  binary_round prec emax false (Nat.iter j xO q) e
  = S754_finite false
      (Nat.iter (Z.to_nat (53 - Zpos (digits2_pos q))) xO q)
      (Zpos (digits2_pos q) + Z.of_nat j + e - 53).
Proof.
  intros Hd He. unfold binary_round. rewrite digits2_pos_shift.
  set (dq := Zpos (digits2_pos q)) in *.
  replace (fexp prec emax (dq + Z.of_nat j + e))
    with (dq + Z.of_nat j + e - 53)%Z
    by (unfold fexp, SpecFloat.emin, prec, emax; lia).
  unfold shl_align.
  destruct (dq + Z.of_nat j + e - 53 - e)%Z as [|p|d] eqn:Hs; cbv beta iota zeta.
  - rewrite (binary_round_aux_shift j 0 (Z.to_nat (53 - dq))) by (fold dq; lia).
    f_equal. lia.
  - rewrite (binary_round_aux_shift j (Pos.to_nat p) (Z.to_nat (53 - dq)))
      by (fold dq; lia).
    f_equal. lia.
  - rewrite Pos2Nat.inj_iter.
    change (nat_rect (fun _ => positive) (Nat.iter j xO q) (fun _ => xO)
              (Pos.to_nat d))
      with (Nat.iter (Pos.to_nat d) xO (Nat.iter j xO q)).
    rewrite <- Nat.iter_add.
    rewrite (binary_round_aux_shift (Pos.to_nat d + j) 0 (Z.to_nat (53 - dq)))
      by (fold dq; lia).
    f_equal. lia.
Qed.

Lemma digits2_pos_lower (m : positive) :
  (2 ^ (Zpos (digits2_pos m) - 1) <= Zpos m)%Z.
Proof.
  induction m as [m IH|m IH|]; cbn [digits2_pos]; [| |cbn; lia];
    rewrite Pos2Z.inj_succ;
    replace (Z.succ (Zpos (digits2_pos m)) - 1)%Z
      with (Z.succ (Zpos (digits2_pos m) - 1)) by lia;
    rewrite Z.pow_succ_r by lia; lia.
Qed.

Lemma digits2_pos_53 (m : positive) :
  (Zpos m < 2 ^ 53)%Z -> (Zpos (digits2_pos m) <= 53)%Z.
Proof.
  intros Hm. pose proof (digits2_pos_lower m) as Hlo.
  destruct (Z_le_gt_dec (Zpos (digits2_pos m)) 53) as [H|H]; [exact H|].
  exfalso. assert (2 ^ 53 <= 2 ^ (Zpos (digits2_pos m) - 1))%Z
    by (apply Z.pow_le_mono_r; lia).
  lia.
Qed.

(** The number of a positive integer below 2^53: its bits, moved to a
    mantissa of 53 bits. *)
Lemma binary_normalize_integer (n : positive) :
  (Zpos n < 2 ^ 53)%Z ->
  binary_normalize prec emax (Zpos n) 0 false
  = S754_finite false
      (Nat.iter (Z.to_nat (53 - Zpos (digits2_pos n))) xO n)
      (Zpos (digits2_pos n) - 53).
Proof.
  intros Hn. apply digits2_pos_53 in Hn. cbn [binary_normalize].
  change n with (Nat.iter 0 xO n) at 1.
  rewrite (binary_round_shift n 0 0) by (cbn [Z.of_nat]; lia).
  f_equal; cbn [Z.of_nat]; lia.
Qed.

Lemma valid_integer (n : positive) :
  (Zpos n < 2 ^ 53)%Z ->
  valid_binary (binary_normalize prec emax (Zpos n) 0 false) = true.
Proof.
  intros Hn. rewrite binary_normalize_integer by exact Hn.
  apply digits2_pos_53 in Hn.
  unfold valid_binary. cbn [SpecFloat.valid_binary].
  unfold bounded, canonical_mantissa.
  rewrite digits2_pos_shift. apply andb_true_iff. split.
  - apply Z.eqb_eq. unfold fexp, SpecFloat.emin, prec, emax. lia.
  - apply Z.leb_le. unfold prec, emax. lia.
Qed.

(** Adding one to a positive integer is exact as long as the sum lies
    below 2^53. *)
Lemma SFadd_integer_one (n : positive) :
  (Zpos n + 1 < 2 ^ 53)%Z ->
  SFadd prec emax (binary_normalize prec emax (Zpos n) 0 false)
    (binary_normalize prec emax 1 0 false)
  = binary_normalize prec emax (Zpos n + 1) 0 false.
Proof.
  intros Hn.
  assert (Zpos n < 2 ^ 53)%Z as Hn0 by lia.
  rewrite (binary_normalize_integer n Hn0).
  change (Zpos n + 1)%Z with (Zpos (n + 1)).
  rewrite (binary_normalize_integer (n + 1)) by exact Hn.
  change (binary_normalize prec emax 1 0 false)
    with (S754_finite false (Nat.iter 52 xO 1%positive) (-52)).
  apply digits2_pos_53 in Hn0.
  set (d := Zpos (digits2_pos n)) in *.
  assert (1 <= d)%Z as Hd1 by (subst d; lia).
  cbn [SFadd]. cbv zeta.
  replace (Z.min (d - 53) (-52)) with (-52)%Z by lia.
  assert (fst (shl_align (Nat.iter (Z.to_nat (53 - d)) xO n) (d - 53) (-52))
          = Nat.iter 52 xO n) as ->.
  { unfold shl_align. destruct (-52 - (d - 53))%Z as [|p|p] eqn:Hs; cbn [fst].
    - f_equal. lia.
    - lia.
    - rewrite Pos2Nat.inj_iter.
      change (nat_rect (fun _ => positive)
                (Nat.iter (Z.to_nat (53 - d)) xO n) (fun _ => xO) (Pos.to_nat p))
        with (Nat.iter (Pos.to_nat p) xO (Nat.iter (Z.to_nat (53 - d)) xO n)).
      rewrite <- Nat.iter_add. f_equal. lia. }
  change (fst (shl_align (Nat.iter 52 xO 1%positive) (-52) (-52)))
    with (Nat.iter 52 xO 1%positive).
  cbn [cond_Zopp].
  assert (Zpos (Nat.iter 52 xO n) + Zpos (Nat.iter 52 xO 1%positive)
          = Zpos (Nat.iter 52 xO (n + 1)%positive))%Z as ->.
  { rewrite !shift_value. lia. }
  cbn [binary_normalize].
  rewrite (binary_round_shift (n + 1) 52 (-52))
    by (apply digits2_pos_53 in Hn;
        change (Zpos n + 1)%Z with (Zpos (n + 1)) in Hn; lia).
  f_equal. lia.
Qed.

Lemma Prim2SF_integer (p : positive) :
  (Zpos p < 2 ^ 53)%Z ->
  Prim2SF (of_Z (Zpos p)) = binary_normalize prec emax (Zpos p) 0 false.
Proof. intros Hp. unfold of_Z. apply Prim2SF_SF2Prim, valid_integer, Hp. Qed.

(** Below 2^53 the binary64 sum of the counter and one is the next
    natural number. *)
Lemma counterNumber_succ (n : N) :
  (n + 1 < counterBound)%N ->
  (Binary64.counterNumber n + 1)%float = Binary64.counterNumber (n + 1).
Proof.
  unfold counterBound. intros Hn. destruct n as [|p]; [reflexivity|].
  unfold Binary64.counterNumber. apply Prim2SF_inj. rewrite add_spec.
  rewrite N2Z.inj_add. change (Z.of_N (Npos p)) with (Zpos p).
  change (Z.of_N 1) with 1%Z. change (Zpos p + 1)%Z with (Zpos (p + 1)).
  rewrite !Prim2SF_integer by lia.
  change (Prim2SF 1) with (binary_normalize prec emax 1 0 false).
  apply SFadd_integer_one. lia.
Qed.

Lemma counterValue_number (n : N) :
  (n < counterBound)%N ->
  Binary64.counterValue (Binary64.counterNumber n) = n.
Proof.
  unfold counterBound. intros Hn. destruct n as [|p]; [reflexivity|].
  unfold Binary64.counterValue, Binary64.counterNumber.
  change (Z.of_N (Npos p)) with (Zpos p).
  rewrite Prim2SF_integer, binary_normalize_integer by lia.
  assert (Zpos (digits2_pos p) <= 53)%Z as Hd by (apply digits2_pos_53; lia).
  rewrite shift_value.
  replace (Zpos (digits2_pos p) - 53)%Z
    with (- Z.of_nat (Z.to_nat (53 - Zpos (digits2_pos p))))%Z by lia.
  rewrite Z.shiftl_opp_r, Z.shiftr_div_pow2 by lia.
  rewrite Z.div_mul by (apply Z.pow_nonzero; lia).
  reflexivity.
Qed.

(** [idCounter += 1] adds one to a counter below 2^53, and leaves a
    counter of 2^53 as it is. *)
Lemma increment_spec (n : N) :
  (n <= counterBound)%N ->
  Binary64.increment n = N.min (n + 1) counterBound.
Proof.
  intros Hn.
  destruct (N.eq_dec n counterBound) as [->|Hne]; [vm_compute; reflexivity|].
  destruct (N.eq_dec (n + 1)%N counterBound) as [He|Hne1].
  - assert (n = 9007199254740991%N) as -> by (unfold counterBound in He; lia).
    vm_compute. reflexivity.
  - unfold Binary64.increment.
    assert (n + 1 < counterBound)%N as Hlt by lia.
    rewrite (counterNumber_succ n Hlt), (counterValue_number (n + 1) Hlt). lia.
Qed.

Lemma increment_iter (k : nat) (n : N) :
  (n <= counterBound)%N ->
  Nat.iter k Binary64.increment n = N.min (n + N.of_nat k) counterBound.
Proof.
  intros Hn. induction k as [|k IH].
  - change (Nat.iter 0 Binary64.increment n) with n. lia.
  - change (Nat.iter (S k) Binary64.increment n)
      with (Binary64.increment (Nat.iter k Binary64.increment n)).
    rewrite IH, increment_spec by lia. lia.
Qed.

(** *** The operations with the binary64 counter                       *)

Lemma nextId64_exact prefix st :
  (idCounter st < counterBound)%N ->
  Binary64.nextId prefix st = nextId prefix st.
Proof.
  intros H. unfold Binary64.nextId, nextId. rewrite increment_spec by lia.
  replace (N.min (idCounter st + 1) counterBound) with (idCounter st + 1)%N
    by lia.
  reflexivity.
Qed.

(** At 2^53 the counter stands still, and [nextId] hands out the id
    made from 2^53 at every call. *)
Lemma nextId64_absorbed prefix st :
  idCounter st = counterBound ->
  idCounter (snd (Binary64.nextId prefix st)) = counterBound
  /\ fst (Binary64.nextId prefix (snd (Binary64.nextId prefix st)))
     = fst (Binary64.nextId prefix st).
Proof.
  intros H. unfold Binary64.nextId. cbn [fst snd idCounter]. rewrite H.
  assert (Binary64.increment counterBound = counterBound) as ->
    by (vm_compute; reflexivity).
  split; reflexivity.
Qed.

Lemma addPort64_exact role cst :
  (idCounter (snd cst) < counterBound)%N ->
  Binary64.addPort role cst = addPort role cst.
Proof.
  destruct cst as [c st]. cbn [snd]. intros H.
  unfold Binary64.addPort, addPort. rewrite nextId64_exact by exact H.
  reflexivity.
Qed.

Lemma addPort_counter role cst :
  idCounter (snd (addPort role cst)) = (idCounter (snd cst) + 1)%N.
Proof. destruct cst. reflexivity. Qed.

Lemma addPort64_counter role cst :
  idCounter (snd (Binary64.addPort role cst))
  = Binary64.increment (idCounter (snd cst)).
Proof. destruct cst. reflexivity. Qed.

Lemma buildPorts64_exact cst :
  (idCounter (snd cst) + N.of_nat (length (layout (comp_type (fst cst))))
   <= counterBound)%N ->
  Binary64.buildPorts cst = buildPorts cst.
Proof.
  intros H. unfold Binary64.buildPorts, buildPorts.
  destruct (comp_type (fst cst)); cbn [layout length] in H;
    repeat match goal with
           | |- context [Binary64.addPort ?r ?x] =>
               lazymatch x with
               | context [Binary64.addPort] => fail
               | _ => rewrite (addPort64_exact r x)
                   by (rewrite ?addPort_counter; lia)
               end
           end;
    reflexivity.
Qed.

Lemma buildPorts64_counter cst :
  idCounter (snd (Binary64.buildPorts cst))
  = Nat.iter (length (layout (comp_type (fst cst)))) Binary64.increment
      (idCounter (snd cst)).
Proof.
  unfold Binary64.buildPorts.
  destruct (comp_type (fst cst)); rewrite !addPort64_counter; reflexivity.
Qed.

(** [createComponent] with the binary64 counter is [createComponent]
    when the counter has room for the ids of the component and of its
    ports. *)
Lemma createComponent64_exact type o st :
  (idCounter st + 1 + N.of_nat (length (layout type)) <= counterBound)%N ->
  Binary64.createComponent type o st = createComponent type o st.
Proof.
  intros H. unfold Binary64.createComponent, createComponent.
  rewrite nextId64_exact by lia. unfold nextId. cbv beta iota zeta.
  rewrite buildPorts64_exact; [reflexivity|].
  cbn [fst snd comp_type idCounter]. lia.
Qed.

Lemma createComponent64_counter type o st :
  (idCounter st <= counterBound)%N ->
  idCounter (snd (Binary64.createComponent type o st))
  = N.min (idCounter st + 1 + N.of_nat (length (layout type))) counterBound.
Proof.
  intros H. unfold Binary64.createComponent, Binary64.nextId.
  cbv beta iota zeta.
  match goal with
  | |- context [Binary64.buildPorts ?x] =>
      pose proof (buildPorts64_counter x) as Hb;
      destruct (Binary64.buildPorts x) as [c' st']
  end.
  cbn [fst snd comp_type idCounter set_components] in *.
  rewrite Hb, increment_iter, increment_spec by (rewrite ?increment_spec; lia).
  lia.
Qed.

Lemma tryConnect64_step first second st :
  (idCounter st <= counterBound)%N ->
  let st' := snd (Binary64.tryConnect first second st) in
  (idCounter st <= idCounter st' <= counterBound)%N
  /\ ((idCounter st' < counterBound)%N ->
      Binary64.tryConnect first second st = tryConnect first second st).
Proof.
  intros H. cbv zeta. unfold Binary64.tryConnect, tryConnect.
  destruct (bool_decide (componentId first = componentId second));
    [cbn; split; [lia|reflexivity]|].
  destruct (resolveConnection st first second) as [[from to]|];
    [|cbn; split; [lia|reflexivity]].
  destruct (connectionExists st from to); [cbn; split; [lia|reflexivity]|].
  unfold Binary64.nextId, nextId. cbv beta iota zeta. cbn [snd].
  rewrite computeColors_idCounter.
  cbn [clearSelection set_connections idCounter].
  rewrite increment_spec by exact H. split; [lia|]. intros Hlt.
  replace (N.min (idCounter st + 1) counterBound) with (idCounter st + 1)%N
    by lia.
  reflexivity.
Qed.

Lemma deleteComponent_idCounter cid st :
  idCounter (deleteComponent cid st) = idCounter st.
Proof.
  unfold deleteComponent. destruct (findComponent st cid); [|reflexivity].
  rewrite computeColors_idCounter. apply removeComponent_idCounter.
Qed.

Lemma resetGrid_idCounter st : idCounter (resetGrid st) = idCounter st.
Proof. unfold resetGrid. rewrite computeColors_idCounter. reflexivity. Qed.

(** An operation with the binary64 counter never lowers the counter nor
    takes it above 2^53, and is the operation when it leaves the counter
    below 2^53. *)
Lemma perform64_step a st :
  (idCounter st <= counterBound)%N ->
  let st' := Binary64.perform a st in
  (idCounter st <= idCounter st' <= counterBound)%N
  /\ ((idCounter st' < counterBound)%N -> st' = perform a st).
Proof.
  intros H. cbv zeta. destruct a as [type o|ref|first second|cid| |];
    cbn [Binary64.perform perform].
  - rewrite createComponent64_counter by exact H. split; [lia|]. intros Hlt.
    rewrite createComponent64_exact by lia. reflexivity.
  - unfold Binary64.handlePortClick, handlePortClick.
    destruct (selectedPort st) as [sel|]; [|cbn; split; [lia|reflexivity]].
    destruct (tryConnect64_step sel ref st H) as [Hc He].
    split; [exact Hc|]. intros Hlt. rewrite (He Hlt). reflexivity.
  - destruct (tryConnect64_step first second st H) as [Hc He].
    split; [exact Hc|]. intros Hlt. rewrite (He Hlt). reflexivity.
  - rewrite deleteComponent_idCounter. split; [lia|reflexivity].
  - rewrite resetGrid_idCounter. split; [lia|reflexivity].
  - rewrite computeColors_idCounter. split; [lia|reflexivity].
Qed.

Lemma performAll64_counter l st :
  (idCounter st <= counterBound)%N ->
  (idCounter st <= idCounter (Binary64.performAll l st) <= counterBound)%N.
Proof.
  revert st. induction l as [|a l IH]; intros st H; [cbn; lia|].
  change (Binary64.performAll (a :: l) st)
    with (Binary64.performAll l (Binary64.perform a st)).
  destruct (perform64_step a st H) as [Hc _]. cbv zeta in Hc.
  specialize (IH (Binary64.perform a st) ltac:(lia)). lia.
Qed.

Lemma performAll64_exact l st :
  (idCounter st <= counterBound)%N ->
  (idCounter (Binary64.performAll l st) < counterBound)%N ->
  Binary64.performAll l st = performAll l st.
Proof.
  revert st. induction l as [|a l IH]; intros st H Hlt; [reflexivity|].
  change (Binary64.performAll (a :: l) st)
    with (Binary64.performAll l (Binary64.perform a st)) in *.
  change (performAll (a :: l) st) with (performAll l (perform a st)).
  destruct (perform64_step a st H) as [Hc He]. cbv zeta in Hc, He.
  pose proof (performAll64_counter l (Binary64.perform a st) ltac:(lia)) as Hm.
  rewrite <- He by lia. apply IH; [lia|exact Hlt].
Qed.

Lemma reachable64_performAll l st :
  Binary64.reachable st -> Binary64.reachable (Binary64.performAll l st).
Proof.
  revert st. induction l as [|a l IH]; intros st H; [exact H|].
  apply (IH (Binary64.perform a st)). constructor. exact H.
Qed.

(** The states the operations reach with the binary64 counter have a
    counter of 2^53 at most; those whose counter is below 2^53 are
    states the operations reach with the counter that has no end. *)
Lemma reachable64_exact st :
  Binary64.reachable st ->
  (idCounter st <= counterBound)%N
  /\ ((idCounter st < counterBound)%N -> reachable st).
Proof.
  induction 1 as [|a st _ [IHc IHr]].
  - split; [vm_compute; discriminate|]. intros _. constructor.
  - destruct (perform64_step a st IHc) as [Hc He]. cbv zeta in Hc, He.
    split; [lia|]. intros Hlt. rewrite (He Hlt). constructor. apply IHr. lia.
Qed.

(** No operation lowers the counter. *)
Lemma perform_idCounter (a : action) (st : state) :
  (idCounter st <= idCounter (perform a st))%N.
Proof.
  apply (perform_ops (fun s => (idCounter st <= idCounter s)%N)).
  - intros type o s Hs. rewrite createComponent_eq. cbn [snd idCounter]. lia.
  - intros ref s Hs. exact Hs.
  - intros s Hs. exact Hs.
  - intros x y conn s Hs _. cbn [linked idCounter]. lia.
  - intros cid s Hs. rewrite removeComponent_idCounter. exact Hs.
  - intros s Hs. exact Hs.
  - intros s Hs. rewrite computeColors_idCounter. exact Hs.
  - reflexivity.
Qed.

Lemma performAll_idCounter l st :
  (idCounter st <= idCounter (performAll l st))%N.
Proof.
  revert st. induction l as [|a l IH]; intros st; [cbn; lia|].
  change (performAll (a :: l) st) with (performAll l (perform a st)).
  pose proof (perform_idCounter a st). specialize (IH (perform a st)). lia.
Qed.

(** The ports [createComponent] makes have ids made from the counter
    values after that of the component. *)
Lemma portsFrom_ids n roles pid :
  pid ∈ List.map port_id (portsFrom n roles) ->
  exists k, pid = "p-" +:+ pretty k
            /\ (n < k <= n + N.of_nat (length roles))%N.
Proof.
  revert n. induction roles as [|r roles IH]; intros n Hin;
    cbn [portsFrom List.map length] in *; [inversion Hin|].
  apply elem_of_cons in Hin as [->|Hin].
  - exists (n + 1)%N. split; [reflexivity|lia].
  - destruct (IH _ Hin) as (k & -> & Hk). exists k. split; [reflexivity|lia].
Qed.

(* ================================================================== *)
(** ** The grid the operations build                                   *)
(* ================================================================== *)

Lemma reachable_idsInv st : reachable st -> idsInv st.
Proof.
  induction 1 as [|a st _ IH].
  - unfold idsInv, idsOn. cbn. repeat split; constructor.
  - apply perform_idsInv, IH.
Qed.

Lemma find_NoDup_ids cs c :
  NoDup (List.map comp_id cs) -> c ∈ cs ->
  find (fun d => bool_decide (comp_id d = comp_id c)) cs = Some c.
Proof.
  induction cs as [|d cs IH]; intros Hnd Hin; [inversion Hin|].
  cbn in Hnd. apply NoDup_cons in Hnd as [Hd Hnd]. cbn.
  apply elem_of_cons in Hin as [->|Hin].
  - rewrite bool_decide_eq_true_2 by reflexivity. reflexivity.
  - rewrite bool_decide_eq_false_2; [apply IH; assumption|].
    intros Heq. apply Hd. rewrite Heq. apply elem_of_map. eauto.
Qed.



Lemma getPort_Some st ref p :
  getPort st ref = Some p ->
  exists c, findComponent st (componentId ref) = Some c
            /\ c ∈ components st /\ comp_id c = componentId ref
            /\ p ∈ comp_ports c /\ port_id p = portId ref.
Proof.
  unfold getPort.
  destruct (findComponent st (componentId ref)) as [c|] eqn:Hc; [|discriminate].
  intros Hp. exists c. split; [reflexivity|].
  apply find_elem_of in Hc as [Hin Hid], Hp as [Hpin Hpid].
  apply bool_decide_eq_true in Hid, Hpid. auto.
Qed.

(** X1. In every state the operations reach with the id counter, a
    binary64 number, still below 2^53, no two ports of the grid have the
    same id, and no two have the same key in [portOutputs]. *)
Theorem port_ids_unique (st : state) :
  Binary64.reachable st -> (idCounter st < counterBound)%N ->
  NoDup (allPortIds (components st)) /\ NoDup (allKeys (components st)).
Proof.
  intros H64 Hlt. destruct (reachable64_exact st H64) as [_ H].
  specialize (H Hlt). split.
  - apply reachable_idsInv in H as (_ & Hnd & _). exact Hnd.
  - apply reachable_wellFormed in H as [Hnd _]. exact Hnd.
Qed.

(** X2. In every state the operations reach with the id counter, a
    binary64 number, still below 2^53, no two components have the same
    id, and the lookup of a component by its id finds that component. *)
Theorem component_ids_unique (st : state) :
  Binary64.reachable st -> (idCounter st < counterBound)%N ->
  NoDup (List.map comp_id (components st))
  /\ forall c, c ∈ components st -> findComponent st (comp_id c) = Some c.
Proof.
  intros H64 Hlt. destruct (reachable64_exact st H64) as [_ H].
  specialize (H Hlt).
  apply reachable_compIds in H as [_ Hnd]. split; [exact Hnd|].
  intros c Hin. apply find_NoDup_ids; assumption.
Qed.

(** X3. In every state the operations reach with the id counter, a
    binary64 number, still below 2^53, no two connections have the same
    id. *)
Theorem connection_ids_unique (st : state) :
  Binary64.reachable st -> (idCounter st < counterBound)%N ->
  NoDup (List.map conn_id (connections st)).
Proof.
  intros H64 Hlt. destruct (reachable64_exact st H64) as [_ H].
  specialize (H Hlt).
  apply reachable_linkIds in H as [_ Hnd]. exact Hnd.
Qed.

(** X4. In every state the operations reach, a factory has four Output
    ports, an adder two Input ports and one Output port, a gradientor one
    Input port and one Output port, a storage six Flex ports, in this
    order; and a component has storage slots exactly when it is a
    storage. *)
Theorem components_built (st : state) (c : component) :
  reachable st -> c ∈ components st ->
  List.map port_role (comp_ports c) = layout (comp_type c)
  /\ (is_Some (comp_storageSlots c) <-> comp_type c = storage).
Proof.
  intros H Hin. apply reachable_built in H.
  rewrite Forall_forall in H. exact (H c Hin).
Qed.

(** X5. In every state the operations reach, both ends of every
    connection are ports of the grid, they sit on two different
    components, the source is not an Input port and the sink is not an
    Output port: [deleteComponent] leaves no connection dangling. *)
Theorem connections_wired (st : state) (conn : connection) :
  reachable st -> conn ∈ connections st ->
  exists pf pt,
    getPort st (conn_from conn) = Some pf
    /\ getPort st (conn_to conn) = Some pt
    /\ port_role pf <> input /\ port_role pt <> output
    /\ componentId (conn_from conn) <> componentId (conn_to conn).
Proof.
  intros H Hin. apply reachable_wired in H.
  rewrite Forall_forall in H. exact (H conn Hin).
Qed.

(** X6. In every state the operations reach, the source of every
    connection is a port of a component of the grid for which
    [isPortOutput] holds. *)
Theorem sources_are_outputs (st : state) (conn : connection) :
  reachable st -> conn ∈ connections st ->
  exists c p,
    findComponent st (componentId (conn_from conn)) = Some c
    /\ getPort st (conn_from conn) = Some p
    /\ isPortOutput (connections st) p c = true.
Proof.
  intros H Hin. apply reachable_wired in H.
  rewrite Forall_forall in H. destruct (H conn Hin) as (pf & _ & Hf & _ & Hrole & _).
  destruct (getPort_Some _ _ _ Hf) as (c & Hc & _ & Hid & _ & Hpid).
  exists c, pf. split; [exact Hc|]. split; [exact Hf|].
  unfold isPortOutput. destruct (port_role pf); [congruence|reflexivity|].
  apply existsb_exists. exists conn. split; [apply list_elem_of_In, Hin|].
  apply sameRef_true. rewrite Hid, Hpid. destruct (conn_from conn). reflexivity.
Qed.

(** X7. In every state the operations reach, a port that is the source
    of two connections or more is an Output port of an adder or of a
    gradientor: the Output ports of a factory and the Flex ports of a
    storage feed one connection at most. *)
Theorem fan_out_only_from_mixers (st : state) (f : portRef) :
  reachable st -> 2 <= outDegree (connections st) f ->
  exists c p,
    findComponent st (componentId f) = Some c /\ getPort st f = Some p
    /\ (comp_type c = adder \/ comp_type c = gradientor)
    /\ port_role p = output.
Proof.
  intros H Hdeg. destruct (reachable_fanOut st H f) as [Hle|Hfan]; [lia|].
  destruct Hfan as (p & Hp & c & Hc & Ht & Hr). exists c, p. auto.
Qed.


(** The id [createComponent] gives the new component and the ids it
    gives its ports are new in the grid. *)
Lemma createComponent_fresh st type o :
  reachable st ->
  let c := fst (createComponent type o st) in
  (comp_id c ∉ List.map comp_id (components st))
  /\ (forall pid, pid ∈ portIdsOf c -> pid ∉ allPortIds (components st)).
Proof.
  intros H c.
  pose proof (reachable_step (Create type o) st H) as H'. cbn [perform] in H'.
  pose proof (reachable_compIds _ H') as [_ Hnd].
  pose proof (reachable_idsInv _ H') as (_ & Hpnd & _).
  subst c. revert Hnd Hpnd. rewrite createComponent_eq. cbv zeta.
  cbn [fst snd components comp_id]. intros Hnd Hpnd. split.
  - rewrite map_app in Hnd. apply NoDup_app in Hnd as (_ & Hnew & _).
    intros Hin. apply (Hnew _ Hin). cbn. left.
  - rewrite allPortIds_app in Hpnd. apply NoDup_app in Hpnd as (_ & Hnew & _).
    intros pid Hpid Hin. apply (Hnew _ Hin).
    unfold allPortIds. cbn [flat_map]. rewrite app_nil_r. exact Hpid.
Qed.

(** X9. In every state the operations reach, when the id counter, a
    binary64 number, has room below 2^53 for one id and one per port,
    [createComponent] appends one component of the type asked for, with
    the colour and the mode of the options and the ports of its type;
    its id and the ids of its ports are new in the grid; the components
    and connections there were stay as they are, and the counter
    advances by one plus the number of ports. *)
Theorem createComponent_appends (st : state) (type : CType) (o : options) :
  Binary64.reachable st ->
  (idCounter st + 1 + N.of_nat (length (layout type)) <= counterBound)%N ->
  let c := fst (Binary64.createComponent type o st) in
  let st' := snd (Binary64.createComponent type o st) in
  components st' = components st ++ [c]
  /\ connections st' = connections st
  /\ selectedPort st' = selectedPort st
  /\ idCounter st' = (idCounter st + 1 + N.of_nat (length (layout type)))%N
  /\ comp_type c = type /\ comp_color c = opt_color o /\ comp_mode c = opt_mode o
  /\ List.map port_role (comp_ports c) = layout type
  /\ (comp_id c ∉ List.map comp_id (components st))
  /\ (forall pid, pid ∈ portIdsOf c -> pid ∉ allPortIds (components st)).
Proof.
  intros H64 Hroom c st'. subst c st'.
  rewrite createComponent64_exact by exact Hroom.
  destruct (reachable64_exact st H64) as [_ H]. specialize (H ltac:(lia)).
  pose proof (createComponent_fresh st type o H) as Hfresh.
  cbv zeta in Hfresh. revert Hfresh.
  rewrite createComponent_eq. cbv zeta.
  cbn [fst snd components connections selectedPort idCounter comp_type
       comp_color comp_mode comp_ports].
  intros Hfresh. repeat (split; [reflexivity|]).
  split; [apply portsFrom_roles|exact Hfresh].
Qed.

(** X10. An id handed out once is not handed out again while the id
    counter, a binary64 number, has room below 2^53: a component created
    after another one, whatever operations ran in between,
    [deleteComponent] and [resetGrid] among them, has another id than
    the earlier one, and none of its ports has the id of a port of the
    earlier one. *)
Theorem ids_never_reused (st : state) (l : list action)
    (type type' : CType) (o o' : options) :
  Binary64.reachable st ->
  let c := fst (Binary64.createComponent type o st) in
  let st1 := snd (Binary64.createComponent type o st) in
  let st2 := Binary64.performAll l st1 in
  let c' := fst (Binary64.createComponent type' o' st2) in
  (idCounter st2 + 1 + N.of_nat (length (layout type')) <= counterBound)%N ->
  comp_id c' <> comp_id c
  /\ (forall pid, pid ∈ portIdsOf c' -> pid ∉ portIdsOf c).
Proof.
  intros H64. cbv zeta. intros Hroom.
  destruct (reachable64_exact st H64) as [Hle _].
  pose proof (createComponent64_counter type o st Hle) as Hc1.
  assert (idCounter (snd (Binary64.createComponent type o st))
          <= counterBound)%N as Hle1 by lia.
  pose proof (performAll64_counter l _ Hle1) as Hmono.
  rewrite (createComponent64_exact type' o' _ Hroom).
  rewrite (performAll64_exact l _ Hle1) in * by lia.
  rewrite (createComponent64_exact type o st) in * by lia.
  clear Hc1 Hle1 Hmono. revert Hroom.
  pose proof (performAll_idCounter l (snd (createComponent type o st))) as Hup.
  revert Hup. generalize (performAll l (snd (createComponent type o st))).
  intros st2 Hup _. revert Hup. rewrite !createComponent_eq. cbv zeta.
  unfold portIdsOf. cbn [fst snd idCounter comp_id comp_ports].
  intros Hup. split.
  - intros Heq. apply (madeBy_inj "c") in Heq. lia.
  - intros pid Hin' Hin.
    apply portsFrom_ids in Hin' as (k' & -> & Hk').
    apply portsFrom_ids in Hin as (k & Heq & Hk).
    apply (madeBy_inj "p") in Heq. lia.
Qed.

(** X11. A click on a port changes no component but for the colours the
    storages hold, removes no connection and adds one at most, uses one
    id at most; the first click of a pair selects the port clicked and
    the second leaves no port selected. *)
Theorem handlePortClick_effect (ref : portRef) (st : state) :
  let st' := handlePortClick ref st in
  Forall2 sameShape (components st) (components st')
  /\ (connections st' = connections st
      \/ exists conn, connections st' = connections st ++ [conn])
  /\ (idCounter st <= idCounter st' <= idCounter st + 1)%N
  /\ selectedPort st' = match selectedPort st with
                        | Some _ => None
                        | None => Some ref
                        end.
Proof.
  cbv zeta. unfold handlePortClick.
  assert (Forall2 sameShape (components st) (components st)) as Hrefl.
  { induction (components st); constructor; auto using sameShape_refl. }
  destruct (selectedPort st) as [sel|].
  - destruct (tryConnect_cases sel ref st) as [->|(conn & Hacc & ->)]; cbn [snd].
    + split; [exact Hrefl|]. split; [left; reflexivity|].
      split; [cbn; lia|reflexivity].
    + split; [apply (computeColors_shape (linked conn st))|].
      rewrite computeColors_connections, computeColors_idCounter,
        computeColors_selectedPort.
      split; [right; exists conn; reflexivity|].
      split; [cbn; lia|reflexivity].
  - split; [exact Hrefl|]. split; [left; reflexivity|].
    split; [cbn; lia|reflexivity].
Qed.

(** X12. [portKey] tells two references apart when the component ids
    hold no colon, as those made by [nextId] do. *)
Theorem portKey_inj (a b : portRef) :
  noColon (componentId a) = true -> noColon (componentId b) = true ->
  portKey a = portKey b -> a = b.
Proof.
  intros Ha Hb H. destruct (split_colon _ _ _ _ Ha Hb H) as [Hc Hp].
  destruct a, b. cbn in *. congruence.
Qed.

(* ================================================================== *)
(** ** The map [computeColors] returns                                 *)
(* ================================================================== *)

Lemma NoDup_allKeys_cons c cs :
  NoDup (allKeys (c :: cs)) ->
  NoDup (keysOf c) /\ (forall k, k ∈ keysOf c -> k ∉ allKeys cs)
  /\ NoDup (allKeys cs).
Proof.
  change (allKeys (c :: cs)) with (keysOf c ++ allKeys cs).
  intros H. apply NoDup_app in H. exact H.
Qed.

(** The evaluation of components leaves the keys of other components
    alone. *)
Lemma evalComponents_frame conns cs :
  forall m ch cs' m' ch',
  NoDup (allKeys cs) ->
  evalComponents conns cs (m, ch) = (cs', (m', ch')) ->
  forall k, k ∉ allKeys cs -> getOutput m' k = getOutput m k.
Proof.
  induction cs as [|c cs IH]; intros m ch cs' m' ch' Hnd Hev k Hk.
  - cbn in Hev. injection Hev as _ <- _. reflexivity.
  - cbn [evalComponents] in Hev.
    destruct (evalComponent conns c (m, ch)) as [c1 [m1 ch1]] eqn:Hc.
    destruct (evalComponents conns cs (m1, ch1)) as [cs1 [m2 ch2]] eqn:Hcs.
    injection Hev as _ <- _.
    apply NoDup_allKeys_cons in Hnd as (Hc_nd & _ & Hcs_nd).
    change (allKeys (c :: cs)) with (keysOf c ++ allKeys cs) in Hk.
    apply not_elem_of_app in Hk as [Hkc Hkcs].
    rewrite (IH _ _ _ _ _ Hcs_nd Hcs k Hkcs).
    apply (evalComponent_get _ _ _ _ _ _ _ Hc_nd Hc), Hkc.
Qed.

(** After a round, each component has at its ports what its own
    evaluation left there; a round that changes nothing evaluates every
    component on the map it ends with. *)
Lemma evalComponents_at conns cs :
  forall m ch cs' m' ch',
  NoDup (allKeys cs) ->
  evalComponents conns cs (m, ch) = (cs', (m', ch')) ->
  forall i c, cs !! i = Some c ->
  exists mc c',
    cs' !! i = Some c' /\ sameShape c c'
    /\ (ch' = false -> mc = m')
    /\ forall p, p ∈ comp_ports c ->
         getOutput m' (keyOf c p)
         = if writesAt c p
           then merge (getOutput mc (keyOf c p)) (emitted conns mc c' p)
           else getOutput mc (keyOf c p).
Proof.
  induction cs as [|c0 cs IH]; intros m ch cs' m' ch' Hnd Hev i c Hi;
    [discriminate|].
  cbn [evalComponents] in Hev.
  destruct (evalComponent conns c0 (m, ch)) as [c1 [m1 ch1]] eqn:Hc.
  destruct (evalComponents conns cs (m1, ch1)) as [cs1 [m2 ch2]] eqn:Hcs.
  injection Hev as <- <- <-.
  apply NoDup_allKeys_cons in Hnd as (Hc_nd & Hapart & Hcs_nd).
  destruct i as [|i].
  - injection Hi as <-. exists m, c1. split; [reflexivity|].
    split; [pose proof (evalComponent_shape conns c0 (m, ch)) as Hs;
            rewrite Hc in Hs; exact Hs|].
    split.
    + intros ->. apply evalComponents_quiet in Hcs as (-> & -> & _).
      apply evalComponent_quiet in Hc as (_ & -> & _). reflexivity.
    + intros p Hp.
      rewrite (evalComponents_frame _ _ _ _ _ _ _ Hcs_nd Hcs).
      * apply (evalComponent_get _ _ _ _ _ _ _ Hc_nd Hc), Hp.
      * apply Hapart. apply elem_of_map. eauto.
  - apply (IH _ _ _ _ _ Hcs_nd Hcs i c Hi).
Qed.

(** The same at the exit of the loop of [computeColors], where each
    component also accounts for the colours at its ports. *)
Lemma exit_emitted st r i c :
  wellFormed (components st) -> exitLoop st = Some r ->
  components st !! i = Some c ->
  exists mc c',
    ls_components r !! i = Some c' /\ sameShape c c'
    /\ (changed r = false -> mc = portOutputs r)
    /\ justified (connections st) (portOutputs r) c'
    /\ forall p, p ∈ comp_ports c ->
         getOutput (portOutputs r) (keyOf c p)
         = if writesAt c p
           then merge (getOutput mc (keyOf c p))
                  (emitted (connections st) mc c' p)
           else getOutput mc (keyOf c p).
Proof.
  intros Hwf Hexit Hi.
  pose proof (exitLoop_loopInv st r Hwf Hexit) as [_ Hinv].
  apply exitLoop_rounds in Hexit as [n Hr].
  set (s := Nat.iter n (round (connections st)) (enterLoop st)) in *.
  pose proof (rounds_shape (connections st) n (enterLoop st)) as Hsh.
  fold s in Hsh. cbn [enterLoop ls_components] in Hsh.
  destruct (Forall2_sameShape_lookup _ _ i c Hsh Hi) as (cs_i & Hcs_i & Hshape).
  assert (NoDup (allKeys (ls_components s))) as Hnd.
  { rewrite (Forall2_sameShape_allKeys _ _ Hsh). apply Hwf. }
  unfold round in Hr.
  destruct (evalComponents (connections st) (ls_components s)
              (portOutputs s, false)) as [cs' [m' ch']] eqn:Hev.
  destruct (evalComponents_at _ _ _ _ _ _ _ Hnd Hev i cs_i Hcs_i)
    as (mc & c' & Hc' & Hshape' & Hquiet & Hget).
  subst r. cbn [ls_components portOutputs changed] in *.
  exists mc, c'. split; [exact Hc'|].
  split; [eapply sameShape_trans; eassumption|].
  split; [exact Hquiet|]. split.
  - apply (Hinv true c'). apply elem_of_map. exists c'.
    split; [reflexivity|]. apply list_elem_of_lookup. eauto.
  - intros p Hp. pose proof Hshape as (_ & _ & _ & Hports & _).
    rewrite <- Hports in Hp. specialize (Hget p Hp).
    rewrite (sameShape_keyOf _ _ _ Hshape), (sameShape_writesAt _ _ _ Hshape)
      in Hget.
    exact Hget.
Qed.


(** When the loop has converged, every port a component writes carries
    what the component emits on the map returned. *)
Lemma exit_converged st r i c :
  wellFormed (components st) -> exitLoop st = Some r -> changed r = false ->
  components st !! i = Some c ->
  exists c',
    ls_components r !! i = Some c' /\ sameShape c c'
    /\ forall p, p ∈ comp_ports c -> writesAt c p = true ->
       getOutput (portOutputs r) (keyOf c p)
       = emitted (connections st) (portOutputs r) c' p.
Proof.
  intros Hwf Hexit Hch Hi.
  destruct (exit_emitted st r i c Hwf Hexit Hi)
    as (mc & c' & Hc' & Hshape & Hquiet & [Hjust _] & Hget).
  specialize (Hquiet Hch). subst mc.
  exists c'. split; [exact Hc'|]. split; [exact Hshape|].
  intros p Hp Hw. specialize (Hget p Hp). rewrite Hw in Hget.
  pose proof Hshape as (_ & _ & _ & Hports & _).
  specialize (Hjust p). rewrite Hports, (sameShape_keyOf _ _ _ Hshape) in Hjust.
  destruct (getOutput (portOutputs r) (keyOf c p)) as [w|] eqn:Hout.
  - symmetry. apply Hjust; [exact Hp|reflexivity].
  - symmetry in Hget. unfold merge in Hget.
    destruct (colorsEqual None _) eqn:Heq; [|symmetry; exact Hget].
    apply colorsEqual_None_l in Heq. symmetry. exact Heq.
Qed.

Lemma writesAt_role c p : writesAt c p = true -> port_role p <> input.
Proof.
  unfold writesAt. destruct (comp_type c).
  - intros H. apply hasRole_true in H. congruence.
  - intros H. apply hasRole_true in H. congruence.
  - intros H. apply bool_decide_eq_true, find_elem_of in H as [_ H].
    apply hasRole_true in H. congruence.
  - intros H. apply hasRole_true in H. congruence.
Qed.

Lemma evalComponent_dom conns c m ch c' m' ch' :
  NoDup (keysOf c) ->
  evalComponent conns c (m, ch) = (c', (m', ch')) ->
  forall k v, getOutput m' k = Some v ->
  getOutput m k = Some v
  \/ exists p, p ∈ comp_ports c /\ k = keyOf c p /\ writesAt c p = true.
Proof.
  intros Hnd Hev k v Hk.
  destruct (evalComponent_get _ _ _ _ _ _ _ Hnd Hev) as [Hin Hout].
  destruct (decide (k ∈ keysOf c)) as [Hkc|Hkc].
  - apply elem_of_map in Hkc as (p & -> & Hp). specialize (Hin p Hp).
    destruct (writesAt c p) eqn:Hw; [right; eauto|left; congruence].
  - left. rewrite <- (Hout k Hkc). exact Hk.
Qed.

Lemma evalComponents_dom conns (U : list component) cs :
  forall m ch cs' m' ch',
  NoDup (allKeys cs) ->
  (forall c, c ∈ cs -> exists c0, c0 ∈ U /\ sameShape c0 c) ->
  evalComponents conns cs (m, ch) = (cs', (m', ch')) ->
  atWrittenPorts U m -> atWrittenPorts U m'.
Proof.
  induction cs as [|c cs IH]; intros m ch cs' m' ch' Hnd HU Hev Hm.
  - cbn in Hev. injection Hev as _ <- _. exact Hm.
  - cbn [evalComponents] in Hev.
    destruct (evalComponent conns c (m, ch)) as [c1 [m1 ch1]] eqn:Hc.
    destruct (evalComponents conns cs (m1, ch1)) as [cs1 [m2 ch2]] eqn:Hcs.
    injection Hev as _ <- _.
    apply NoDup_allKeys_cons in Hnd as (Hc_nd & _ & Hcs_nd).
    assert (forall d, d ∈ cs -> exists c0, c0 ∈ U /\ sameShape c0 d) as HU'.
    { intros d Hd. apply HU. apply elem_of_cons. right. exact Hd. }
    apply (IH _ _ _ _ _ Hcs_nd HU' Hcs).
    intros k v Hk.
    destruct (evalComponent_dom _ _ _ _ _ _ _ Hc_nd Hc k v Hk)
      as [Hold|(p & Hp & -> & Hw)]; [apply (Hm k v Hold)|].
    destruct (HU c) as (c0 & Hc0 & Hsh); [apply elem_of_cons; left; reflexivity|].
    exists c0, p. pose proof Hsh as (_ & _ & _ & Hports & _).
    rewrite <- Hports, <- (sameShape_keyOf _ _ _ Hsh),
      <- (sameShape_writesAt _ _ _ Hsh). auto.
Qed.

Lemma Forall2_sameShape_elem cs cs' c' :
  Forall2 sameShape cs cs' -> c' ∈ cs' -> exists c, c ∈ cs /\ sameShape c c'.
Proof.
  induction 1 as [|c d cs cs' Hc _ IH]; intros Hin; [inversion Hin|].
  apply elem_of_cons in Hin as [->|Hin].
  - exists c. split; [left|exact Hc].
  - destruct (IH Hin) as (c0 & Hc0 & Hsh). exists c0. split; [right; exact Hc0|exact Hsh].
Qed.

Lemma rounds_dom st n :
  wellFormed (components st) ->
  atWrittenPorts (components st)
    (portOutputs (Nat.iter n (round (connections st)) (enterLoop st))).
Proof.
  intros Hwf. induction n as [|n IH].
  - intros k v Hk. cbn in Hk. unfold getOutput in Hk.
    rewrite lookup_empty in Hk. discriminate.
  - rewrite Nat.iter_succ.
    set (s := Nat.iter n (round (connections st)) (enterLoop st)) in *.
    pose proof (rounds_shape (connections st) n (enterLoop st)) as Hsh.
    fold s in Hsh. cbn [enterLoop ls_components] in Hsh.
    unfold round.
    destruct (evalComponents (connections st) (ls_components s)
                (portOutputs s, false)) as [cs' [m' ch']] eqn:Hev.
    cbn [portOutputs].
    eapply evalComponents_dom; [| |exact Hev|exact IH].
    + rewrite (Forall2_sameShape_allKeys _ _ Hsh). apply Hwf.
    + intros c Hc. apply (Forall2_sameShape_elem _ _ _ Hsh Hc).
Qed.

Lemma lookup_components st i c : components st !! i = Some c -> c ∈ components st.
Proof. intros H. apply list_elem_of_lookup. eauto. Qed.

Lemma computeColors_exitLoop st :
  exists r, exitLoop st = Some r
            /\ computeColors st = (set_components st (ls_components r), portOutputs r).
Proof.
  destruct (exitLoop_stops st) as (r & Hexit & _ & Hcc). eauto.
Qed.

(** X13. [computeColors] changes nothing of the state but the colours
    the storages hold: the components stay in their order with their id,
    type, colour, ports and mode, a component that is no storage stays
    as it is, and the connections, the selection and the id counter
    stay. *)
Theorem computeColors_frame (st : state) :
  let st' := fst (computeColors st) in
  Forall2 (fun c c' => sameShape c c' /\ (comp_type c <> storage -> c' = c))
    (components st) (components st')
  /\ connections st' = connections st
  /\ selectedPort st' = selectedPort st
  /\ idCounter st' = idCounter st.
Proof.
  cbv zeta. split; [|split; [|split]].
  - apply computeColors_along.
    + intros c. split; [apply sameShape_refl|reflexivity].
    + intros a b c [Hab Hab'] [Hbc Hbc']. split.
      * eapply sameShape_trans; eassumption.
      * intros T. rewrite Hbc', Hab'; try exact T; [reflexivity|].
        rewrite (Hab' T). exact T.
    + intros conns c acc. split; [apply evalComponent_shape|].
      apply evalComponent_other.
  - apply computeColors_connections.
  - apply computeColors_selectedPort.
  - apply computeColors_idCounter.
Qed.

(** X14. In every state the operations reach, every colour of the map
    [computeColors] returns sits at the key of a port of a component of
    the grid, and that port is not an Input port. *)
Theorem colours_at_written_ports (st : state) (k : string) (v : color) :
  reachable st ->
  getOutput (snd (computeColors st)) k = Some v ->
  exists c p, c ∈ components st /\ p ∈ comp_ports c /\ k = keyOf c p
              /\ port_role p <> input.
Proof.
  intros H Hk. apply reachable_wellFormed in H.
  destruct (computeColors_exitLoop st) as (r & Hexit & Hcc).
  rewrite Hcc in Hk. cbn [snd] in Hk.
  apply exitLoop_rounds in Hexit as [n Hr]. rewrite <- Nat.iter_succ in Hr.
  subst r. destruct (rounds_dom st (S n) H k v Hk) as (c & p & Hc & Hp & Hkey & Hw).
  exists c, p. repeat split; try assumption. eapply writesAt_role, Hw.
Qed.


Lemma two_ports (c : component) (r1 r2 : Role) :
  List.map port_role (comp_ports c) = [r1; r2] ->
  exists p1 p2, comp_ports c = [p1; p2] /\ port_role p1 = r1 /\ port_role p2 = r2.
Proof.
  destruct (comp_ports c) as [|p1 [|p2 [|p3 ps]]]; try discriminate.
  intros [= H1 H2]. eauto.
Qed.

(** X16. In every state the operations reach, when [computeColors]
    stops because its last round changed nothing, the Output port of a
    gradientor has, in the map returned, [adjustColor] of what its Input
    port reads in that map, darkened when the mode is [darken] and
    brightened otherwise. *)
Theorem gradientor_output_converged (st : state) (r : loopState)
    (c : component) (pin pout : port) :
  reachable st ->
  exitLoop st = Some r -> changed r = false ->
  c ∈ components st -> comp_type c = gradientor ->
  pin ∈ comp_ports c -> port_role pin = input ->
  pout ∈ comp_ports c -> port_role pout = output ->
  getOutput (portOutputs r) (keyOf c pout)
  = adjustColor
      (inboundColor (connections st) (portOutputs r) (comp_id c) (port_id pin))
      (match comp_mode c with Some darken => darken | _ => lighten end).
Proof.
  intros H Hexit Hch Hc T Hin Rin Hout Rout.
  pose proof (reachable_built st H) as Hb. rewrite Forall_forall in Hb.
  destruct (Hb c Hc) as [Hlay _]. rewrite T in Hlay. cbn [layout] in Hlay.
  destruct (two_ports c _ _ Hlay) as (p1 & p2 & Hports & R1 & R2).
  rewrite Hports in Hin, Hout.
  assert (pin = p1) as ->.
  { apply elem_of_cons in Hin as [->|Hin]; [reflexivity|].
    apply list_elem_of_singleton in Hin. subst pin. congruence. }
  assert (pout = p2) as ->.
  { apply elem_of_cons in Hout as [->|Hout]; [congruence|].
    apply list_elem_of_singleton in Hout. exact Hout. }
  apply reachable_wellFormed in H.
  apply list_elem_of_lookup in Hc as [i Hi].
  destruct (exit_converged st r i c H Hexit Hch Hi) as (c' & _ & Hshape & Hget).
  assert (find (fun q => hasRole output q) (comp_ports c) = Some p2) as Hfo.
  { rewrite Hports. cbn. unfold hasRole.
    rewrite bool_decide_eq_false_2 by congruence.
    rewrite bool_decide_eq_true_2 by exact R2. reflexivity. }
  assert (find (fun q => hasRole input q) (comp_ports c) = Some p1) as Hfi.
  { rewrite Hports. cbn. unfold hasRole.
    rewrite bool_decide_eq_true_2 by exact R1. reflexivity. }
  assert (writesAt c p2 = true) as Hw.
  { unfold writesAt. rewrite T. apply bool_decide_eq_true, Hfo. }
  rewrite (Hget p2); [|rewrite Hports; apply elem_of_cons; right; left|exact Hw].
  unfold emitted. pose proof Hshape as (_ & Hty & _).
  rewrite (sameShape_writesAt _ _ _ Hshape), Hw, Hty, T,
    (sameShape_gradientorColor _ _ _ _ Hshape).
  unfold gradientorColor. rewrite Hfi. reflexivity.
Qed.


(* ================================================================== *)
(** ** The order of the numbers                                        *)
(* ================================================================== *)

Lemma SFcompare_rank x y :
  x <> S754_nan -> y <> S754_nan ->
  exists c, SFcompare x y = Some c
            /\ match c with
               | Lt => lexlt (rank x) (rank y)
               | Eq => rank x = rank y
               | Gt => lexlt (rank y) (rank x)
               end.
Proof.
  intros Hx Hy.
  destruct x as [s1|s1| |s1 m1 e1], y as [s2|s2| |s2 m2 e2]; try congruence;
    cbn [SFcompare rank]; try (destruct s1); try (destruct s2);
    try (eexists; split; [reflexivity|]; unfold lexlt; cbn; (reflexivity || lia)).
  - change (Pos.compare_cont Eq m1 m2) with (Pos.compare m1 m2).
    destruct (Z.compare_spec e1 e2) as [He|He|He];
      [destruct (Pos.compare_spec m1 m2) as [Hm|Hm|Hm]| |];
      eexists; (split; [reflexivity|]); unfold lexlt; cbn; try lia.
    subst. reflexivity.
  - change (Pos.compare_cont Eq m1 m2) with (Pos.compare m1 m2).
    destruct (Z.compare_spec e1 e2) as [He|He|He];
      [destruct (Pos.compare_spec m1 m2) as [Hm|Hm|Hm]| |];
      eexists; (split; [reflexivity|]); unfold lexlt; cbn; try lia.
    subst. reflexivity.
Qed.

Lemma is_nan_spec (x : number) : is_nan x = true <-> Prim2SF x = S754_nan.
Proof.
  unfold is_nan. rewrite FloatAxioms.eqb_spec. unfold SFeqb.
  destruct (Prim2SF x) as [s|s| |s m e] eqn:Hx.
  - cbn. split; discriminate.
  - cbn. destruct s; split; discriminate.
  - cbn. split; reflexivity.
  - destruct (SFcompare_rank (S754_finite s m e) (S754_finite s m e))
      as (c & -> & Hc); try discriminate.
    destruct c; cbn; try (split; discriminate);
      unfold lexlt in Hc; cbn in Hc; lia.
Qed.

Lemma is_nan_false (x : number) : is_nan x = false <-> Prim2SF x <> S754_nan.
Proof. rewrite <- is_nan_spec. destruct (is_nan x); split; congruence. Qed.

Lemma SFcompare_nan x y :
  x = S754_nan \/ y = S754_nan -> SFcompare x y = None.
Proof. intros [->| ->]; [reflexivity|]. destruct x as [s|s| |s m e]; reflexivity. Qed.

(** How two numbers compare: not at all when one is NaN, by their ranks
    otherwise. *)
Lemma compare_cases (x y : number) :
  (SFcompare (Prim2SF x) (Prim2SF y) = None
   /\ (is_nan x = true \/ is_nan y = true))
  \/ (is_nan x = false /\ is_nan y = false
      /\ exists c, SFcompare (Prim2SF x) (Prim2SF y) = Some c
                   /\ match c with
                      | Lt => lexlt (rank (Prim2SF x)) (rank (Prim2SF y))
                      | Eq => rank (Prim2SF x) = rank (Prim2SF y)
                      | Gt => lexlt (rank (Prim2SF y)) (rank (Prim2SF x))
                      end).
Proof.
  destruct (is_nan x) eqn:Hx; [left|];
    [split; [apply SFcompare_nan; left; apply is_nan_spec, Hx|left; reflexivity]|].
  destruct (is_nan y) eqn:Hy; [left|];
    [split; [apply SFcompare_nan; right; apply is_nan_spec, Hy|right; reflexivity]|].
  right. split; [reflexivity|]. split; [reflexivity|].
  apply SFcompare_rank; apply is_nan_false; assumption.
Qed.

Lemma lexlt_irrefl a : ~ lexlt a a.
Proof. unfold lexlt. lia. Qed.

Lemma lexlt_asym a b : lexlt a b -> ~ lexlt b a.
Proof. unfold lexlt. lia. Qed.

Lemma lexlt_trans a b c : lexlt a b -> lexlt b c -> lexlt a c.
Proof. unfold lexlt. lia. Qed.

Lemma flt_rank (x y : number) :
  flt x y <->
  is_nan x = false /\ is_nan y = false
  /\ lexlt (rank (Prim2SF x)) (rank (Prim2SF y)).
Proof.
  unfold flt. rewrite FloatAxioms.ltb_spec. unfold SFltb.
  destruct (compare_cases x y) as [[-> Hnan]|(Hx & Hy & c & -> & Hc)].
  - split; [discriminate|]. intros (Hx & Hy & _). destruct Hnan; congruence.
  - destruct c.
    + split; [discriminate|]. intros (_ & _ & H). rewrite Hc in H.
      destruct (lexlt_irrefl _ H).
    + split; auto.
    + split; [discriminate|]. intros (_ & _ & H). destruct (lexlt_asym _ _ H Hc).
Qed.

Lemma fle_rank (x y : number) :
  fle x y <->
  is_nan x = false /\ is_nan y = false
  /\ (lexlt (rank (Prim2SF x)) (rank (Prim2SF y))
      \/ rank (Prim2SF x) = rank (Prim2SF y)).
Proof.
  unfold fle. rewrite FloatAxioms.leb_spec. unfold SFleb.
  destruct (compare_cases x y) as [[-> Hnan]|(Hx & Hy & c & -> & Hc)].
  - split; [discriminate|]. intros (Hx & Hy & _). destruct Hnan; congruence.
  - destruct c.
    + split; auto.
    + split; auto.
    + split; [discriminate|]. intros (_ & _ & [H|H]).
      * destruct (lexlt_asym _ _ H Hc).
      * rewrite H in Hc. destruct (lexlt_irrefl _ Hc).
Qed.

Lemma feq_rank (x y : number) :
  (x =? y)%float = true <->
  is_nan x = false /\ is_nan y = false
  /\ rank (Prim2SF x) = rank (Prim2SF y).
Proof.
  rewrite FloatAxioms.eqb_spec. unfold SFeqb.
  destruct (compare_cases x y) as [[-> Hnan]|(Hx & Hy & c & -> & Hc)].
  - split; [discriminate|]. intros (Hx & Hy & _). destruct Hnan; congruence.
  - destruct c.
    + split; auto.
    + split; [discriminate|]. intros (_ & _ & H). rewrite H in Hc.
      destruct (lexlt_irrefl _ Hc).
    + split; [discriminate|]. intros (_ & _ & H). rewrite H in Hc.
      destruct (lexlt_irrefl _ Hc).
Qed.

Lemma flt_false (x y : number) :
  (x <? y)%float = false <->
  is_nan x = true \/ is_nan y = true
  \/ lexlt (rank (Prim2SF y)) (rank (Prim2SF x))
  \/ rank (Prim2SF x) = rank (Prim2SF y).
Proof.
  pose proof (flt_rank x y) as H. unfold flt in H.
  destruct (x <? y)%float.
  - split; [discriminate|]. destruct H as [H _].
    destruct (H eq_refl) as (Hx & Hy & Hlt).
    intros [Hn|[Hn|[Hgt|Heq]]]; try congruence.
    + destruct (lexlt_asym _ _ Hlt Hgt).
    + rewrite Heq in Hlt. destruct (lexlt_irrefl _ Hlt).
  - split; [intros _|reflexivity].
    destruct (compare_cases x y) as [[_ [Hn|Hn]]|(Hx & Hy & c & Hcmp & Hc)]; auto.
    destruct c; auto. exfalso. destruct H as [_ H]. discriminate H. auto.
Qed.

Lemma triple_eq (a b : Z * Z * Z) :
  a = b <-> (a.1.1 = b.1.1 /\ a.1.2 = b.1.2 /\ a.2 = b.2)%Z.
Proof.
  destruct a as [[a1 a2] a3], b as [[b1 b2] b3]. cbn.
  split; [intros [= -> -> ->]; auto|intros (-> & -> & ->); reflexivity].
Qed.

(** Goals on the order of numbers become linear arithmetic on ranks. *)
Ltac forder :=
  repeat match goal with
         | H : flt _ _ |- _ => apply flt_rank in H; destruct H as (? & ? & ?)
         | H : fle _ _ |- _ => apply fle_rank in H; destruct H as (? & ? & ?)
         | H : (_ <? _)%float = true |- _ =>
             apply flt_rank in H; destruct H as (? & ? & ?)
         | H : (_ <? _)%float = false |- _ => apply flt_false in H
         | |- flt _ _ => apply flt_rank; split; [|split]
         | |- fle _ _ => apply fle_rank; split; [|split]
         end;
  rewrite ?triple_eq in *; unfold lexlt in *;
  try congruence; try lia; try (intuition (congruence || lia)).

Lemma min2_nan x y :
  is_nan x = true \/ is_nan y = true -> min2 x y = nan.
Proof.
  unfold min2. intros [-> | ->]; [reflexivity|].
  rewrite orb_true_r. reflexivity.
Qed.

Lemma max2_nan x y :
  is_nan x = true \/ is_nan y = true -> max2 x y = nan.
Proof.
  unfold max2. intros [-> | ->]; [reflexivity|].
  rewrite orb_true_r. reflexivity.
Qed.

(** [Math.min] of two numbers is one of them and is not above either. *)
Lemma min2_spec x y :
  is_nan x = false -> is_nan y = false ->
  (min2 x y = x \/ min2 x y = y) /\ fle (min2 x y) x /\ fle (min2 x y) y.
Proof.
  intros Hx Hy. unfold min2. rewrite Hx, Hy. cbn [orb].
  destruct (x <? y)%float eqn:Hxy; [split; [left; reflexivity|]; split; forder|].
  destruct (y <? x)%float eqn:Hyx; [split; [right; reflexivity|]; split; forder|].
  destruct (get_sign x);
    (split; [(left; reflexivity) || (right; reflexivity)|]); split; forder.
Qed.

(** [Math.max] of two numbers is one of them and is not below either. *)
Lemma max2_spec x y :
  is_nan x = false -> is_nan y = false ->
  (max2 x y = x \/ max2 x y = y) /\ fle x (max2 x y) /\ fle y (max2 x y).
Proof.
  intros Hx Hy. unfold max2. rewrite Hx, Hy. cbn [orb].
  destruct (x <? y)%float eqn:Hxy; [split; [right; reflexivity|]; split; forder|].
  destruct (y <? x)%float eqn:Hyx; [split; [left; reflexivity|]; split; forder|].
  destruct (get_sign x);
    (split; [(left; reflexivity) || (right; reflexivity)|]); split; forder.
Qed.

Lemma is_nan_min2 x y : is_nan (min2 x y) = is_nan x || is_nan y.
Proof.
  destruct (is_nan x) eqn:Hx; [rewrite min2_nan by auto; reflexivity|].
  destruct (is_nan y) eqn:Hy; [rewrite min2_nan by auto; reflexivity|].
  destruct (min2_spec x y Hx Hy) as ([-> | ->] & _); assumption.
Qed.

Lemma is_nan_max2 x y : is_nan (max2 x y) = is_nan x || is_nan y.
Proof.
  destruct (is_nan x) eqn:Hx; [rewrite max2_nan by auto; reflexivity|].
  destruct (is_nan y) eqn:Hy; [rewrite max2_nan by auto; reflexivity|].
  destruct (max2_spec x y Hx Hy) as ([-> | ->] & _); assumption.
Qed.

(* ================================================================== *)
(** ** Colours that equal themselves                                   *)
(* ================================================================== *)

Lemma strict_eq_sym (a b : number) : strict_eq a b = strict_eq b a.
Proof.
  unfold strict_eq.
  destruct (a =? b)%float eqn:Hab, (b =? a)%float eqn:Hba; try reflexivity.
  - apply feq_rank in Hab as (Ha & Hb & Hr).
    assert ((b =? a)%float = true) by (apply feq_rank; auto). congruence.
  - apply feq_rank in Hba as (Hb & Ha & Hr).
    assert ((a =? b)%float = true) by (apply feq_rank; auto). congruence.
Qed.

Lemma strict_eq_refl (a : number) : strict_eq a a = negb (is_nan a).
Proof. unfold strict_eq, is_nan. rewrite negb_involutive. reflexivity. Qed.

Lemma strict_eq_right (a b : number) : strict_eq a b = true -> strict_eq b b = true.
Proof.
  unfold strict_eq. intros H. apply feq_rank in H as (_ & Hb & _).
  apply feq_rank. auto.
Qed.

Lemma colorsEqual_sym (a b : option color) : colorsEqual a b = colorsEqual b a.
Proof.
  destruct a as [[[a0 a1] a2]|], b as [[[b0 b1] b2]|]; try reflexivity. cbn.
  rewrite (strict_eq_sym a0), (strict_eq_sym a1), (strict_eq_sym a2). reflexivity.
Qed.

Lemma colorsEqual_right (a b : option color) :
  colorsEqual a b = true -> colorsEqual b b = true.
Proof.
  destruct a as [[[a0 a1] a2]|], b as [[[b0 b1] b2]|]; try discriminate;
    [|reflexivity].
  cbn. rewrite !andb_true_iff. intros [[H0 H1] H2].
  repeat split; eapply strict_eq_right; eassumption.
Qed.

(** X18. [colorsEqual] is symmetric, and a colour equals itself exactly
    when none of its channels is NaN; [null] equals itself. *)
Theorem colorsEqual_sym_refl (a b : option color) (r g bl : number) :
  colorsEqual a b = colorsEqual b a
  /\ colorsEqual (Some (r, g, bl)) (Some (r, g, bl))
     = negb (is_nan r || is_nan g || is_nan bl)
  /\ colorsEqual None None = true.
Proof.
  split; [apply colorsEqual_sym|]. split; [|reflexivity].
  cbn. rewrite !strict_eq_refl.
  destruct (is_nan r), (is_nan g), (is_nan bl); reflexivity.
Qed.

(** X19. Setting again the colour just set reports no change and leaves
    the map, when the colour equals itself; the key then reads a colour
    equal to the one set, and the other keys read what they read
    before. *)
Theorem setPortOutput_again (m : outputs) (k : string) (c : option color) :
  colorsEqual c c = true ->
  let m' := fst (setPortOutput m k c) in
  setPortOutput m' k c = (m', false)
  /\ colorsEqual (getOutput m' k) c = true
  /\ forall k', k' <> k -> getOutput m' k' = getOutput m k'.
Proof.
  intros Hc m'. subst m'.
  assert (colorsEqual (getOutput (fst (setPortOutput m k c)) k) c = true) as Heq.
  { unfold setPortOutput. destruct (colorsEqual (getOutput m k) c) eqn:Hcur;
      cbn [fst]; [exact Hcur|].
    rewrite getOutput_insert. rewrite decide_True by reflexivity. exact Hc. }
  split; [|split; [exact Heq|]].
  - unfold setPortOutput at 1. rewrite Heq. reflexivity.
  - intros k' Hne. rewrite setPortOutput_get.
    rewrite decide_False by congruence. reflexivity.
Qed.

(* ================================================================== *)
(** ** A colour that does not equal itself                             *)
(* ================================================================== *)

Lemma emitAll_loud cid ps c m ch :
  colorsEqual c c = false -> ps <> [] ->
  snd (emitAll cid ps c (m, ch)) = true.
Proof.
  intros Hc Hps. destruct (emitAll cid ps c (m, ch)) as [m' ch'] eqn:He.
  destruct ch'; [reflexivity|]. exfalso.
  apply emitAll_quiet in He as (_ & _ & Hall).
  destruct ps as [|p ps]; [congruence|].
  apply Forall_cons in Hall as [Hp _].
  apply colorsEqual_right in Hp. congruence.
Qed.

Lemma evalComponents_sticky conns cs :
  forall acc, snd acc = true -> snd (snd (evalComponents conns cs acc)) = true.
Proof.
  intros [m ch] Hch. cbn in Hch. subst ch.
  destruct (evalComponents conns cs (m, true)) as [cs' [m' ch']] eqn:He.
  destruct ch'; [reflexivity|].
  apply evalComponents_quiet in He as (He & _). discriminate.
Qed.

Lemma evalComponents_loud conns cs c :
  c ∈ cs -> (forall acc, snd (snd (evalComponent conns c acc)) = true) ->
  forall acc, snd (snd (evalComponents conns cs acc)) = true.
Proof.
  intros Hin Hloud. induction cs as [|d cs IH]; intros acc; [inversion Hin|].
  cbn [evalComponents].
  destruct (evalComponent conns d acc) as [d1 acc1] eqn:Hd.
  apply elem_of_cons in Hin as [->|Hin].
  - pose proof (Hloud acc) as H1. rewrite Hd in H1. cbn in H1.
    pose proof (evalComponents_sticky conns cs acc1 H1) as H2.
    destruct (evalComponents conns cs acc1) as [cs1 acc2]. exact H2.
  - specialize (IH Hin acc1).
    destruct (evalComponents conns cs acc1) as [cs1 acc2]. exact IH.
Qed.

(** X20. A factory with an Output port whose colour does not equal
    itself, one of its channels being NaN, keeps [computeColors] from
    converging: the loop runs its eight rounds and the last one still
    reports a change. *)
Theorem nan_factory_never_converges (st : state) (c : component) (p : port) :
  c ∈ components st -> comp_type c = factory ->
  p ∈ comp_ports c -> port_role p = output ->
  colorsEqual (comp_color c) (comp_color c) = false ->
  exists r, exitLoop st = Some r /\ guard r = 8 /\ changed r = true.
Proof.
  intros Hc T Hp Hrole Hnan.
  destruct (exitLoop_stops st) as (r & Hexit & Hstop & _).
  exists r. split; [exact Hexit|].
  enough (changed r = true) as Hch
      by (split; [destruct Hstop; congruence|exact Hch]).
  apply exitLoop_rounds in Hexit as [n ->].
  set (s := Nat.iter n (round (connections st)) (enterLoop st)).
  pose proof (rounds_along (fun c c' => comp_type c <> storage -> c' = c)
                (fun c _ => eq_refl)) as Hal.
  specialize (Hal (fun a b d Hab Hbd Ta =>
                     eq_trans (Hbd (eq_ind_r (fun x => comp_type x <> storage)
                                      Ta (Hab Ta))) (Hab Ta))
                  (fun conns c acc => evalComponent_other conns c acc)
                  (connections st) n (enterLoop st)).
  fold s in Hal. cbn [enterLoop ls_components] in Hal.
  assert (c ∈ ls_components s) as Hin.
  { apply list_elem_of_lookup in Hc as [i Hi].
    destruct (Forall2_lookup_l _ _ _ _ _ Hal Hi) as (c' & Hc' & Heq).
    rewrite Heq in Hc' by (rewrite T; discriminate).
    apply list_elem_of_lookup. eauto. }
  unfold round.
  pose proof (evalComponents_loud (connections st) (ls_components s) c Hin) as Hl.
  destruct (evalComponents (connections st) (ls_components s)
              (portOutputs s, false)) as [cs' [m' ch']] eqn:Hev.
  cbn [changed].
  assert (forall acc, snd (snd (evalComponent (connections st) c acc)) = true) as Hloud.
  { intros [m ch]. unfold evalComponent. rewrite T. cbn [snd].
    apply emitAll_loud; [exact Hnan|].
    intros Hnil. assert (p ∈ filter (fun q => hasRole output q) (comp_ports c)) as Hf
      by (apply elem_of_role_filter; auto).
    rewrite Hnil in Hf. inversion Hf. }
  specialize (Hl Hloud (portOutputs s, false)). rewrite Hev in Hl. exact Hl.
Qed.

(* ================================================================== *)
(** ** Channels stay in the gamut                                      *)
(* ================================================================== *)

Lemma adjustColor_channels (r g b : number) (mode : Mode) :
  adjustColor (Some (r, g, b)) mode
  = Some (adjustChannel mode r, adjustChannel mode g, adjustChannel mode b).
Proof. destruct mode; reflexivity. Qed.

(** [Math.max(0, Math.min(255, t))] is NaN or lies between 0 and 255. *)
Lemma clamp_gamut (t : number) : inGamut (Math_max 0 (Math_min 255 t)).
Proof.
  unfold inGamut, Math_max, Math_min.
  destruct (is_nan t) eqn:Ht.
  - left. rewrite is_nan_max2, is_nan_min2, Ht. reflexivity.
  - right.
    assert (is_nan 255%float = false) as H255 by reflexivity.
    assert (is_nan 0%float = false) as H0 by reflexivity.
    destruct (min2_spec 255 t H255 Ht) as (Hn & Hle & _).
    assert (is_nan (min2 255 t) = false) as Hnn
      by (rewrite is_nan_min2, Ht; reflexivity).
    destruct (max2_spec 0 (min2 255 t) H0 Hnn) as ([Hr|Hr] & Hlo & _).
    + rewrite Hr. split; reflexivity.
    + split; [exact Hlo|]. rewrite Hr. exact Hle.
Qed.

(** X21. [adjustColor] of a colour is a colour each channel of which is
    NaN or lies between 0 and 255, whatever the channels given; and
    [adjustColor] of [null] is [null]. *)
Theorem adjustColor_gamut (c : color) (mode : Mode) :
  (exists v, adjustColor (Some c) mode = Some v /\ channels inGamut v)
  /\ adjustColor None mode = None.
Proof.
  split; [|reflexivity]. destruct c as [[r g] b].
  rewrite adjustColor_channels. eexists. split; [reflexivity|].
  repeat split; apply clamp_gamut.
Qed.

Lemma agreeBelow_spec n f g :
  agreeBelow n f g = true ->
  forall z, (0 <= z < Z.of_nat n)%Z -> f z = g z.
Proof.
  unfold agreeBelow. rewrite forallb_forall. intros H z Hz.
  specialize (H (Z.to_nat z)). rewrite Z2Nat.id in H by lia.
  apply FloatAxioms.Leibniz.eqb_spec, H, in_seq. lia.
Qed.

Lemma adjustChannel_darken (z : Z) :
  (0 <= z <= 255)%Z ->
  adjustChannel darken (of_Z z) = of_Z ((8 * z + 5) / 10).
Proof.
  intros Hz.
  apply (agreeBelow_spec 256
           (fun z => adjustChannel darken (of_Z z))
           (fun z => of_Z ((8 * z + 5) / 10))); [vm_compute; reflexivity|lia].
Qed.

Lemma adjustChannel_lighten (z : Z) :
  (0 <= z <= 255)%Z ->
  adjustChannel lighten (of_Z z) = of_Z (Z.min 255 ((12 * z + 5) / 10)).
Proof.
  intros Hz.
  apply (agreeBelow_spec 256
           (fun z => adjustChannel lighten (of_Z z))
           (fun z => of_Z (Z.min 255 ((12 * z + 5) / 10))));
    [vm_compute; reflexivity|lia].
Qed.

(** X22. On a colour whose channels are integers from 0 to 255,
    [adjustColor] returns such a colour again: darkening takes a channel
    [v] to [0.8 v] rounded to the nearest integer, and brightening takes
    it to [1.2 v] rounded to the nearest integer and capped at 255. *)
Theorem adjustColor_8bit (r g b : Z) :
  (0 <= r <= 255)%Z -> (0 <= g <= 255)%Z -> (0 <= b <= 255)%Z ->
  adjustColor (Some (rgb r g b)) darken
  = Some (rgb ((8 * r + 5) / 10) ((8 * g + 5) / 10) ((8 * b + 5) / 10))
  /\ adjustColor (Some (rgb r g b)) lighten
     = Some (rgb (Z.min 255 ((12 * r + 5) / 10)) (Z.min 255 ((12 * g + 5) / 10))
               (Z.min 255 ((12 * b + 5) / 10))).
Proof.
  intros Hr Hg Hb. unfold rgb. rewrite !adjustColor_channels.
  rewrite !adjustChannel_darken, !adjustChannel_lighten by assumption.
  split; reflexivity.
Qed.

(* ================================================================== *)
(** ** Rounding a clamped channel                                      *)
(* ================================================================== *)

Lemma digits2_pos_bound (m : positive) : (Zpos m < 2 ^ Zpos (digits2_pos m))%Z.
Proof.
  induction m as [m IH|m IH|]; cbn [digits2_pos]; [| |reflexivity];
    rewrite Pos2Z.inj_succ, Z.pow_succ_r by lia; lia.
Qed.

(** The mantissa of a number has 53 bits at most. *)
Lemma mantissa_bound (x : number) s m e :
  Prim2SF x = S754_finite s m e -> (Zpos m < 2 ^ 53)%Z.
Proof.
  intros Hx. pose proof (Prim2SF_valid x) as Hv. rewrite Hx in Hv.
  cbn [valid_binary] in Hv. unfold bounded, canonical_mantissa in Hv.
  apply andb_true_iff in Hv as [Hc _]. apply Z.eqb_eq in Hc.
  unfold fexp in Hc.
  assert (Zpos (digits2_pos m) <= 53)%Z as Hd.
  { change prec with 53%Z in Hc. lia. }
  eapply Z.lt_le_trans; [apply digits2_pos_bound|].
  apply Z.pow_le_mono_r; lia.
Qed.

(** A number above zero and not above 255, as a mantissa and an
    exponent. *)
Lemma positive_below_255 (c : number) :
  flt 0 c -> fle c 255 ->
  exists m e, Prim2SF c = S754_finite false m e
              /\ (e < -45 \/ (e = -45 /\ Zpos m <= 8972014882652160))%Z.
Proof.
  intros Hlo Hhi. apply flt_rank in Hlo as (_ & _ & Hlo).
  apply fle_rank in Hhi as (Hn & _ & Hhi).
  change (rank (Prim2SF 0)) with (0, 0, 0)%Z in Hlo.
  change (rank (Prim2SF 255)) with (1, -45, 8972014882652160)%Z in Hhi.
  rewrite triple_eq in Hhi. unfold lexlt in *.
  destruct (Prim2SF c) as [s|s| |s m e] eqn:Hc; cbn [rank] in *.
  - cbn in *. lia.
  - destruct s; cbn in *; lia.
  - cbn in *. lia.
  - destruct s; cbn in *; [lia|]. exists m, e. split; [reflexivity|lia].
Qed.

Lemma round_quotient_bound (m : positive) (e : Z) :
  (Zpos m < 2 ^ 53)%Z ->
  (e < -45 \/ (e = -45 /\ Zpos m <= 8972014882652160))%Z ->
  (0 <= Z.shiftr (2 * Zpos m + 2 ^ (- e)) (- e + 1) <= 255)%Z.
Proof.
  intros Hm He. rewrite Z.shiftr_div_pow2 by lia.
  assert (0 < 2 ^ (- e))%Z as Hpos by (apply Z.pow_pos_nonneg; lia).
  rewrite Z.pow_add_r, Z.pow_1_r by lia.
  split; [apply Z.div_pos; lia|].
  apply Z.lt_succ_r, Z.div_lt_upper_bound; [lia|].
  destruct He as [He|[-> Hm']].
  - assert (2 ^ 54 <= 2 ^ (- e + 8))%Z as Hp by (apply Z.pow_le_mono_r; lia).
    rewrite Z.pow_add_r in Hp by lia.
    change (2 ^ 54)%Z with (2 * 2 ^ 53)%Z in Hp. change (2 ^ 8)%Z with 256%Z in Hp.
    lia.
  - change (- -45)%Z with 45%Z. change (2 ^ 45)%Z with 35184372088832%Z. lia.
Qed.

(** [Math.round] of a channel clamped to [0, 255] is NaN or an integer
    from 0 to 255. *)
Lemma round_clamp (x : number) :
  eightBitOrNaN (Math_round (Math_min 255 (Math_max 0 x))).
Proof.
  unfold eightBitOrNaN, Math_min, Math_max.
  destruct (is_nan x) eqn:Hx.
  { left. rewrite (max2_nan 0 x) by auto. reflexivity. }
  right.
  assert (is_nan 255%float = false) as H255 by reflexivity.
  assert (is_nan 0%float = false) as H0 by reflexivity.
  (* the clamped channel is [+0] or lies above zero *)
  assert (max2 0 x = 0%float \/ flt 0 (max2 0 x)) as Hn.
  { unfold max2. rewrite H0, Hx. cbn [orb].
    destruct (0 <? x)%float eqn:Hlt; [right; exact Hlt|].
    destruct (x <? 0)%float; [left; reflexivity|].
    change (get_sign 0) with false. left. reflexivity. }
  set (n := max2 0 x) in *.
  assert (is_nan n = false) as Hnn
    by (unfold n; rewrite is_nan_max2, Hx; reflexivity).
  destruct (min2_spec 255 n H255 Hnn) as (Hc & Hle & _).
  set (c := min2 255 n) in *.
  assert (c = 0%float \/ flt 0 c) as Hpos.
  { destruct Hc as [-> | ->]; [right; reflexivity|exact Hn]. }
  destruct Hpos as [-> |Hpos].
  { exists 0%Z. split; [lia|reflexivity]. }
  destruct (positive_below_255 c Hpos Hle) as (m & e & Hsf & He).
  pose proof (mantissa_bound c _ _ _ Hsf) as Hm.
  pose proof (round_quotient_bound m e Hm He) as Hq.
  unfold Math_round. rewrite Hsf.
  replace (0 <=? e)%Z with false by (symmetry; apply Z.leb_gt; lia).
  cbn [cond_Zopp]. cbv zeta.
  destruct (Z.eqb_spec (Z.shiftr (2 * Zpos m + 2 ^ (- e)) (- e + 1)) 0) as [Hz|Hz].
  - exists 0%Z. split; [lia|reflexivity].
  - eexists. split; [exact Hq|reflexivity].
Qed.

(** X23. Each channel of the colour [rybToRgb] returns, and so of the
    colour [mixColors] returns, is NaN or an integer from 0 to 255,
    whatever the channels given. *)
Theorem mixed_channels_8bit (ryb a b : color) :
  channels eightBitOrNaN (rybToRgb ryb)
  /\ channels eightBitOrNaN (mixColors a b).
Proof.
  assert (forall c, channels eightBitOrNaN (rybToRgb c)) as H.
  { intros c. unfold rybToRgb, channels. cbv zeta. cbn [channel].
    repeat split; apply round_clamp. }
  split; [apply H|]. unfold mixColors. cbv zeta. apply H.
Qed.

(** X24. [rybToRgb] takes each of the eight corners of the RYB cube to
    the colour the table [COLORS] lists for it: white, blue, yellow,
    green, red, purple, orange and black. *)
Theorem rybToRgb_corners (r y b : bool) :
  Some (rybToRgb (cubeEnd r, cubeEnd y, cubeEnd b))
  = COLORS !! cornerIndex r y b.
Proof. destruct r, y, b; vm_compute; reflexivity. Qed.

(* ================================================================== *)
(** ** The position of a component on the board                        *)
(* ================================================================== *)

(** Two numbers of the same rank that are not zero are the same. *)
Lemma rank_eq_nonzero (x y : number) :
  is_nan x = false -> is_nan y = false ->
  rank (Prim2SF x) = rank (Prim2SF y) -> rank (Prim2SF x) <> (0, 0, 0)%Z ->
  x = y.
Proof.
  intros Hx Hy Hr Hnz. apply is_nan_false in Hx, Hy.
  rewrite <- (SF2Prim_Prim2SF x), <- (SF2Prim_Prim2SF y). f_equal.
  destruct (Prim2SF x) as [s1|s1| |s1 m1 e1], (Prim2SF y) as [s2|s2| |s2 m2 e2];
    try congruence; cbn [rank] in *;
    try (destruct s1); try (destruct s2); try discriminate; try congruence.
  injection Hr as He Hm. f_equal; lia.
Qed.

(** [Math.max(8, Math.min(x, limit))]: the coordinate is kept when it
    lies between 8 and the limit, and moved to the nearer of the two
    otherwise; when the limit lies below 8 the coordinate is 8. *)
Lemma clamp8_spec (x limit : number) :
  is_nan x = false -> is_nan limit = false ->
  let r := Math_max 8 (Math_min x limit) in
  fle 8 r
  /\ (fle 8 limit -> fle r limit)
  /\ (fle 8 x -> fle x limit -> r = x)
  /\ (flt limit 8 -> r = 8%float)
  /\ (flt x 8 -> r = 8%float)
  /\ (fle 8 limit -> flt limit x -> r = limit).
Proof.
  intros Hx Hl r. subst r. unfold Math_max, Math_min.
  assert (is_nan 8%float = false) as H8 by reflexivity.
  destruct (min2_spec x limit Hx Hl) as (Hn & Hnx & Hnl).
  assert (is_nan (min2 x limit) = false) as Hnn
    by (rewrite is_nan_min2, Hx, Hl; reflexivity).
  destruct (max2_spec 8 (min2 x limit) H8 Hnn) as (Hr & Hlo & Hhi).
  split; [exact Hlo|]. split; [|split; [|split; [|split]]].
  - intros H8l. destruct Hr as [-> | ->]; assumption.
  - intros H8x Hxl.
    assert (min2 x limit = x) as ->.
    { destruct Hn as [Hn|Hn]; [exact Hn|]. rewrite Hn in *.
      symmetry. apply rank_eq_nonzero; try assumption.
      - clear -Hnx Hxl. solve [forder].
      - clear -H8x. apply fle_rank in H8x as (_ & _ & H).
        change (rank (Prim2SF 8)) with (1, -49, 4503599627370496)%Z in H.
        intros H0. rewrite H0 in H. rewrite triple_eq in H. unfold lexlt in H.
        cbn in H. lia. }
    clear Hr Hlo Hhi Hn Hnx Hnl Hnn.
    destruct (max2_spec 8 x H8 Hx) as ([Hr|Hr] & Hlo & Hhi); [|exact Hr].
    rewrite Hr in *. apply rank_eq_nonzero; try assumption.
    + clear -H8x Hhi. solve [forder].
    + change (rank (Prim2SF 8)) with (1, -49, 4503599627370496)%Z. discriminate.
  - intros Hl8. unfold max2. rewrite H8, Hnn. cbn [orb].
    destruct (8 <? min2 x limit)%float eqn:H1.
    { exfalso. clear -H1 Hnl Hl8. solve [forder]. }
    destruct (min2 x limit <? 8)%float eqn:H2; [reflexivity|].
    exfalso. clear -H2 Hnl Hl8 Hnn H8. solve [forder].
  - intros Hx8. unfold max2. rewrite H8, Hnn. cbn [orb].
    destruct (8 <? min2 x limit)%float eqn:H1.
    { exfalso. clear -H1 Hnx Hx8. solve [forder]. }
    destruct (min2 x limit <? 8)%float eqn:H2; [reflexivity|].
    exfalso. clear -H2 Hnx Hx8 Hnn H8. solve [forder].
  - intros H8l Hlx.
    assert (min2 x limit = limit) as ->.
    { unfold min2. rewrite Hx, Hl. cbn [orb].
      destruct (x <? limit)%float eqn:H1.
      { exfalso. clear -H1 Hlx. solve [forder]. }
      rewrite Hlx. reflexivity. }
    clear Hr Hlo Hhi Hn Hnx Hnl Hnn.
    destruct (max2_spec 8 limit H8 Hl) as ([Hr|Hr] & Hlo & Hhi); [|exact Hr].
    rewrite Hr in *. apply rank_eq_nonzero; try assumption.
    + clear -H8l Hhi. solve [forder].
    + change (rank (Prim2SF 8)) with (1, -49, 4503599627370496)%Z. discriminate.
Qed.

(** X25. [setComponentPosition] clamps each coordinate to the board, for
    numbers none of which is NaN.  With the limit the board size less the
    element size less 8: a coordinate between 8 and the limit is kept; a
    coordinate below 8 is moved to 8; a coordinate above the limit is
    moved to the limit, when the limit is 8 or above; and when the limit
    lies below 8, the board being too small, the coordinate is 8.  So
    each coordinate ends at 8 or above, and at or below the limit when
    the limit is 8 or above. *)
Theorem setComponentPosition_clamps
    (rectWidth rectHeight width height x y : number) :
  is_nan x = false -> is_nan y = false ->
  is_nan (rectWidth - width - 8)%float = false ->
  is_nan (rectHeight - height - 8)%float = false ->
  let limitX := (rectWidth - width - 8)%float in
  let limitY := (rectHeight - height - 8)%float in
  let p := setComponentPosition rectWidth rectHeight width height x y in
  (fle 8 p.1 /\ (fle 8 limitX -> fle p.1 limitX)
   /\ (fle 8 x -> fle x limitX -> p.1 = x)
   /\ (flt limitX 8 -> p.1 = 8%float)
   /\ (flt x 8 -> p.1 = 8%float)
   /\ (fle 8 limitX -> flt limitX x -> p.1 = limitX))
  /\ (fle 8 p.2 /\ (fle 8 limitY -> fle p.2 limitY)
      /\ (fle 8 y -> fle y limitY -> p.2 = y)
      /\ (flt limitY 8 -> p.2 = 8%float)
      /\ (flt y 8 -> p.2 = 8%float)
      /\ (fle 8 limitY -> flt limitY y -> p.2 = limitY)).
Proof.
  intros Hx Hy HX HY limitX limitY p. split.
  - apply (clamp8_spec x limitX Hx HX).
  - apply (clamp8_spec y limitY Hy HY).
Qed.

(* ================================================================== *)
(** ** What the view shows at the two ends of a connection             *)
(* ================================================================== *)







(* ================================================================== *)
(** ** The order of the two clicks                                     *)
(* ================================================================== *)

Lemma resolveConnection_sym st a b :
  (forall pa pb, getPort st a = Some pa -> getPort st b = Some pb ->
                 port_role pa = flex -> port_role pb = flex -> False) ->
  resolveConnection st a b = resolveConnection st b a.
Proof.
  intros Hflex. rewrite !resolveConnection_eq.
  destruct (getPort st a) as [pa|] eqn:Ha, (getPort st b) as [pb|] eqn:Hb;
    try reflexivity.
  destruct (port_role pa) eqn:Ra, (port_role pb) eqn:Rb; try reflexivity.
  destruct (Hflex pa pb eq_refl eq_refl Ra Rb).
Qed.

(** X27. Unless both ports are Flex ports, the order in which two ports
    are clicked makes no difference: the same connection is accepted or
    turned down, and the same state follows. *)
Theorem tryConnect_sym (st : state) (a b : portRef) :
  (forall pa pb, getPort st a = Some pa -> getPort st b = Some pb ->
                 port_role pa = flex -> port_role pb = flex -> False) ->
  tryConnect a b st = tryConnect b a st.
Proof.
  intros Hflex. unfold tryConnect.
  rewrite (resolveConnection_sym st a b Hflex).
  rewrite (bool_decide_ext (componentId a = componentId b)
             (componentId b = componentId a)) by (split; congruence).
  reflexivity.
Qed.

(* ================================================================== *)
(** ** A selection that outlives a reset                               *)
(* ================================================================== *)

Lemma resetGrid_eq st :
  resetGrid st
  = {| components := []; connections := []; selectedPort := selectedPort st;
       idCounter := idCounter st |}.
Proof. reflexivity. Qed.

Lemma afterReset_compute lo sel s :
  afterReset lo sel s -> afterReset lo sel (fst (computeColors s)).
Proof.
  intros (Hc & Hs & Hlo & Hids). unfold afterReset.
  rewrite computeColors_connections, computeColors_selectedPort,
    computeColors_idCounter, (Forall2_sameShape_ids _ _ (computeColors_shape s)).
  auto.
Qed.

Lemma afterReset_perform lo sel a s :
  passive a = true -> afterReset lo sel s -> afterReset lo sel (perform a s).
Proof.
  intros Ha (Hc & Hs & Hlo & Hids).
  destruct a as [type o|ref|first second|cid| |]; try discriminate;
    cbn [perform].
  - rewrite createComponent_eq. unfold afterReset.
    cbn [snd components connections selectedPort idCounter].
    split; [exact Hc|]. split; [exact Hs|]. split; [lia|].
    rewrite map_app. apply Forall_app. split; [exact Hids|].
    constructor; [|constructor]. cbn [comp_id].
    exists (idCounter s + 1)%N. split; [reflexivity|lia].
  - unfold deleteComponent. destruct (findComponent s cid); [|repeat split; auto].
    apply afterReset_compute. unfold afterReset.
    rewrite removeComponent_conns, removeComponent_idCounter,
      removeComponent_components, Hc.
    split; [reflexivity|]. split; [|split; [exact Hlo|]].
    + rewrite removeComponent_selectedPort.
      destruct Hs as [-> | ->]; [|right; reflexivity].
      destruct (bool_decide _); [right|left]; reflexivity.
    + eapply Forall_sublist; [|exact Hids].
      apply sublist_map, spliceFirst_sublist.
  - rewrite resetGrid_eq. unfold afterReset.
    cbn [components connections selectedPort idCounter List.map].
    split; [reflexivity|]. split; [exact Hs|]. split; [exact Hlo|constructor].
  - apply afterReset_compute. repeat split; auto.
Qed.

(** X28. [resetGrid] keeps the port selected before it.  When the
    component of that port had its id from the counter, as every
    component has, the selection is harmless: whatever components are
    created, deleted or recomputed after the reset, the next click on a
    port opens no connection. *)
Theorem stale_selection_harmless (st : state) (sel ref : portRef)
    (l : list action) :
  selectedPort st = Some sel ->
  madeBy "c" (idCounter st) (componentId sel) ->
  forallb passive l = true ->
  selectedPort (resetGrid st) = Some sel
  /\ connections (handlePortClick ref (performAll l (resetGrid st))) = [].
Proof.
  intros Hsel (k0 & Hk0 & Hle) Hl.
  split; [rewrite resetGrid_eq; exact Hsel|].
  assert (afterReset (idCounter st) sel (performAll l (resetGrid st))) as Hafter.
  { assert (afterReset (idCounter st) sel (resetGrid st)) as H0.
    { rewrite resetGrid_eq. unfold afterReset.
      cbn [components connections selectedPort idCounter List.map].
      split; [reflexivity|]. split; [left; exact Hsel|].
      split; [lia|constructor]. }
    revert H0. generalize (resetGrid st). unfold performAll.
    induction l as [|a l IH]; intros s Hs; [exact Hs|].
    cbn [forallb] in Hl. apply andb_true_iff in Hl as [Ha Hl].
    cbn [foldl]. apply (IH Hl). apply afterReset_perform; assumption. }
  destruct Hafter as (Hc & Hs & _ & Hids).
  set (s := performAll l (resetGrid st)) in *.
  unfold handlePortClick. destruct Hs as [-> | ->]; [|exact Hc].
  destruct (tryConnect_cases sel ref s) as [->|(conn & Hacc & _)];
    [exact Hc|exfalso].
  destruct Hacc as (_ & Hres & _). rewrite resolveConnection_eq in Hres.
  destruct (getPort s sel) as [p|] eqn:Hp; [|discriminate].
  destruct (getPort_Some _ _ _ Hp) as (c & _ & Hin & Hid & _).
  rewrite Forall_forall in Hids.
  destruct (Hids (comp_id c)) as (k & Hk & Hlt);
    [apply elem_of_map; eauto|].
  rewrite Hid, Hk0 in Hk. apply (madeBy_inj "c") in Hk. lia.
Qed.

(* ================================================================== *)
(** ** What a storage holds when the loop has converged                *)
(* ================================================================== *)

Lemma storeInbound_quiet_all conns m cid ps :
  forall s ch s',
  storeInbound conns m cid ps (s, ch) = (s', false) ->
  Forall (fun p => port_role p = flex ->
                   colorsEqual (heldColor s (port_id p))
                     (inboundColor conns m cid (port_id p)) = true) ps.
Proof.
  induction ps as [|p ps IH]; intros s ch s' H; [constructor|].
  cbn [storeInbound] in H.
  destruct (hasRole flex p) eqn:Hr; cbn [negb] in H.
  - destruct (colorsEqual (heldColor s (port_id p))
                (inboundColor conns m cid (port_id p))) eqn:Heq; cbn [negb] in H.
    + constructor; [intros _; exact Heq|apply (IH _ _ _ H)].
    + apply storeInbound_quiet in H as [H _]. discriminate.
  - constructor; [|apply (IH _ _ _ H)].
    intros Hflex. apply hasRole_true in Hflex. congruence.
Qed.

Lemma evalComponents_quiet_each conns cs :
  forall m ch cs' m',
  evalComponents conns cs (m, ch) = (cs', (m', false)) ->
  forall i c, cs !! i = Some c ->
  exists c', cs' !! i = Some c'
             /\ evalComponent conns c (m, false) = (c', (m, false)).
Proof.
  induction cs as [|c0 cs IH]; intros m ch cs' m' Hev i c Hi; [discriminate|].
  cbn [evalComponents] in Hev.
  destruct (evalComponent conns c0 (m, ch)) as [c1 [m1 ch1]] eqn:Hc.
  destruct (evalComponents conns cs (m1, ch1)) as [cs1 [m2 ch2]] eqn:Hcs.
  injection Hev as <- <- ->.
  pose proof Hcs as Hq. apply evalComponents_quiet in Hq as (-> & -> & _).
  pose proof Hc as Hq. apply evalComponent_quiet in Hq as (-> & -> & _).
  destruct i as [|i].
  - injection Hi as <-. exists c1. split; [reflexivity|exact Hc].
  - apply (IH _ _ _ _ Hcs i c Hi).
Qed.

(** X29. When [computeColors] stops because its last round changed
    nothing, a storage holds for each of its Flex ports a colour equal to
    the one the port reads in the map returned, and none when the port
    reads none. *)
Theorem storage_holds_inbound_converged (st : state) (r : loopState) (i : nat)
    (c : component) (p : port) :
  exitLoop st = Some r -> changed r = false ->
  components st !! i = Some c -> comp_type c = storage ->
  p ∈ comp_ports c -> port_role p = flex ->
  exists c',
    ls_components r !! i = Some c' /\ comp_id c' = comp_id c
    /\ colorsEqual (held c' (port_id p))
         (inboundColor (connections st) (portOutputs r) (comp_id c) (port_id p))
       = true.
Proof.
  intros Hexit Hch Hi T Hp Hrole.
  apply exitLoop_rounds in Hexit as [n Hr].
  set (s := Nat.iter n (round (connections st)) (enterLoop st)) in *.
  pose proof (rounds_shape (connections st) n (enterLoop st)) as Hsh.
  fold s in Hsh. cbn [enterLoop ls_components] in Hsh.
  destruct (Forall2_sameShape_lookup _ _ i c Hsh Hi) as (c0 & Hc0 & Hshape).
  unfold round in Hr.
  destruct (evalComponents (connections st) (ls_components s)
              (portOutputs s, false)) as [cs' [m' ch']] eqn:Hev.
  subst r. cbn [changed ls_components portOutputs] in *. subst ch'.
  destruct (evalComponents_quiet_each _ _ _ _ _ _ Hev i c0 Hc0) as (c' & Hc' & He).
  apply evalComponents_quiet in Hev as (_ & -> & _).
  pose proof Hshape as (Hid & Hty & _ & Hports & _).
  exists c'. split; [exact Hc'|].
  unfold evalComponent in He. rewrite Hty, T in He.
  destruct (storeInbound _ _ _ _ _) as [s1 ch1] eqn:Hst.
  injection He as <- Hem. cbn [fst snd] in *.
  apply emitStored_quiet in Hem as [-> _].
  pose proof (storeInbound_quiet_all _ _ _ _ _ _ _ Hst) as Hall.
  apply storeInbound_quiet in Hst as [_ ->].
  cbn [set_storageSlots comp_id]. split; [exact Hid|].
  rewrite Forall_forall in Hall. rewrite <- Hports in Hp.
  specialize (Hall p Hp Hrole). rewrite Hid in Hall.
  unfold held. cbn [comp_storageSlots]. exact Hall.
Qed.

(* ================================================================== *)
(** ** The warning of a storage                                        *)
(* ================================================================== *)




(* ================================================================== *)
(** ** The properties on the example grids                             *)
(* ================================================================== *)

Lemma sinks_unique_witness :
  NoDup (map conn_to (connections scene_fan)).
Proof.
  apply (sinks_unique scene_fan).
  unfold scene_fan, scene_mix. do 2 apply reachable_performAll.
  apply reachable_init.
Defined.

(** The second input of the adder of [scene_mix] is fed by the blue
    factory: a further output of the red factory is turned down there. *)
Lemma tryConnect_rejects_witness :
  tryConnect (PortRef "c-2" "p-4") (PortRef "c-12" "p-14") scene_mix
  = (None, clearSelection scene_mix).
Proof.
  apply (tryConnect_rejects scene_mix).
  apply (reject_sink_fed scene_mix _ _
           {| port_id := "p-4"; port_role := output |}
           {| port_id := "p-14"; port_role := input |}
           (PortRef "c-2" "p-4") (PortRef "c-12" "p-14")
           {| conn_id := "link-17"; conn_from := PortRef "c-7" "p-8";
              conn_to := PortRef "c-12" "p-14" |});
    try (vm_compute; reflexivity).
  apply list_elem_of_In. vm_compute. right. left. reflexivity.
Defined.

(** In [scene_fan] the output of the adder already feeds the storage and
    is accepted as the source of a second connection; the first output of
    the red factory already feeds the adder and is turned down. *)
Lemma source_capacity_witness :
  (exists conn st',
     tryConnect (PortRef "c-18" "p-20") (PortRef "c-12" "p-15") scene_fan
     = (Some conn, st')
     /\ conn_from conn = PortRef "c-12" "p-15"
     /\ conn_to conn = PortRef "c-18" "p-20"
     /\ connections st' = connections scene_fan ++ [conn])
  /\ tryConnect (PortRef "c-2" "p-3") (PortRef "c-18" "p-21") scene_fan
     = (None, clearSelection scene_fan).
Proof.
  split.
  - refine (proj1 (source_capacity scene_fan
                     (PortRef "c-18" "p-20") (PortRef "c-12" "p-15")
                     {| port_id := "p-20"; port_role := flex |}
                     {| port_id := "p-15"; port_role := output |}
                     {| port_id := "p-15"; port_role := output |}
                     (PortRef "c-12" "p-15") (PortRef "c-18" "p-20")
                     _ _ _ _ _) _ _ 1%nat _);
      try (vm_compute; reflexivity).
    + vm_compute. discriminate.
    + exists (componentOf scene_fan "c-12").
      split; [vm_compute; reflexivity|].
      split; [left; vm_compute; reflexivity|reflexivity].
  - refine (proj2 (source_capacity scene_fan
                     (PortRef "c-2" "p-3") (PortRef "c-18" "p-21")
                     {| port_id := "p-3"; port_role := output |}
                     {| port_id := "p-21"; port_role := flex |}
                     {| port_id := "p-3"; port_role := output |}
                     (PortRef "c-2" "p-3") (PortRef "c-18" "p-21")
                     _ _ _ _ _) _ _);
      try (vm_compute; reflexivity).
    + vm_compute. discriminate.
    + exists (componentOf scene_fan "c-2").
      split; [vm_compute; reflexivity|].
      left. split; [vm_compute; reflexivity|reflexivity].
    + exists {| conn_id := "link-16"; conn_from := PortRef "c-2" "p-3";
                conn_to := PortRef "c-12" "p-13" |}.
      split; [|reflexivity].
      apply list_elem_of_In. vm_compute. left. reflexivity.
Defined.

(** Selecting the input of the adder first and the output of the factory
    second still yields the connection from the output to the input. *)
Lemma accepted_orientation_witness :
  exists pa pb,
    getPort scene_mix (PortRef "c-12" "p-14") = Some pa
    /\ getPort scene_mix (PortRef "c-2" "p-4") = Some pb
    /\ orientation (port_role pa) (port_role pb)
         (PortRef "c-12" "p-14") (PortRef "c-2" "p-4")
       = Some (PortRef "c-2" "p-4", PortRef "c-12" "p-14").
Proof.
  set (st := set_connections scene_mix
               [ {| conn_id := "link-16"; conn_from := PortRef "c-2" "p-3";
                    conn_to := PortRef "c-12" "p-13" |} ]).
  destruct (accepted_orientation st
              (snd (tryConnect (PortRef "c-12" "p-14") (PortRef "c-2" "p-4") st))
              (PortRef "c-12" "p-14") (PortRef "c-2" "p-4")
              {| conn_id := "link-18"; conn_from := PortRef "c-2" "p-4";
                 conn_to := PortRef "c-12" "p-14" |})
    as (pa & pb & Ha & Hb & Ho & _).
  - vm_compute. reflexivity.
  - exists pa, pb. auto.
Defined.


(** The storage of [scene_unfed] holds red for its first port, which has
    lost its incoming connection. *)
Lemma storage_held_follows_inbound_witness :
  held (componentOf scene_unfed "c-7") "p-8" = Some red
  /\ exists c', components (fst (computeColors scene_unfed)) !! 0%nat = Some c'
                /\ comp_id c' = "c-7" /\ held c' "p-8" = None.
Proof.
  split; [vm_compute; reflexivity|].
  refine (proj2 (storage_held_follows_inbound scene_unfed 0
                   (componentOf scene_unfed "c-7")
                   {| port_id := "p-8"; port_role := flex |} _ _ _ _) _);
    try (vm_compute; reflexivity).
  apply list_elem_of_In. vm_compute. left. reflexivity.
Defined.

(** C3: the claim fails on [scene_unfed], the grid [deleteComponent]
    recomputes when the factory of [scene_store] is deleted: the port
    [p-8] of the storage has no incoming connection and holds red, and
    [computeColors] clears it. *)
Lemma unfed_port_cleared :
  findInbound (connections scene_unfed) "c-7" "p-8" = None
  /\ held (componentOf scene_unfed "c-7") "p-8" = Some red
  /\ held (componentOf (fst (computeColors scene_unfed)) "c-7") "p-8" = None
  /\ deleteComponent "c-2" scene_store = fst (computeColors scene_unfed).
Proof. vm_compute. repeat split; reflexivity. Qed.


(** [scene_fan] is built by the operations from the empty grid, and two
    calls in a row return the same map on it. *)
Lemma recompute_idempotent_witness :
  snd (computeColors (fst (computeColors scene_fan)))
  = snd (computeColors scene_fan).
Proof.
  apply (recompute_idempotent scene_fan).
  unfold scene_fan, scene_mix. do 2 apply reachable_performAll.
  apply reachable_init.
Defined.

(* ================================================================== *)
(** ** The properties of the grid on the example grids                 *)
(* ================================================================== *)

(** [scene_mix64], whose counter is 17. *)
Lemma port_ids_unique_witness :
  (idCounter scene_mix64 < counterBound)%N
  /\ NoDup (allPortIds (components scene_mix64))
  /\ NoDup (allKeys (components scene_mix64)).
Proof.
  split; [vm_compute; reflexivity|].
  apply (port_ids_unique scene_mix64).
  - unfold scene_mix64. apply reachable64_performAll, Binary64.reachable_init.
  - vm_compute. reflexivity.
Defined.

Lemma component_ids_unique_witness :
  (idCounter scene_mix64 < counterBound)%N
  /\ NoDup (List.map comp_id (components scene_mix64))
  /\ forall c, c ∈ components scene_mix64 ->
               findComponent scene_mix64 (comp_id c) = Some c.
Proof.
  split; [vm_compute; reflexivity|].
  apply (component_ids_unique scene_mix64).
  - unfold scene_mix64. apply reachable64_performAll, Binary64.reachable_init.
  - vm_compute. reflexivity.
Defined.

Lemma connection_ids_unique_witness :
  (idCounter scene_mix64 < counterBound)%N
  /\ NoDup (List.map conn_id (connections scene_mix64)).
Proof.
  split; [vm_compute; reflexivity|].
  apply (connection_ids_unique scene_mix64).
  - unfold scene_mix64. apply reachable64_performAll, Binary64.reachable_init.
  - vm_compute. reflexivity.
Defined.

(** The adder of [scene_mix] has two Input ports and one Output port,
    and no slots. *)
Lemma components_built_witness :
  List.map port_role (comp_ports (componentOf scene_mix "c-12"))
  = layout (comp_type (componentOf scene_mix "c-12"))
  /\ (is_Some (comp_storageSlots (componentOf scene_mix "c-12"))
      <-> comp_type (componentOf scene_mix "c-12") = storage).
Proof.
  apply (components_built scene_mix).
  - unfold scene_mix. apply reachable_performAll, reachable_init.
  - apply list_elem_of_In. vm_compute. do 2 right. left. reflexivity.
Defined.

Lemma connections_wired_witness :
  let conn := {| conn_id := "link-16"; conn_from := PortRef "c-2" "p-3";
                 conn_to := PortRef "c-12" "p-13" |} in
  exists pf pt,
    getPort scene_mix (conn_from conn) = Some pf
    /\ getPort scene_mix (conn_to conn) = Some pt
    /\ port_role pf <> input /\ port_role pt <> output
    /\ componentId (conn_from conn) <> componentId (conn_to conn).
Proof.
  intros conn. apply (connections_wired scene_mix conn).
  - unfold scene_mix. apply reachable_performAll, reachable_init.
  - apply list_elem_of_In. vm_compute. left. reflexivity.
Defined.

Lemma sources_are_outputs_witness :
  let conn := {| conn_id := "link-16"; conn_from := PortRef "c-2" "p-3";
                 conn_to := PortRef "c-12" "p-13" |} in
  exists c p,
    findComponent scene_mix (componentId (conn_from conn)) = Some c
    /\ getPort scene_mix (conn_from conn) = Some p
    /\ isPortOutput (connections scene_mix) p c = true.
Proof.
  intros conn. apply (sources_are_outputs scene_mix conn).
  - unfold scene_mix. apply reachable_performAll, reachable_init.
  - apply list_elem_of_In. vm_compute. left. reflexivity.
Defined.

(** In [scene_fan2] the output of the adder feeds two connections. *)
Lemma fan_out_only_from_mixers_witness :
  exists c p,
    findComponent scene_fan2 "c-12" = Some c
    /\ getPort scene_fan2 (PortRef "c-12" "p-15") = Some p
    /\ (comp_type c = adder \/ comp_type c = gradientor)
    /\ port_role p = output.
Proof.
  apply (fan_out_only_from_mixers scene_fan2 (PortRef "c-12" "p-15")).
  - unfold scene_fan2, scene_fan, scene_mix.
    do 3 apply reachable_performAll. apply reachable_init.
  - vm_compute. lia.
Defined.


(** A storage created on [scene_mix64], which takes the counter from 17
    to 24. *)
Lemma createComponent_appends_witness :
  let c := fst (Binary64.createComponent storage plain scene_mix64) in
  let st' := snd (Binary64.createComponent storage plain scene_mix64) in
  components st' = components scene_mix64 ++ [c]
  /\ connections st' = connections scene_mix64
  /\ selectedPort st' = selectedPort scene_mix64
  /\ idCounter st'
     = (idCounter scene_mix64 + 1 + N.of_nat (length (layout storage)))%N
  /\ comp_type c = storage /\ comp_color c = opt_color plain
  /\ comp_mode c = opt_mode plain
  /\ List.map port_role (comp_ports c) = layout storage
  /\ (comp_id c ∉ List.map comp_id (components scene_mix64))
  /\ (forall pid, pid ∈ portIdsOf c ->
                  pid ∉ allPortIds (components scene_mix64)).
Proof.
  apply (createComponent_appends scene_mix64 storage plain).
  - unfold scene_mix64. apply reachable64_performAll, Binary64.reachable_init.
  - vm_compute. discriminate.
Defined.

(** A red factory created on the empty grid and deleted, the grid
    reset, and a blue factory created: the blue factory is [c-7] with
    the ports [p-8] to [p-11], the red one was [c-2] with the ports
    [p-3] to [p-6]. *)
Lemma ids_never_reused_witness :
  let c := fst (Binary64.createComponent factory (paint red) init) in
  let st1 := snd (Binary64.createComponent factory (paint red) init) in
  let st2 := Binary64.performAll [Delete "c-2"; Reset] st1 in
  let c' := fst (Binary64.createComponent factory (paint blue) st2) in
  (comp_id c = "c-2" /\ comp_id c' = "c-7")
  /\ comp_id c' <> comp_id c
  /\ (forall pid, pid ∈ portIdsOf c' -> pid ∉ portIdsOf c).
Proof.
  split; [split; vm_compute; reflexivity|].
  apply (ids_never_reused init [Delete "c-2"; Reset] factory factory
           (paint red) (paint blue)).
  - apply Binary64.reachable_init.
  - vm_compute. discriminate.
Defined.

Lemma portKey_inj_witness :
  PortRef "c-2" "p-3"
  = {| componentId := "c-" +:+ "2"; portId := "p-" +:+ "3" |}.
Proof.
  apply (portKey_inj (PortRef "c-2" "p-3")
           {| componentId := "c-" +:+ "2"; portId := "p-" +:+ "3" |});
    vm_compute; reflexivity.
Defined.

(* ================================================================== *)
(** ** The properties of the map on the example grids                  *)
(* ================================================================== *)

(** The map of [scene_mix] has red at the first port of the red
    factory. *)
Lemma colours_at_written_ports_witness :
  exists c p, c ∈ components scene_mix /\ p ∈ comp_ports c
              /\ "c-2:p-3" = keyOf c p /\ port_role p <> input.
Proof.
  apply (colours_at_written_ports scene_mix "c-2:p-3" red).
  - unfold scene_mix. apply reachable_performAll, reachable_init.
  - vm_compute. reflexivity.
Defined.


(** The gradientor of [scene_dark] darkens the red it reads. *)
Lemma gradientor_output_converged_witness :
  let r := match exitLoop scene_dark with
           | Some r => r
           | None => enterLoop scene_dark
           end in
  getOutput (portOutputs r) "c-7:p-9" = Some (rgb 204 0 0).
Proof.
  intros r.
  refine (eq_trans
            (gradientor_output_converged scene_dark r
               (componentOf scene_dark "c-7")
               {| port_id := "p-8"; port_role := input |}
               {| port_id := "p-9"; port_role := output |} _ _ _ _ _ _ _ _ _) _);
    try (vm_compute; reflexivity).
  - unfold scene_dark. apply reachable_performAll, reachable_init.
  - apply list_elem_of_In. vm_compute. right. left. reflexivity.
  - apply list_elem_of_In. vm_compute. left. reflexivity.
  - apply list_elem_of_In. vm_compute. right. left. reflexivity.
Defined.


Lemma setPortOutput_again_witness :
  let m' := fst (setPortOutput ∅ "c-2:p-3" (Some red)) in
  setPortOutput m' "c-2:p-3" (Some red) = (m', false)
  /\ colorsEqual (getOutput m' "c-2:p-3") (Some red) = true
  /\ forall k', k' <> "c-2:p-3" -> getOutput m' k' = getOutput ∅ k'.
Proof.
  apply (setPortOutput_again ∅ "c-2:p-3" (Some red)). vm_compute. reflexivity.
Defined.

Lemma nan_factory_never_converges_witness :
  exists r, exitLoop scene_nan = Some r /\ guard r = 8 /\ changed r = true.
Proof.
  apply (nan_factory_never_converges scene_nan (componentOf scene_nan "c-2")
           {| port_id := "p-3"; port_role := output |}).
  - apply list_elem_of_In. vm_compute. left. reflexivity.
  - vm_compute. reflexivity.
  - apply list_elem_of_In. vm_compute. left. reflexivity.
  - reflexivity.
  - vm_compute. reflexivity.
Defined.

Lemma adjustColor_8bit_witness :
  adjustColor (Some (rgb 255 128 1)) darken = Some (rgb 204 102 1)
  /\ adjustColor (Some (rgb 255 128 1)) lighten = Some (rgb 255 154 1).
Proof. apply (adjustColor_8bit 255 128 1); lia. Defined.

(** A component 150 wide and 100 high on a board of 800 by 600, dropped
    at (900, 3), ends at (642, 8): 900 lies above the limit 642 and is
    moved to it, 3 lies below 8 and is moved to 8. *)
Lemma setComponentPosition_clamps_witness :
  (fle 8 (800 - 150 - 8) /\ flt (800 - 150 - 8) 900 /\ flt 3 8)
  /\ setComponentPosition 800 600 150 100 900 3 = (642, 8)%float.
Proof.
  split; [repeat split|].
  pose proof (setComponentPosition_clamps 800 600 150 100 900 3
                eq_refl eq_refl eq_refl eq_refl) as H.
  cbv zeta in H.
  destruct H as [(_ & _ & _ & _ & _ & HX) (_ & _ & _ & _ & HY & _)].
  specialize (HX eq_refl eq_refl). specialize (HY eq_refl).
  rewrite (surjective_pairing (setComponentPosition 800 600 150 100 900 3)).
  rewrite HX, HY. reflexivity.
Defined.


(** The second output of the red factory and the second input of the
    adder of [scene_mix], clicked in either order. *)
Lemma tryConnect_sym_witness :
  tryConnect (PortRef "c-2" "p-4") (PortRef "c-12" "p-14") scene_mix
  = tryConnect (PortRef "c-12" "p-14") (PortRef "c-2" "p-4") scene_mix.
Proof.
  apply (tryConnect_sym scene_mix (PortRef "c-2" "p-4") (PortRef "c-12" "p-14")).
  intros pa pb Ha Hb Ra Rb. vm_compute in Ha. injection Ha as <-.
  discriminate Ra.
Defined.

(** The storage of [scene_store] holds red for the port the red factory
    feeds. *)
Lemma storage_holds_inbound_converged_witness :
  let r := match exitLoop scene_store with
           | Some r => r
           | None => enterLoop scene_store
           end in
  exists c',
    ls_components r !! 1%nat = Some c'
    /\ comp_id c' = comp_id (componentOf scene_store "c-7")
    /\ colorsEqual (held c' "p-8")
         (inboundColor (connections scene_store) (portOutputs r)
            (comp_id (componentOf scene_store "c-7")) "p-8")
       = true.
Proof.
  intros r.
  apply (storage_holds_inbound_converged scene_store r 1
           (componentOf scene_store "c-7")
           {| port_id := "p-8"; port_role := flex |});
    try (vm_compute; reflexivity).
  apply list_elem_of_In. vm_compute. left. reflexivity.
Defined.


(** The first output of the red factory of [scene_mix] is selected, the
    grid is reset and a storage is created: a click on a port of the
    storage opens no connection. *)
Lemma stale_selection_harmless_witness :
  let st := select (PortRef "c-2" "p-3") scene_mix in
  selectedPort (resetGrid st) = Some (PortRef "c-2" "p-3")
  /\ connections
       (handlePortClick (PortRef "c-18" "p-19")
          (performAll [Create storage plain] (resetGrid st))) = [].
Proof.
  intros st.
  apply (stale_selection_harmless st (PortRef "c-2" "p-3")
           (PortRef "c-18" "p-19") [Create storage plain]).
  - reflexivity.
  - exists 2%N. split; [reflexivity|]. vm_compute. discriminate.
  - reflexivity.
Defined.
